(** * netrd: CorrelationSpanningTree

    A shallow embedding of [netrd/reconstruction/correlation_spanning_tree.py]
    and of the NumPy, SciPy and NetworkX routines that [fit] calls, followed
    by the properties of [fit] that the specification states and by further
    properties of the graph, of the distance matrix and of the results that
    [fit] leaves behind.

    [fit] is a handful of library calls, so what it does is what the
    libraries do.  They are modelled here from their documented behaviour:

    - [np.corrcoef]: covariance of the rows with [ddof = 1], [squeeze]d,
      divided by the standard deviations of row and column, and clipped to
      [[-1, 1]];
    - [scipy.sparse.csgraph.minimum_spanning_tree] on a dense matrix: the
      entries that are zero (within [1e-8]), infinite or not-a-number are no
      edges; Kruskal's algorithm runs on the others;
    - [nx.from_scipy_sparse_matrix]: the nodes [0 .. N-1] and one weighted
      edge for every stored entry.

    Numbers are IEEE-754 binary64 values, represented by the Standard
    Library's executable specification of floating-point arithmetic
    ([SpecFloat], precision 53, maximal exponent 1024), so every definition
    evaluates on concrete inputs.

    [np.sum] and [np.dot] add from left to right, as NumPy does on a row of
    fewer than eight numbers.  NumPy adds a longer row with eight partial
    sums, and the dot products are left to BLAS, so the properties that
    depend on what the two reductions return are stated for every choice of
    them ([Reductions], [fit_with]); the others hold of the graph for
    whatever distance matrix is computed. *)

From Stdlib Require Import ZArith List Bool Lia Sorted SpecFloat.
From stdpp Require Import gmap strings list sets.

Local Open Scope nat_scope.

(** ** Binary64 arithmetic *)

Module F64.

Definition prec : Z := 53.
Definition emax : Z := 1024.

Definition t := spec_float.

Definition of_Z (z : Z) : t := binary_normalize prec emax z 0 false.
Definition of_nat (n : nat) : t := of_Z (Z.of_nat n).

Definition zero : t := S754_zero false.
Definition one : t := of_Z 1.
Definition two : t := of_Z 2.
Definition nan : t := S754_nan.

Definition add : t -> t -> t := SFadd prec emax.
Definition sub : t -> t -> t := SFsub prec emax.
Definition mul : t -> t -> t := SFmul prec emax.
Definition div : t -> t -> t := SFdiv prec emax.
Definition sqrt : t -> t := SFsqrt prec emax.
Definition abs : t -> t := SFabs.
Definition opp : t -> t := SFopp.

Definition ltb : t -> t -> bool := SFltb.
Definition leb : t -> t -> bool := SFleb.

Definition is_nan (x : t) : bool :=
  match x with S754_nan => true | _ => false end.
Definition is_inf (x : t) : bool :=
  match x with S754_infinity _ => true | _ => false end.
Definition is_zero (x : t) : bool :=
  match x with S754_zero _ => true | _ => false end.

(** A value that is a zero of either sign or not-a-number: what a sum of
    products with a zero factor can be. *)
Definition zero_or_nan (x : t) : bool := is_zero x || is_nan x.

(** [valid x]: the mantissa and exponent of [x] are the canonical ones of a
    binary64 number. *)
Definition valid (x : t) : bool := valid_binary prec emax x.

End F64.

Declare Scope f64_scope.
Delimit Scope f64_scope with f64.
Bind Scope f64_scope with F64.t.
Infix "+" := F64.add : f64_scope.
Infix "-" := F64.sub : f64_scope.
Infix "*" := F64.mul : f64_scope.
Infix "/" := F64.div : f64_scope.

(** ** NumPy arrays

    An [ndarray] is a shape and the elements in row-major order, as a
    C-contiguous array is laid out.  A zero-dimensional array has shape
    [[]] and one element. *)

Record ndarray := mk_ndarray { shape : list nat; data : list F64.t }.

Definition ndim (a : ndarray) : nat := length (shape a).

(** [a[i][j]] of a two-dimensional array with [ncols] columns. *)
Definition get2 (a : ndarray) (i j : nat) : option F64.t :=
  match shape a with
  | [_; ncols] => if j <? ncols then data a !! (i * ncols + j) else None
  | _ => None
  end.

(** Row [i] of a two-dimensional array. *)
Definition row (L : nat) (d : list F64.t) (i : nat) : list F64.t :=
  take L (drop (i * L) d).

(** The [n] by [m] array whose entry [(i, j)] is [f i j]. *)
Definition tabulate2 (n m : nat) (f : nat -> nat -> F64.t) : ndarray :=
  {| shape := [n; m];
     data := flat_map (fun i => map (f i) (seq 0 m)) (seq 0 n) |}.

(** Element-wise application of a unary function (a NumPy ufunc). *)
Definition ufunc (f : F64.t -> F64.t) (a : ndarray) : ndarray :=
  {| shape := shape a; data := map f (data a) |}.

Module np.

(** [np.add.reduce] over a row, left to right from [0.0]: the order of
    NumPy's summation loop on a row of fewer than eight numbers.  A longer
    row is added with eight partial sums: see [Reductions] below. *)
Definition sum (xs : list F64.t) : F64.t :=
  fold_left F64.add xs F64.zero.

(** [a.mean(axis=1)] of one row: the sum divided by the count. *)
Definition mean (xs : list F64.t) : F64.t :=
  (sum xs / F64.of_nat (length xs))%f64.

(** One entry of [dot(X, X.T)], the products added from left to right.
    BLAS arranges the products as it sees fit: see [Reductions] below. *)
Definition dot (xs ys : list F64.t) : F64.t :=
  fold_left F64.add (zip_with F64.mul xs ys) F64.zero.

(** [X -= avg[:, None]] on one row. *)
Definition deviations (xs : list F64.t) : list F64.t :=
  map (fun x => (x - mean xs)%f64) xs.

(** [fact = L - ddof] with [ddof = 1]; NumPy warns and takes [0.0] when
    it is not positive. *)
Definition fact (L : nat) : F64.t :=
  if L <=? 1 then F64.zero else F64.of_nat (L - 1).

(** [squeeze]: drop the axes of length one. *)
Definition squeeze (a : ndarray) : ndarray :=
  {| shape := List.filter (fun n => negb (n =? 1)) (shape a); data := data a |}.

(** [np.cov(m)] of an [N] by [L] array whose rows are variables. *)
Definition cov (N L : nat) (d : list F64.t) : ndarray :=
  if N =? 0 then {| shape := [0; 0]; data := [] |}
  else
    let X := fun i => deviations (row L d i) in
    squeeze
      (tabulate2 N N
         (fun i j => (dot (X i) (X j) * (F64.one / fact L))%f64)).

(** [np.clip(x, -1, 1)]: [minimum(maximum(x, -1), 1)]; not-a-number
    passes through. *)
Definition clip (x : F64.t) : F64.t :=
  if F64.is_nan x then x
  else if F64.ltb x (F64.opp F64.one) then F64.opp F64.one
  else if F64.ltb F64.one x then F64.one
  else x.

(** [np.corrcoef(x)]: the covariance divided by the standard deviation of
    its row, then by that of its column, then clipped.  [cov] returns a
    two-dimensional array or, after [squeeze], a zero-dimensional one; the
    latter has no diagonal, and is divided by itself. *)
Definition corrcoef (N L : nat) (d : list F64.t) : ndarray :=
  let c := cov N L d in
  match shape c with
  | [n; m] =>
      let cv := fun i j => default F64.nan (get2 c i j) in
      let stddev := fun i => F64.sqrt (cv i i) in
      tabulate2 n m (fun i j => clip (cv i j / stddev i / stddev j)%f64)
  | _ => ufunc (fun x => (x / x)%f64) c
  end.

Definition square (x : F64.t) : F64.t := (x * x)%f64.

End np.

(** ** SciPy: [scipy.sparse.csgraph.minimum_spanning_tree] *)

Inductive exn :=
| ValueError (msg : string).

Module csgraph.

(** A sparse matrix: its order and its stored entries [(row, col, data)]
    in row-major order, the order in which CSR storage keeps them. *)
Record csr_matrix := mk_csr { csr_n : nat; entries : list (nat * nat * F64.t) }.

(** The absolute tolerance of [np.ma.masked_values], [1e-8]. *)
Definition atol : F64.t := (F64.one / F64.of_Z 100000000)%f64.

(** [csgraph_from_dense(graph, null_value=0, nan_null=True,
    infinity_null=True)] masks the entries that are no edge: those within
    [atol] of zero, the infinite ones and the not-a-number ones. *)
Definition is_null (x : F64.t) : bool :=
  F64.is_nan x || F64.is_inf x || F64.leb (F64.abs x) atol.

Definition dense_entries (n : nat) (a : ndarray) : list (nat * nat * F64.t) :=
  flat_map
    (fun i =>
       omap (fun j => match get2 a i j with
                      | Some x => if is_null x then None else Some (i, j, x)
                      | None => None
                      end) (seq 0 n))
    (seq 0 n).

(** [validate_graph]: a dense graph is a square two-dimensional array. *)
Definition csgraph_from_dense (a : ndarray) : exn + csr_matrix :=
  match shape a with
  | [n; m] =>
      if n =? m then inr {| csr_n := n; entries := dense_entries n a |}
      else inl (ValueError "graph should be a square array")
  | _ => inl (ValueError "graph should have two dimensions")
  end.

(** [np.argsort(data)]: the positions of [data] by increasing value.  A
    position stays before the later positions of equal value, as in the
    insertion sort that NumPy applies to a short array. *)
Fixpoint insert_pos (dat : list F64.t) (j : nat) (sorted : list nat) : list nat :=
  match sorted with
  | [] => [j]
  | k :: rest =>
      if F64.ltb (default F64.nan (dat !! k)) (default F64.nan (dat !! j))
      then k :: insert_pos dat j rest
      else j :: sorted
  end.

Definition argsort (dat : list F64.t) : list nat :=
  foldr (insert_pos dat) [] (seq 0 (length dat)).

(** The components of the growing forest: a label for every vertex.
    SciPy keeps them as a union-find forest ([predecessors], [rank]); the
    loop below only asks whether two vertices have the same root. *)
Definition find (comp : list nat) (v : nat) : nat := default v (comp !! v).

Definition union (comp : list nat) (r1 r2 : nat) : list nat :=
  map (fun c => if c =? r2 then r1 else c) comp.

(** [_min_spanning_tree]: Kruskal's loop over the entries by increasing
    weight.  An entry whose end points are already connected, or that
    comes after the tree is complete, has its weight set to zero. *)
Fixpoint _min_spanning_tree (n_verts : nat) (ent : list (nat * nat * F64.t))
    (i_sort : list nat) (dat : list F64.t) (comp : list nat)
    (n_edges_in_mst : nat) : list F64.t :=
  match i_sort with
  | [] => dat
  | j :: rest =>
      if n_edges_in_mst <? n_verts - 1 then
        match ent !! j with
        | Some (V1, V2, _) =>
            let R1 := find comp V1 in
            let R2 := find comp V2 in
            if R1 =? R2 then
              _min_spanning_tree n_verts ent rest (<[j := F64.zero]> dat)
                comp n_edges_in_mst
            else
              _min_spanning_tree n_verts ent rest dat
                (union comp R1 R2) (S n_edges_in_mst)
        | None =>
            _min_spanning_tree n_verts ent rest dat comp n_edges_in_mst
        end
      else
        _min_spanning_tree n_verts ent rest (<[j := F64.zero]> dat)
          comp n_edges_in_mst
  end.

(** [sp_tree.eliminate_zeros()]. *)
Definition eliminate_zeros (ent : list (nat * nat * F64.t)) : list (nat * nat * F64.t) :=
  List.filter (fun e => negb (F64.is_zero e.2)) ent.

Definition set_data (ent : list (nat * nat * F64.t)) (dat : list F64.t)
  : list (nat * nat * F64.t) :=
  zip_with (fun e x => (e.1, x)) ent dat.

Definition mst_of_csr (g : csr_matrix) : csr_matrix :=
  let dat := map snd (entries g) in
  let dat' := _min_spanning_tree (csr_n g) (entries g) (argsort dat) dat
                (seq 0 (csr_n g)) 0 in
  {| csr_n := csr_n g; entries := eliminate_zeros (set_data (entries g) dat') |}.

Definition minimum_spanning_tree (a : ndarray) : exn + csr_matrix :=
  match csgraph_from_dense a with
  | inl e => inl e
  | inr g => inr (mst_of_csr g)
  end.

End csgraph.

(** ** NetworkX: an undirected simple graph with weighted edges *)

Module nx.

(** An edge is keyed by its end points, the smaller first, so that
    [(u, v)] and [(v, u)] are one edge, as in [nx.Graph]. *)
Definition edge_key (u v : nat) : nat * nat := (Nat.min u v, Nat.max u v).

Record Graph := mk_Graph { nodes : gset nat; edges : gmap (nat * nat) F64.t }.

Definition add_weighted_edge (e : nat * nat * F64.t) (G : Graph) : Graph :=
  let '(u, v, w) := e in
  {| nodes := {[u]} ∪ ({[v]} ∪ nodes G);
     edges := <[edge_key u v := w]> (edges G) |}.

(** [nx.from_scipy_sparse_matrix(A)]: the nodes [range(n)], then one
    weighted edge for every stored entry, in storage order. *)
Definition from_scipy_sparse_matrix (A : csgraph.csr_matrix) : Graph :=
  fold_left (fun G e => add_weighted_edge e G) (csgraph.entries A)
    {| nodes := list_to_set (seq 0 (csgraph.csr_n A)); edges := ∅ |}.

Definition has_edge (G : Graph) (u v : nat) : Prop :=
  is_Some (edges G !! edge_key u v).

Definition number_of_edges (G : Graph) : nat := size (edges G).

(** The sum of the edge weights, in key order. *)
Definition total_weight (G : Graph) : F64.t :=
  fold_left F64.add (map snd (map_to_list (edges G))) F64.zero.

End nx.

(** ** Python objects and the reconstructor instance *)

Inductive pyobj :=
| PyArray (a : ndarray)
| PyGraph (G : nx.Graph).

(** Modelled from the spec: [BaseReconstructor] (netrd/reconstruction/base.py)
    is not part of the sources at hand.  The spec calls what [fit] writes to
    an instance-attached mutable results store, with the distance matrix
    under the key [distance_matrix]; [fit] itself indexes it as a dictionary,
    [self.results]. *)
Record BaseReconstructor := mk_self { results : gmap string pyobj }.

(** A method body: it reads and updates the instance, and returns a value
    or raises. *)
Definition method (A : Type) : Type :=
  BaseReconstructor -> BaseReconstructor * (exn + A).

#[global] Instance method_ret : MRet method :=
  fun A (x : A) self => (self, inr x).

Definition raise {A} (e : exn) : method A := fun self => (self, inl e).

#[global] Instance method_bind : MBind method :=
  fun A B (k : A -> method B) (m : method A) self =>
    match m self with
    | (self', inr x) => k x self'
    | (self', inl e) => (self', inl e)
    end.

Definition lift {A} (r : exn + A) : method A := fun self => (self, r).

(** [self.results[key] = value] *)
Definition set_result (key : string) (value : pyobj) : method unit :=
  fun self => ({| results := <[key := value]> (results self) |}, inr tt).

(** [N, L = TS.shape] *)
Definition unpack_shape (TS : ndarray) : method (nat * nat) :=
  match shape TS with
  | [N; L] => mret (N, L)
  | [] => raise (ValueError "not enough values to unpack (expected 2, got 0)")
  | [_] => raise (ValueError "not enough values to unpack (expected 2, got 1)")
  | _ => raise (ValueError "too many values to unpack (expected 2)")
  end.

(** ** [CorrelationSpanningTree] *)

Module CorrelationSpanningTree.

(** [np.sqrt(2 * (1 - C))] on one entry. *)
Definition root_inv (c : F64.t) : F64.t :=
  F64.sqrt (F64.two * (F64.one - c))%f64.

(** [1 - np.square(C)] on one entry. *)
Definition inv_square (c : F64.t) : F64.t :=
  (F64.one - np.square c)%f64.

(** The distance matrix of line 108. *)
Definition distance_matrix (distance : string) (C : ndarray) : ndarray :=
  if String.eqb distance "root_inv" then ufunc root_inv C
  else ufunc inv_square C.

Definition fit (TS : ndarray) (distance : string) : method nx.Graph :=
  '(N, L) ← unpack_shape TS;
  let C := np.corrcoef N L (data TS) in
  let D := distance_matrix distance C in
  set_result "distance_matrix" (PyArray D);;
  MST ← lift (csgraph.minimum_spanning_tree D);
  let G := nx.from_scipy_sparse_matrix MST in
  set_result "graph" (PyGraph G);;
  mret G.

End CorrelationSpanningTree.

(** ** The reductions that NumPy leaves to its inner loops and to BLAS

    [np.sum] and [np.dot] above add from left to right.  NumPy adds a row
    of eight numbers or more with eight partial sums, and [np.dot] is a
    BLAS call, whose arrangement of the products (fused with the additions
    or not) depends on the position of the entry in the result.  A
    property that depends on what the two reductions return is stated for
    every choice of them: [Reductions] holds one choice, [left_to_right]
    is the choice made above, and [fit_with] is [fit] with the choice as
    a parameter. *)

Record Reductions := mk_Reductions {
  (** [np.add.reduce] over one row *)
  r_sum : list F64.t -> F64.t;
  (** the entry [(i, j)] of [dot(X, X.T)], from rows [i] and [j] of [X] *)
  r_dot : nat -> nat -> list F64.t -> list F64.t -> F64.t }.

Definition left_to_right : Reductions :=
  {| r_sum := np.sum; r_dot := fun _ _ => np.dot |}.

(** The dot product of a row of zeros with any row is a zero, or
    not-a-number when the other row holds an infinity or a not-a-number:
    so it is however the products are arranged and added. *)
Definition annihilating (R : Reductions) : Prop :=
  forall i j xs ys,
    Forall (fun x => F64.is_zero x = true) xs
    \/ Forall (fun y => F64.is_zero y = true) ys ->
    F64.zero_or_nan (r_dot R i j xs ys) = true.

Module npr.

Section With.

Variable R : Reductions.

(** [a.mean(axis=1)] of one row. *)
Definition mean (xs : list F64.t) : F64.t :=
  (r_sum R xs / F64.of_nat (length xs))%f64.

(** [X -= avg[:, None]] on one row. *)
Definition deviations (xs : list F64.t) : list F64.t :=
  map (fun x => (x - mean xs)%f64) xs.

(** [np.cov(m)] of an [N] by [L] array whose rows are variables. *)
Definition cov (N L : nat) (d : list F64.t) : ndarray :=
  if N =? 0 then {| shape := [0; 0]; data := [] |}
  else
    let X := fun i => deviations (row L d i) in
    np.squeeze
      (tabulate2 N N
         (fun i j => (r_dot R i j (X i) (X j) * (F64.one / np.fact L))%f64)).

(** [np.corrcoef(x)] *)
Definition corrcoef (N L : nat) (d : list F64.t) : ndarray :=
  let c := cov N L d in
  match shape c with
  | [n; m] =>
      let cv := fun i j => default F64.nan (get2 c i j) in
      let stddev := fun i => F64.sqrt (cv i i) in
      tabulate2 n m (fun i j => np.clip (cv i j / stddev i / stddev j)%f64)
  | _ => ufunc (fun x => (x / x)%f64) c
  end.

(** The quotient that [np.corrcoef] clips into [C[i][j]]. *)
Definition quotient (N L : nat) (d : list F64.t) (i j : nat) : F64.t :=
  let cv := fun i j => default F64.nan (get2 (cov N L d) i j) in
  (cv i j / F64.sqrt (cv i i) / F64.sqrt (cv j j))%f64.

End With.

End npr.

Definition fit_with (R : Reductions) (TS : ndarray) (distance : string)
  : method nx.Graph :=
  '(N, L) ← unpack_shape TS;
  let C := npr.corrcoef R N L (data TS) in
  let D := CorrelationSpanningTree.distance_matrix distance C in
  set_result "distance_matrix" (PyArray D);;
  MST ← lift (csgraph.minimum_spanning_tree D);
  let G := nx.from_scipy_sparse_matrix MST in
  set_result "graph" (PyGraph G);;
  mret G.

(** ** What the properties are stated with *)

(** The graph that [fit] builds from a distance matrix of order [n]. *)
Definition graph_of (n : nat) (D : ndarray) : nx.Graph :=
  nx.from_scipy_sparse_matrix
    (csgraph.mst_of_csr
       {| csgraph.csr_n := n; csgraph.entries := csgraph.dense_entries n D |}).

(** *** Forests *)

Module Forest.

(** Undirected graphs as sets of pairs of end points. *)
Definition adjacent (E : gset (nat * nat)) (u v : nat) : Prop :=
  (u, v) ∈ E \/ (v, u) ∈ E.

Definition connected (E : gset (nat * nat)) : nat -> nat -> Prop :=
  rtc (adjacent E).

(** No cycle: the end points of an edge are connected by no path that
    avoids the edge. *)
Definition acyclic (E : gset (nat * nat)) : Prop :=
  forall u v, (u, v) ∈ E -> ~ connected (E ∖ {[(u, v)]}) u v.

End Forest.

(** *** Kruskal's loop *)

Module Kruskal.

Import csgraph.

(** The positions at which [_min_spanning_tree] keeps the entry. *)
Fixpoint accepted (n_verts : nat) (ent : list (nat * nat * F64.t))
    (i_sort : list nat) (comp : list nat) (n_edges_in_mst : nat) : list nat :=
  match i_sort with
  | [] => []
  | j :: rest =>
      if n_edges_in_mst <? n_verts - 1 then
        match ent !! j with
        | Some (V1, V2, _) =>
            let R1 := find comp V1 in
            let R2 := find comp V2 in
            if R1 =? R2 then accepted n_verts ent rest comp n_edges_in_mst
            else j :: accepted n_verts ent rest (union comp R1 R2)
                        (S n_edges_in_mst)
        | None => accepted n_verts ent rest comp n_edges_in_mst
        end
      else accepted n_verts ent rest comp n_edges_in_mst
  end.

Definition key_at (ent : list (nat * nat * F64.t)) (p : nat) : option (nat * nat) :=
  match ent !! p with
  | Some (u, v, _) => Some (nx.edge_key u v)
  | None => None
  end.

Definition keys (ent : list (nat * nat * F64.t)) (ps : list nat) : gset (nat * nat) :=
  list_to_set (omap (key_at ent) ps).

(** The labels [comp] describe the components of the edge set [E] on the
    vertices below [n]. *)
Definition components (n : nat) (comp : list nat) (E : gset (nat * nat)) : Prop :=
  length comp = n /\
  forall u v, u < n -> v < n ->
    (find comp u = find comp v <-> Forest.connected E u v).

Definition bounded (n : nat) (ent : list (nat * nat * F64.t)) : Prop :=
  forall p u v w, ent !! p = Some (u, v, w) -> u < n /\ v < n.

(** The number of components. *)
Definition ncomp (comp : list nat) : nat := size (list_to_set comp : gset nat).

(** Every pair of distinct vertices is connected in [E] or is the pair of
    end points of an entry that the loop has still to visit. *)
Definition covered (n : nat) (ent : list (nat * nat * F64.t))
    (i_sort : list nat) (E : gset (nat * nat)) : Prop :=
  forall u v, u < n -> v < n -> u <> v ->
    Forest.connected E u v
    \/ exists p w, p ∈ i_sort /\ ent !! p = Some (u, v, w).

(** The weight at a position, as [argsort] reads it. *)
Definition weight (dat : list F64.t) (p : nat) : F64.t :=
  default F64.nan (dat !! p).

(** The weight at position [p] is not less than the weight at [j]. *)
Definition not_below (dat : list F64.t) (j p : nat) : Prop :=
  F64.ltb (weight dat p) (weight dat j) = false.

Definition finite (x : F64.t) : Prop := exists s m e, x = S754_finite s m e.

(** The edges of [G] whose weight is not greater than [w]. *)
Definition lighter (G : nx.Graph) (w : F64.t) : gset (nat * nat) :=
  dom (filter (fun kx => F64.ltb w kx.2 = false) (nx.edges G)).

(** [precedes l p q]: [p] occurs in [l] before an occurrence of [q]. *)
Inductive precedes : list nat -> nat -> nat -> Prop :=
| precedes_here p q l : q ∈ l -> precedes (p :: l) p q
| precedes_later k p q l : precedes l p q -> precedes (k :: l) p q.

(** The weight at position [p] is a zero. *)
Definition zero_at (dat : list F64.t) (p : nat) : Prop :=
  exists x, dat !! p = Some x /\ F64.is_zero x = true.

End Kruskal.

(** *** Rounding to binary64 *)

Module Rounding.

Local Open Scope Z_scope.

(** The exponent of the binary64 numbers with [z] significant bits above
    the binary point. *)
Definition fexp (z : Z) : Z := SpecFloat.fexp 53 1024 z.

(** A shifted mantissa has lost a one. *)
Definition inexact (mrs : shr_record) : bool := shr_r mrs || shr_s mrs.

Definition carry (c : bool) : Z := if c then 1 else 0.

(** [shifted k x y]: [y] is [x] shifted right by [k] bits. *)
Definition shifted (k : Z) (x y : shr_record) : Prop :=
  0 <= shr_m y
  /\ shr_m y = shr_m x / 2 ^ k
  /\ (inexact y = true -> inexact x = true \/ shr_m x mod 2 ^ k <> 0).

(** [mag_le b x]: [x] is finite and its absolute value is at most [2^b]. *)
Definition mag_le (b : Z) (x : spec_float) : Prop :=
  match x with
  | S754_zero _ => True
  | S754_finite _ m e => e <= b /\ Z.pos m <= 2 ^ (b - e)
  | _ => False
  end.

Definition nonneg (x : spec_float) : Prop :=
  match x with
  | S754_zero _ | S754_finite false _ _ => True
  | _ => False
  end.

Definition valid (x : spec_float) : Prop := F64.valid x = true.

End Rounding.

(** ** Concrete inputs *)

Module Examples.

Definition floats (zs : list Z) : list F64.t := map F64.of_Z zs.

Definition fresh : BaseReconstructor := {| results := ∅ |}.

(** Rows 0 and 1 are identical; row 2 has correlation 1/2 with both. *)
Definition TS_twins : ndarray :=
  {| shape := [3; 3]; data := floats [0; 2; 4;  0; 2; 4;  1; 0; 2]%Z |}.

(** The distance matrix of [TS_twins] under [root_inv]. *)
Definition D_twins : ndarray :=
  {| shape := [3; 3]; data := floats [0; 0; 1;  0; 0; 1;  1; 1; 0]%Z |}.

(** Two nodes at distance zero. *)
Definition D_pair : ndarray :=
  {| shape := [2; 2]; data := floats [0; 0;  0; 0]%Z |}.

(** Two sensors, one observation each. *)
Definition TS_one_column : ndarray :=
  {| shape := [2; 1]; data := floats [1; 2]%Z |}.

(** A one-dimensional array. *)
Definition TS_flat : ndarray :=
  {| shape := [3]; data := floats [5; 5; 5]%Z |}.

(** A single sensor whose three observations are equal. *)
Definition TS_single_constant : ndarray :=
  {| shape := [1; 3]; data := floats [5; 5; 5]%Z |}.

(** Three sensors, the first of which is constant. *)
Definition TS_constant_row : ndarray :=
  {| shape := [3; 3]; data := floats [5; 5; 5;  0; 2; 4;  1; 0; 2]%Z |}.

(** The binary64 number nearest to [0.1]. *)
Definition tenth : F64.t := S754_finite false 7205759403792794 (-56).

(** Two sensors, the first of which is constant at [0.1]. *)
Definition TS_tenths : ndarray :=
  {| shape := [2; 3];
     data := [tenth; tenth; tenth; F64.of_Z 0; F64.of_Z 1; F64.of_Z 2] |}.


(** Two rows of means 2 and 3, variances 7 and 13 and covariance 19/2; all
    of these are computed without rounding. *)
Definition TS_skew : ndarray :=
  {| shape := [2; 3]; data := floats [0; 1; 5;  0; 2; 7]%Z |}.

(** The least binary64 number above 1, [1 + 2^-52]. *)
Definition above_one : F64.t := S754_finite false 4503599627370497 (-52).

End Examples.

(** *** The entries that the tree builder can use *)

(** Nodes [u] and [v] below [n] have an entry of [D] between them, one way
    or the other, that is no null edge. *)
Definition usable (n : nat) (D : ndarray) (u v : nat) : Prop :=
  u < n /\ v < n /\
  ((exists w, get2 D u v = Some w /\ csgraph.is_null w = false)
   \/ (exists w, get2 D v u = Some w /\ csgraph.is_null w = false)).

(** A value that is not-a-number or infinite: what a product with an
    infinite factor can be. *)
Definition nan_or_inf (x : F64.t) : bool := F64.is_nan x || F64.is_inf x.

(** *** The tree builder as the specification words it

    Section 4.3 of the specification grows the tree from node 0: every node
    outside the tree keeps the lightest edge that joins it to the tree, the
    node with the lightest such edge is added with that edge, and the tree
    restarts from the lowest unvisited node when no edge is left.  Ties go
    to the lowest node index, and among the edges of one node to the
    lowest-indexed tree member.  An entry that is not-a-number or infinite
    is no edge. *)

Module SpecBuilder.

Definition weight (D : ndarray) (i j : nat) : option F64.t :=
  match get2 D i j with
  | Some x => if F64.is_nan x || F64.is_inf x then None else Some x
  | None => None
  end.

(** The nodes whose mark is [b], in increasing order. *)
Definition marked (visited : list bool) (b : bool) : list nat :=
  List.filter (fun i => Bool.eqb (nth i visited false) b)
    (seq 0 (length visited)).

(** The lightest edge from the tree to node [j], with the tree member
    that offers it: a later member replaces an earlier one only with a
    strictly lighter edge. *)
Definition candidate (D : ndarray) (tree : list nat) (j : nat)
  : option (F64.t * nat) :=
  fold_left
    (fun best i =>
       match weight D i j with
       | None => best
       | Some w =>
           match best with
           | None => Some (w, i)
           | Some (wb, _) => if F64.ltb w wb then Some (w, i) else best
           end
       end)
    tree None.

(** The node outside the tree with the lightest candidate: a later node
    replaces an earlier one only with a strictly lighter edge. *)
Definition select (D : ndarray) (tree outside : list nat)
  : option (nat * nat * F64.t) :=
  fold_left
    (fun best j =>
       match candidate D tree j with
       | None => best
       | Some (w, i) =>
           match best with
           | None => Some (i, j, w)
           | Some (_, _, wb) => if F64.ltb w wb then Some (i, j, w) else best
           end
       end)
    outside None.

Fixpoint grow (D : ndarray) (steps : nat) (visited : list bool)
    (edges : list (nat * nat * F64.t)) : list (nat * nat * F64.t) :=
  match steps with
  | 0 => edges
  | S steps =>
      match select D (marked visited true) (marked visited false) with
      | Some (i, j, w) =>
          grow D steps (<[j := true]> visited) (edges ++ [(i, j, w)])
      | None =>
          match marked visited false with
          | j :: _ => grow D steps (<[j := true]> visited) edges
          | [] => edges
          end
      end
  end.

(** The edges of the tree on [n] nodes, in the order of their selection. *)
Definition tree (n : nat) (D : ndarray) : list (nat * nat * F64.t) :=
  grow D (n - 1) (<[0 := true]> (repeat false n)) [].

End SpecBuilder.

(** *** Further inputs *)

Module MoreExamples.

(** Three sensors, no two of them at distance zero. *)
Definition TS_three : ndarray :=
  {| shape := [3; 3]; data := Examples.floats [0; 1; 5;  0; 2; 7;  1; 0; 2]%Z |}.

(** Three sensors, the second with a missing observation. *)
Definition TS_missing : ndarray :=
  {| shape := [3; 3];
     data := [F64.of_Z 0; F64.of_Z 1; F64.of_Z 5;
              F64.of_Z 0; F64.nan; F64.of_Z 7;
              F64.of_Z 1; F64.of_Z 0; F64.of_Z 2] |}.

(** Three sensors, one observation each. *)
Definition TS_column : ndarray :=
  {| shape := [3; 1]; data := Examples.floats [1; 2; 4]%Z |}.


(** Two sensors; the first has variance 3, and [3 / sqrt 3 / sqrt 3] is
    rounded to [1 + 2^-52].  Every sum and every product is an integer. *)
Definition TS_round_off : ndarray :=
  {| shape := [2; 3]; data := Examples.floats [0; 3; 0;  0; 1; 2]%Z |}.

(** One sensor, four observations. *)
Definition TS_single : ndarray :=
  {| shape := [1; 4]; data := Examples.floats [1; 2; 4; 8]%Z |}.

End MoreExamples.

(** * Properties *)

Import CorrelationSpanningTree.

(** ** Shapes, and when [fit] returns *)

Section Tabulate.

Variable f : nat -> nat -> F64.t.

Lemma lookup_tabulate_rows m n s i j :
  i < n -> j < m ->
  flat_map (fun i => map (f i) (seq 0 m)) (seq s n) !! (i * m + j)
  = Some (f (s + i) j).
Proof.
  revert s i. induction n as [|n IH]; intros s i Hi Hj; [lia|].
  cbn [seq flat_map]. destruct i as [|i].
  - rewrite lookup_app_l; [|rewrite length_map, length_seq; lia].
    change (map (f s) (seq 0 m)) with (f s <$> seq 0 m).
    rewrite list_lookup_fmap, lookup_seq_lt; [|lia].
    cbn. do 2 f_equal; lia.
  - rewrite lookup_app_r; [|rewrite length_map, length_seq; lia].
    rewrite length_map, length_seq.
    replace (S i * m + j - m) with (i * m + j) by lia.
    rewrite IH; [|lia|lia]. do 2 f_equal; lia.
Qed.

Lemma get2_tabulate2 n m i j :
  i < n -> j < m -> get2 (tabulate2 n m f) i j = Some (f i j).
Proof.
  intros Hi Hj. unfold get2, tabulate2; cbn [shape data].
  destruct (Nat.ltb_spec j m); [|lia].
  rewrite lookup_tabulate_rows; [reflexivity|lia|lia].
Qed.

Lemma get2_tabulate2_None n m i j :
  n <= i \/ m <= j -> get2 (tabulate2 n m f) i j = None.
Proof.
  intros H. unfold get2, tabulate2; cbn [shape data].
  destruct (Nat.ltb_spec j m); [|reflexivity].
  apply lookup_ge_None_2.
  rewrite flat_map_constant_length with (c := m).
  - rewrite length_seq. nia.
  - intros x _. now rewrite length_map, length_seq.
Qed.

End Tabulate.

Lemma shape_cov N L d : 2 <= N -> shape (np.cov N L d) = [N; N].
Proof.
  intros HN. unfold np.cov.
  destruct (Nat.eqb_spec N 0); [lia|].
  cbn. destruct (Nat.eqb_spec N 1); [lia|]. reflexivity.
Qed.

Lemma shape_corrcoef N L d : 2 <= N -> shape (np.corrcoef N L d) = [N; N].
Proof.
  intros HN. unfold np.corrcoef. now rewrite shape_cov.
Qed.

Lemma shape_distance_matrix distance C :
  shape (distance_matrix distance C) = shape C.
Proof. unfold distance_matrix. now destruct (String.eqb _ _). Qed.

Lemma minimum_spanning_tree_square a n :
  shape a = [n; n] ->
  csgraph.minimum_spanning_tree a
  = inr (csgraph.mst_of_csr
           {| csgraph.csr_n := n; csgraph.entries := csgraph.dense_entries n a |}).
Proof.
  intros Hs. unfold csgraph.minimum_spanning_tree, csgraph.csgraph_from_dense.
  rewrite Hs, Nat.eqb_refl. reflexivity.
Qed.

(** What a call does once the shape of [TS] has unpacked: it stores the
    distance matrix, then either the tree builder raises or the graph is
    stored and returned. *)
Lemma fit_unpacked TS distance self N L :
  shape TS = [N; L] ->
  fit TS distance self =
    let D := distance_matrix distance (np.corrcoef N L (data TS)) in
    let stored := <["distance_matrix" := PyArray D]> (results self) in
    match csgraph.minimum_spanning_tree D with
    | inl e => ({| results := stored |}, inl e)
    | inr MST =>
        let G := nx.from_scipy_sparse_matrix MST in
        ({| results := <["graph" := PyGraph G]> stored |}, inr G)
    end.
Proof.
  intros Hs. unfold fit, unpack_shape. rewrite Hs. cbn.
  unfold mbind, method_bind, mret, method_ret, set_result, lift; cbn.
  now destruct (csgraph.minimum_spanning_tree _).
Qed.

Lemma fit_not_unpacked TS distance self :
  ndim TS <> 2 ->
  exists msg, fit TS distance self = (self, inl (ValueError msg)).
Proof.
  intros Hd. unfold fit, unpack_shape, ndim in *.
  destruct (shape TS) as [|n [|m [|k sh]]]; cbn in *;
    try (eexists; reflexivity). lia.
Qed.

Lemma fit_returns TS distance self N L :
  shape TS = [N; L] -> 2 <= N ->
  let D := distance_matrix distance (np.corrcoef N L (data TS)) in
  fit TS distance self =
    ({| results := <["graph" := PyGraph (graph_of N D)]>
                     (<["distance_matrix" := PyArray D]> (results self)) |},
     inr (graph_of N D)).
Proof.
  intros Hs HN D. rewrite (fit_unpacked _ _ _ _ _ Hs). cbn zeta. fold D.
  rewrite (minimum_spanning_tree_square D N); [reflexivity|].
  unfold D. now rewrite shape_distance_matrix, shape_corrcoef.
Qed.

(** ** The [distance] option *)

Lemma distance_matrix_not_root_inv distance C :
  distance <> "root_inv"%string ->
  distance_matrix distance C = ufunc inv_square C.
Proof.
  intros Hd. unfold distance_matrix.
  now destruct (String.eqb_spec distance "root_inv").
Qed.



(** C3, the claim fails: a call with the unrecognised option [euclidean]
    raises nothing and returns a graph. *)
Lemma unknown_distance_is_accepted :
  exists G, (fit Examples.TS_twins "euclidean" Examples.fresh).2 = inr G.
Proof. eexists. vm_compute. reflexivity. Qed.

(** C3, amended: a call whose [distance] is neither [root_inv] nor
    [inv_square] raises no configuration error; it does exactly what the
    call with [inv_square] does. *)
Theorem fit_unknown_distance_as_inv_square TS distance self :
  distance <> "root_inv"%string -> distance <> "inv_square"%string ->
  fit TS distance self = fit TS "inv_square" self.
Proof.
  intros Hd _.
  destruct (shape TS) as [|N [|L [|k sh]]] eqn:Hs;
    try (unfold fit, unpack_shape; rewrite Hs; reflexivity).
  rewrite !(fit_unpacked _ _ _ N L Hs).
  rewrite !distance_matrix_not_root_inv; [reflexivity|discriminate|assumption].
Qed.

Lemma fit_unknown_distance_as_inv_square_witness :
  fit Examples.TS_twins "euclidean" Examples.fresh
  = fit Examples.TS_twins "inv_square" Examples.fresh.
Proof.
  apply (fit_unknown_distance_as_inv_square Examples.TS_twins "euclidean");
    discriminate.
Defined.

(** ** The shape of [TS] *)

(** C4, the claim fails: a [TS] with a single column is not rejected; the
    call stores a distance matrix and returns a graph. *)
Lemma one_column_is_accepted :
  exists self' G,
    fit Examples.TS_one_column "root_inv" Examples.fresh = (self', inr G)
    /\ is_Some (results self' !! "distance_matrix"%string).
Proof.
  do 2 eexists.
  rewrite (fit_returns _ _ _ 2 1); [|reflexivity|lia].
  split; [reflexivity|].
  cbn [results]. rewrite lookup_insert_ne by discriminate.
  rewrite lookup_insert_eq. eauto.
Qed.

(** C4, amended: for every [TS] that is not two-dimensional, [fit] raises at
    the unpacking of the shape, before anything is computed, and leaves the
    instance as it was. *)
Theorem fit_rejects_non_2d TS distance self :
  ndim TS <> 2 ->
  exists msg, fit TS distance self = (self, inl (ValueError msg)).
Proof. apply fit_not_unpacked. Qed.

Lemma fit_rejects_non_2d_witness :
  exists msg,
    fit Examples.TS_flat "root_inv" Examples.fresh
    = (Examples.fresh, inl (ValueError msg)).
Proof.
  apply (fit_rejects_non_2d Examples.TS_flat "root_inv" Examples.fresh).
  vm_compute. lia.
Defined.

(** ** The results store *)

(** C9, the claim fails: the results of a first call are still in the
    store of the instance after a second call, which raises on a
    one-dimensional input and produces nothing of its own. *)
Lemma results_survive_the_next_call :
  let self1 := (fit Examples.TS_twins "root_inv" Examples.fresh).1 in
  let second := fit Examples.TS_flat "root_inv" self1 in
  (exists msg, second.2 = inl (ValueError msg))
  /\ results second.1 !! "distance_matrix"%string
     = Some (PyArray Examples.D_twins)
  /\ results second.1 !! "graph"%string
     = Some (PyGraph (graph_of 3 Examples.D_twins)).
Proof.
  cbn zeta.
  rewrite (fit_returns Examples.TS_twins "root_inv" _ 3 3); [|reflexivity|lia].
  cbn [fst snd].
  destruct (fit_not_unpacked Examples.TS_flat "root_inv"
              {| results := <["graph" := PyGraph (graph_of 3
                     (distance_matrix "root_inv"
                        (np.corrcoef 3 3 (data Examples.TS_twins))))]>
                   (<["distance_matrix" := PyArray
                        (distance_matrix "root_inv"
                           (np.corrcoef 3 3 (data Examples.TS_twins)))]>
                      (results Examples.fresh)) |}) as [msg ->];
    [vm_compute; lia|].
  cbn [fst snd results]. split; [eauto|].
  assert (HD : distance_matrix "root_inv"
                 (np.corrcoef 3 3 (data Examples.TS_twins)) = Examples.D_twins)
    by (vm_compute; reflexivity).
  rewrite HD. split.
  - rewrite lookup_insert_ne by discriminate. now rewrite lookup_insert_eq.
  - now rewrite lookup_insert_eq.
Qed.

(** ** Entries of the distance matrix that are exactly zero *)

(** C1, on an input where the claim and the code part: [D_twins], the
    distance matrix of [TS_twins], has finite entries only, and nodes 0 and
    1 are at distance 0.  The tree builder takes the zero for an absent edge
    and keeps the edges (0,2) and (1,2), of total weight 2, while the
    spanning tree made of (0,1) and (0,2) has total weight 1.  On [D_pair]
    it keeps no edge at all, although there are two nodes. *)
Theorem builder_drops_zero_weight_edges :
  distance_matrix "root_inv" (np.corrcoef 3 3 (data Examples.TS_twins))
  = Examples.D_twins
  /\ csgraph.is_null F64.zero = true
  /\ csgraph.minimum_spanning_tree Examples.D_twins
     = inr {| csgraph.csr_n := 3;
              csgraph.entries := [(0, 2, F64.one); (1, 2, F64.one)] |}
  /\ nx.number_of_edges (graph_of 3 Examples.D_twins) = 2
  /\ nx.total_weight (graph_of 3 Examples.D_twins) = F64.two
  /\ (get2 Examples.D_twins 0 1 = Some F64.zero
      /\ get2 Examples.D_twins 0 2 = Some F64.one
      /\ (F64.zero + F64.one)%f64 = F64.one
      /\ F64.ltb F64.one F64.two = true)
  /\ csgraph.minimum_spanning_tree Examples.D_pair
     = inr {| csgraph.csr_n := 2; csgraph.entries := [] |}
  /\ nx.number_of_edges (graph_of 2 Examples.D_pair) = 0.
Proof. vm_compute. repeat split; reflexivity. Qed.

(** The same through [fit]: rows 0 and 1 of [TS_twins] are identical, their
    correlation is 1 and their distance is exactly 0; every spanning tree
    of minimum weight (1) contains the edge (0,1), but the graph that [fit]
    returns has the edges (0,2) and (1,2) and not the edge (0,1). *)
Lemma fit_omits_zero_weight_edge :
  let C := np.corrcoef 3 3 (data Examples.TS_twins) in
  let D := distance_matrix "root_inv" C in
  get2 C 0 1 = Some F64.one
  /\ get2 D 0 1 = Some F64.zero
  /\ get2 D 0 2 = Some F64.one /\ get2 D 1 2 = Some F64.one
  /\ exists G,
       (fit Examples.TS_twins "root_inv" Examples.fresh).2 = inr G
       /\ nx.edges G !! nx.edge_key 0 1 = None
       /\ nx.edges G !! nx.edge_key 0 2 = Some F64.one
       /\ nx.edges G !! nx.edge_key 1 2 = Some F64.one
       /\ nx.number_of_edges G = 2.
Proof.
  cbn zeta. repeat split; try (vm_compute; reflexivity).
  eexists. split; [vm_compute; reflexivity|].
  repeat split; vm_compute; reflexivity.
Qed.

(** ** Not-a-number through the correlation and the distance *)

Module F64Facts.

Import F64.

Ltac by_cases :=
  cbv [zero_or_nan is_zero is_nan orb
       mul div add sqrt SFmul SFdiv SFadd SFsqrt];
  intros; try discriminate; try reflexivity.

Lemma mul_zero_or_nan_l x y : zero_or_nan x = true -> zero_or_nan (x * y)%f64 = true.
Proof. destruct x as [?|?| |? ? ?], y as [?|?| |? ? ?]; by_cases. Qed.

Lemma mul_zero_or_nan_r x y : zero_or_nan y = true -> zero_or_nan (x * y)%f64 = true.
Proof. destruct x as [?|?| |? ? ?], y as [?|?| |? ? ?]; by_cases. Qed.

Lemma add_zero_or_nan x y :
  zero_or_nan x = true -> zero_or_nan y = true -> zero_or_nan (x + y)%f64 = true.
Proof.
  destruct x as [[|]|?| |? ? ?], y as [[|]|?| |? ? ?]; by_cases.
Qed.

Lemma sqrt_zero_or_nan x : zero_or_nan x = true -> zero_or_nan (sqrt x) = true.
Proof. destruct x as [?|?| |? ? ?]; by_cases. Qed.

Lemma div_zero_or_nan_l x y : zero_or_nan x = true -> zero_or_nan (x / y)%f64 = true.
Proof. destruct x as [?|?| |? ? ?], y as [?|?| |? ? ?]; by_cases. Qed.

Lemma div_zero_or_nan x y :
  zero_or_nan x = true -> zero_or_nan y = true -> (x / y)%f64 = nan.
Proof. destruct x as [?|?| |? ? ?], y as [?|?| |? ? ?]; by_cases. Qed.

Lemma div_nan_l y : (nan / y)%f64 = nan.
Proof. reflexivity. Qed.

Lemma is_zero_zero_or_nan x : is_zero x = true -> zero_or_nan x = true.
Proof. unfold zero_or_nan. now intros ->. Qed.

End F64Facts.

Lemma clip_nan : np.clip F64.nan = F64.nan.
Proof. reflexivity. Qed.

Lemma root_inv_nan : root_inv F64.nan = F64.nan.
Proof. reflexivity. Qed.

Lemma inv_square_nan : inv_square F64.nan = F64.nan.
Proof. reflexivity. Qed.

Lemma distance_entry_nan distance C i j :
  get2 C i j = Some F64.nan ->
  get2 (distance_matrix distance C) i j = Some F64.nan.
Proof.
  unfold distance_matrix, get2, ufunc.
  destruct (String.eqb _ _); cbn [shape data];
    destruct (shape C) as [|n [|m [|k sh]]]; try discriminate;
    destruct (j <? m); try discriminate;
    change (map ?f ?l) with (f <$> l); rewrite list_lookup_fmap;
    intros ->; reflexivity.
Qed.

Section ZeroDeviations.

Import F64Facts.

(** A sum of products in which every factor from one side is a zero is a
    zero or not-a-number. *)
Lemma fold_add_zero_or_nan ps acc :
  F64.zero_or_nan acc = true ->
  Forall (fun p => F64.zero_or_nan p = true) ps ->
  F64.zero_or_nan (fold_left F64.add ps acc) = true.
Proof.
  intros Hacc Hps. revert acc Hacc.
  induction Hps as [|p ps Hp _ IH]; intros acc Hacc; cbn; [assumption|].
  apply IH. now apply add_zero_or_nan.
Qed.

Lemma dot_zero_l xs ys :
  Forall (fun x => F64.is_zero x = true) xs ->
  F64.zero_or_nan (np.dot xs ys) = true.
Proof.
  intros Hxs. unfold np.dot. apply fold_add_zero_or_nan; [reflexivity|].
  revert ys. induction Hxs as [|x xs Hx _ IH]; intros [|y ys]; cbn;
    constructor; auto.
  apply mul_zero_or_nan_l. now apply is_zero_zero_or_nan.
Qed.

Lemma dot_zero_r xs ys :
  Forall (fun y => F64.is_zero y = true) ys ->
  F64.zero_or_nan (np.dot xs ys) = true.
Proof.
  intros Hys. unfold np.dot. apply fold_add_zero_or_nan; [reflexivity|].
  revert xs. induction Hys as [|y ys Hy _ IH]; intros [|x xs]; cbn;
    constructor; auto.
  apply mul_zero_or_nan_r. now apply is_zero_zero_or_nan.
Qed.

Variables (N L : nat) (d : list F64.t).
Hypothesis HN : 2 <= N.

Lemma cov_tabulate :
  np.cov N L d
  = tabulate2 N N
      (fun i j => (np.dot (np.deviations (row L d i)) (np.deviations (row L d j))
                   * (F64.one / np.fact L))%f64).
Proof.
  unfold np.cov. destruct (Nat.eqb_spec N 0); [lia|].
  unfold np.squeeze, tabulate2; cbn [shape data List.filter].
  destruct (Nat.eqb_spec N 1); [lia|]. reflexivity.
Qed.

Lemma get2_cov i j :
  i < N -> j < N ->
  get2 (np.cov N L d) i j
  = Some (np.dot (np.deviations (row L d i)) (np.deviations (row L d j))
          * (F64.one / np.fact L))%f64.
Proof.
  intros Hi Hj. rewrite cov_tabulate. now rewrite get2_tabulate2.
Qed.

Lemma get2_corrcoef i j :
  i < N -> j < N ->
  let cv := fun i j => default F64.nan (get2 (np.cov N L d) i j) in
  get2 (np.corrcoef N L d) i j
  = Some (np.clip (cv i j / F64.sqrt (cv i i) / F64.sqrt (cv j j))%f64).
Proof.
  intros Hi Hj. unfold np.corrcoef. rewrite shape_cov by assumption.
  now rewrite get2_tabulate2.
Qed.

Variable i : nat.
Hypothesis Hi : i < N.

(** Row [i] has zero sample variance: every deviation of its samples from
    their mean, as [np.cov] computes them, is zero. *)
Hypothesis zero_variance :
  Forall (fun x => F64.is_zero x = true) (np.deviations (row L d i)).

Lemma cov_zero_row j :
  j < N ->
  F64.zero_or_nan (default F64.nan (get2 (np.cov N L d) i j)) = true
  /\ F64.zero_or_nan (default F64.nan (get2 (np.cov N L d) j i)) = true.
Proof.
  intros Hj. rewrite !get2_cov by assumption. cbn [default]. split.
  - apply mul_zero_or_nan_l. now apply dot_zero_l.
  - apply mul_zero_or_nan_l. now apply dot_zero_r.
Qed.

Lemma corrcoef_zero_row j :
  j < N ->
  get2 (np.corrcoef N L d) i j = Some F64.nan
  /\ get2 (np.corrcoef N L d) j i = Some F64.nan.
Proof.
  intros Hj. rewrite !get2_corrcoef by assumption. cbn zeta.
  destruct (cov_zero_row j Hj) as [Hij Hji].
  destruct (cov_zero_row i Hi) as [Hii _].
  split; f_equal.
  - rewrite (div_zero_or_nan _ (F64.sqrt _) Hij (sqrt_zero_or_nan _ Hii)).
    reflexivity.
  - rewrite (div_zero_or_nan (_ / _)%f64 (F64.sqrt _));
      [reflexivity| |now apply sqrt_zero_or_nan].
    now apply div_zero_or_nan_l.
Qed.

End ZeroDeviations.

(** ** Forests *)

Module ForestFacts.

Import Forest.

Lemma adjacent_sym E u v : adjacent E u v -> adjacent E v u.
Proof. unfold adjacent. tauto. Qed.

Lemma connected_sym E u v : connected E u v -> connected E v u.
Proof.
  induction 1 as [|a b c Hab _ IH]; [constructor|].
  eapply rtc_r; [exact IH|]. now apply adjacent_sym.
Qed.

Lemma connected_mono E E' u v : E ⊆ E' -> connected E u v -> connected E' u v.
Proof.
  intros Hsub. induction 1 as [|a b c Hab _ IH]; [constructor|].
  eapply rtc_l; [|exact IH]. destruct Hab; [left|right]; set_solver.
Qed.

Lemma edge_key_cases u v :
  nx.edge_key u v = (u, v) \/ nx.edge_key u v = (v, u).
Proof.
  unfold nx.edge_key. destruct (Nat.le_ge_cases u v).
  - left. f_equal; lia.
  - right. f_equal; lia.
Qed.

Lemma edge_key_sym u v : nx.edge_key u v = nx.edge_key v u.
Proof. unfold nx.edge_key. f_equal; lia. Qed.

Lemma adjacent_add E u v a c :
  adjacent ({[nx.edge_key u v]} ∪ E) a c
  <-> adjacent E a c \/ (a = u /\ c = v) \/ (a = v /\ c = u).
Proof.
  unfold adjacent. destruct (edge_key_cases u v) as [-> | ->];
    rewrite !elem_of_union, !elem_of_singleton; split; intros H;
    repeat match goal with
           | H : _ \/ _ |- _ => destruct H
           | H : _ /\ _ |- _ => destruct H
           | H : (_, _) = (_, _) |- _ => injection H as -> ->
           end; subst; auto.
Qed.

(** A path in a graph with one more edge uses the new edge or not. *)
Lemma connected_add E u v a b :
  connected ({[nx.edge_key u v]} ∪ E) a b ->
  connected E a b
  \/ (connected E a u /\ connected E v b)
  \/ (connected E a v /\ connected E u b).
Proof.
  induction 1 as [a|a c b Hac _ IH]; [left; constructor|].
  apply adjacent_add in Hac as [Hac|[[-> ->]|[-> ->]]].
  - destruct IH as [IH|[[IH1 IH2]|[IH1 IH2]]].
    + left. eapply rtc_l; eauto.
    + right; left. split; [eapply rtc_l; eauto|assumption].
    + right; right. split; [eapply rtc_l; eauto|assumption].
  - destruct IH as [IH|[[IH1 IH2]|[IH1 IH2]]].
    + right; left. split; [constructor|assumption].
    + right; left. split; [constructor|assumption].
    + left. assumption.
  - destruct IH as [IH|[[IH1 IH2]|[IH1 IH2]]].
    + right; right. split; [constructor|assumption].
    + left. assumption.
    + right; right. split; [constructor|assumption].
Qed.

Lemma connected_add_edge E u v : connected ({[nx.edge_key u v]} ∪ E) u v.
Proof.
  apply rtc_once. apply adjacent_add. auto.
Qed.

Lemma connected_trans E a b c :
  connected E a b -> connected E b c -> connected E a c.
Proof. apply rtc_trans. Qed.

Lemma acyclic_empty : acyclic ∅.
Proof. intros u v H. set_solver. Qed.

Lemma acyclic_subseteq E E' : E ⊆ E' -> acyclic E' -> acyclic E.
Proof.
  intros Hsub Hac u v Huv Hconn.
  apply (Hac u v); [set_solver|].
  eapply connected_mono; [|exact Hconn]. set_solver.
Qed.

(** Kruskal's step: an edge between two components closes no cycle. *)
Lemma acyclic_add E u v :
  acyclic E -> ~ connected E u v -> acyclic ({[nx.edge_key u v]} ∪ E).
Proof.
  intros Hac Hnc a b Hab Hconn.
  destruct (decide ((a, b) = nx.edge_key u v)) as [Heq|Hne].
  - apply Hnc.
    assert (Hc : connected E a b).
    { eapply connected_mono; [|exact Hconn]. set_solver. }
    destruct (edge_key_cases u v) as [Hk|Hk]; rewrite Hk in Heq;
      injection Heq as -> ->; [assumption|now apply connected_sym].
  - assert (HabE : (a, b) ∈ E) by set_solver.
    assert (Hset : ({[nx.edge_key u v]} ∪ E) ∖ {[(a, b)]}
                   = {[nx.edge_key u v]} ∪ (E ∖ {[(a, b)]})).
    { apply set_eq. intros x. set_solver. }
    rewrite Hset in Hconn.
    assert (Hedge : connected E a b).
    { apply rtc_once. left. assumption. }
    assert (Hup : forall x y, connected (E ∖ {[(a, b)]}) x y -> connected E x y).
    { intros x y. apply connected_mono. set_solver. }
    apply connected_add in Hconn as [Hc|[[H1 H2]|[H1 H2]]].
    + now apply (Hac a b).
    + apply Hnc.
      eapply connected_trans; [apply connected_sym, Hup, H1|].
      eapply connected_trans; [apply Hedge|].
      apply connected_sym, Hup, H2.
    + apply Hnc.
      eapply connected_trans; [apply Hup, H2|].
      eapply connected_trans; [apply connected_sym, Hedge|].
      apply Hup, H1.
Qed.

End ForestFacts.

(** ** Kruskal's loop builds a forest *)

Module KruskalFacts.

Import csgraph Kruskal.

Lemma find_union comp r1 r2 u :
  u < length comp ->
  find (union comp r1 r2) u = if find comp u =? r2 then r1 else find comp u.
Proof.
  intros Hu. unfold find, union.
  change (map ?f ?l) with (f <$> l). rewrite list_lookup_fmap.
  destruct (lookup_lt_is_Some_2 comp u Hu) as [c ->]. reflexivity.
Qed.

Lemma connected_empty u v : Forest.connected ∅ u v <-> u = v.
Proof.
  split; [|intros ->; constructor].
  induction 1 as [|a b c [Hab|Hab] _ _]; [reflexivity| |]; set_solver.
Qed.

Lemma components_init n : components n (seq 0 n) ∅.
Proof.
  split; [apply length_seq|]. intros u v Hu Hv.
  unfold find. rewrite !lookup_seq_lt by assumption. cbn.
  now rewrite connected_empty.
Qed.

Lemma components_union n comp E V1 V2 :
  components n comp E -> V1 < n -> V2 < n ->
  find comp V1 <> find comp V2 ->
  components n (union comp (find comp V1) (find comp V2))
    ({[nx.edge_key V1 V2]} ∪ E).
Proof.
  intros [Hlen Hc] H1 H2 Hne. split.
  { unfold union. now rewrite length_map. }
  intros u v Hu Hv. rewrite !find_union by lia.
  assert (Hup : forall x y, Forest.connected E x y ->
                            Forest.connected ({[nx.edge_key V1 V2]} ∪ E) x y).
  { intros x y. apply ForestFacts.connected_mono. set_solver. }
  split.
  - intros Heq.
    destruct (Nat.eqb_spec (find comp u) (find comp V2)) as [Hu2|Hu2];
      destruct (Nat.eqb_spec (find comp v) (find comp V2)) as [Hv2|Hv2].
    + apply Hup, Hc; congruence.
    + eapply ForestFacts.connected_trans; [apply Hup, (Hc u V2); assumption|].
      eapply ForestFacts.connected_trans;
        [apply ForestFacts.connected_sym, ForestFacts.connected_add_edge|].
      apply Hup, Hc; congruence.
    + eapply ForestFacts.connected_trans; [apply Hup, (Hc u V1); congruence|].
      eapply ForestFacts.connected_trans; [apply ForestFacts.connected_add_edge|].
      apply Hup, Hc; congruence.
    + apply Hup, Hc; congruence.
  - intros Hconn.
    apply ForestFacts.connected_add in Hconn as [H|[[Ha Hb]|[Ha Hb]]].
    + apply Hc in H; [|assumption|assumption]. now rewrite H.
    + apply Hc in Ha; [|assumption|assumption].
      apply Hc in Hb; [|assumption|assumption].
      rewrite Ha, <- Hb, Nat.eqb_refl.
      now destruct (Nat.eqb_spec (find comp V1) (find comp V2)).
    + apply Hc in Ha; [|assumption|assumption].
      apply Hc in Hb; [|assumption|assumption].
      rewrite Ha, <- Hb, Nat.eqb_refl.
      now destruct (Nat.eqb_spec (find comp V1) (find comp V2)).
Qed.

Lemma keys_cons ent j ps u v w :
  ent !! j = Some (u, v, w) ->
  keys ent (j :: ps) = {[nx.edge_key u v]} ∪ keys ent ps.
Proof. intros H. unfold keys, key_at. cbn. now rewrite H. Qed.

Lemma accepted_acyclic n ent i_sort comp k E :
  bounded n ent -> components n comp E -> Forest.acyclic E ->
  Forest.acyclic (keys ent (accepted n ent i_sort comp k) ∪ E).
Proof.
  intros Hb. revert comp k E.
  induction i_sort as [|j rest IH]; intros comp k E Hcomp Hac; cbn [accepted].
  { replace (keys ent [] ∪ E) with E; [assumption|].
    apply set_eq; intros x. unfold keys; cbn. set_solver. }
  destruct (k <? n - 1); [|now apply IH].
  destruct (ent !! j) as [[[V1 V2] w]|] eqn:Hj; [|now apply IH].
  destruct (Hb _ _ _ _ Hj) as [H1 H2].
  destruct (Nat.eqb_spec (find comp V1) (find comp V2)) as [Heq|Hne];
    [now apply IH|].
  rewrite (keys_cons _ _ _ _ _ _ Hj).
  replace ({[nx.edge_key V1 V2]} ∪ keys ent (accepted n ent rest
             (union comp (find comp V1) (find comp V2)) (S k)) ∪ E)
    with (keys ent (accepted n ent rest
             (union comp (find comp V1) (find comp V2)) (S k))
          ∪ ({[nx.edge_key V1 V2]} ∪ E))
    by (apply set_eq; intros x; set_solver).
  apply IH.
  - now apply components_union.
  - apply ForestFacts.acyclic_add; [assumption|].
    intros Hconn. apply Hne. now apply Hcomp.
Qed.

(** What the loop does to the weights: it only ever writes zeros. *)
Lemma mst_length n ent i_sort dat comp k :
  length (_min_spanning_tree n ent i_sort dat comp k) = length dat.
Proof.
  revert dat comp k. induction i_sort as [|j rest IH]; intros;
    cbn [_min_spanning_tree]; [reflexivity|].
  destruct (k <? n - 1); [|now rewrite IH, length_insert].
  destruct (ent !! j) as [[[V1 V2] w]|]; [|apply IH].
  destruct (find comp V1 =? find comp V2); [|apply IH].
  now rewrite IH, length_insert.
Qed.

Lemma zero_at_insert dat j p :
  zero_at dat p -> zero_at (<[j := F64.zero]> dat) p.
Proof.
  intros (x & Hx & Hz). destruct (decide (j = p)) as [->|Hne].
  - exists F64.zero. split; [|reflexivity].
    apply list_lookup_insert_eq. now apply lookup_lt_Some in Hx.
  - exists x. now rewrite list_lookup_insert_ne.
Qed.

Lemma zero_at_insert_eq dat j :
  j < length dat -> zero_at (<[j := F64.zero]> dat) j.
Proof.
  intros Hj. exists F64.zero. split; [|reflexivity].
  now apply list_lookup_insert_eq.
Qed.

Lemma mst_zero_stays n ent i_sort dat comp k p :
  zero_at dat p -> zero_at (_min_spanning_tree n ent i_sort dat comp k) p.
Proof.
  revert dat comp k. induction i_sort as [|j rest IH]; intros dat comp k Hz;
    cbn [_min_spanning_tree]; [assumption|].
  destruct (k <? n - 1); [|now apply IH, zero_at_insert].
  destruct (ent !! j) as [[[V1 V2] w]|]; [|now apply IH].
  destruct (find comp V1 =? find comp V2); [|now apply IH].
  now apply IH, zero_at_insert.
Qed.

(** An entry whose weight is not zero at the end was accepted. *)
Lemma mst_survivor_accepted n ent i_sort dat comp k p x :
  length dat = length ent ->
  p ∈ i_sort ->
  _min_spanning_tree n ent i_sort dat comp k !! p = Some x ->
  F64.is_zero x = false ->
  p ∈ accepted n ent i_sort comp k.
Proof.
  intros Hlen Hin Hp Hx. revert dat comp k Hlen Hin Hp.
  induction i_sort as [|j rest IH]; intros dat comp k Hlen Hin Hp;
    [now apply elem_of_nil in Hin|].
  assert (Hplt : p < length dat).
  { apply lookup_lt_Some in Hp. now rewrite mst_length in Hp. }
  assert (Hzero : forall comp' k',
             _min_spanning_tree n ent rest (<[p := F64.zero]> dat) comp' k' !! p
             = Some x -> False).
  { intros comp' k' H.
    destruct (mst_zero_stays n ent rest _ comp' k' p
                (zero_at_insert_eq dat p Hplt)) as (y & Hy & Hyz).
    congruence. }
  cbn [_min_spanning_tree] in Hp. cbn [accepted].
  apply elem_of_cons in Hin.
  destruct (k <? n - 1).
  - destruct (ent !! j) as [[[V1 V2] w]|] eqn:Hj.
    + destruct (find comp V1 =? find comp V2).
      * destruct (decide (p = j)) as [->|Hne].
        { exfalso. eapply Hzero, Hp. }
        apply (IH (<[j := F64.zero]> dat)); try assumption.
        -- now rewrite length_insert.
        -- destruct Hin; [contradiction|assumption].
      * destruct (decide (p = j)) as [->|Hne]; [apply elem_of_cons; auto|].
        apply elem_of_cons; right. apply (IH dat); try assumption.
        destruct Hin; [contradiction|assumption].
    + destruct (decide (p = j)) as [->|Hne].
      { apply lookup_ge_None in Hj. lia. }
      apply (IH dat); try assumption.
      destruct Hin; [contradiction|assumption].
  - destruct (decide (p = j)) as [->|Hne].
    { exfalso. eapply Hzero, Hp. }
    apply (IH (<[j := F64.zero]> dat)); try assumption.
    + now rewrite length_insert.
    + destruct Hin; [contradiction|assumption].
Qed.

Lemma elem_of_insert_pos dat j l p :
  p ∈ insert_pos dat j l <-> p = j \/ p ∈ l.
Proof.
  induction l as [|k l IH]; cbn.
  - rewrite list_elem_of_singleton. set_solver.
  - destruct (F64.ltb _ _); rewrite !elem_of_cons; [rewrite IH|]; tauto.
Qed.

Lemma argsort_complete dat p : p < length dat -> p ∈ argsort dat.
Proof.
  intros Hp. unfold argsort.
  assert (H : forall l, p ∈ foldr (insert_pos dat) [] l <-> p ∈ l).
  { induction l as [|j l IH]; cbn; [reflexivity|].
    rewrite elem_of_insert_pos, IH, elem_of_cons. tauto. }
  apply H, elem_of_seq. lia.
Qed.

Lemma elem_of_mst_entries ent dat u v x :
  (u, v, x) ∈ eliminate_zeros (set_data ent dat) ->
  exists p w, ent !! p = Some (u, v, w) /\ dat !! p = Some x
              /\ F64.is_zero x = false.
Proof.
  unfold eliminate_zeros, set_data. rewrite list_elem_of_In, filter_In.
  intros [Hin Hz]. apply list_elem_of_In, list_elem_of_lookup in Hin as [p Hp].
  apply lookup_zip_with_Some in Hp as ([[u' v'] w] & y & Heq & He & Hy).
  cbn in Heq. injection Heq as -> -> ->.
  exists p, w. repeat split; try assumption.
  cbn in Hz. now destruct (F64.is_zero _).
Qed.

(** Every entry of the sparse tree is an entry of the graph, at a position
    that Kruskal's loop accepted. *)
Lemma mst_of_csr_entries g u v x :
  (u, v, x) ∈ entries (mst_of_csr g) ->
  exists p w, entries g !! p = Some (u, v, w)
    /\ p ∈ accepted (csr_n g) (entries g) (argsort (map snd (entries g)))
             (seq 0 (csr_n g)) 0.
Proof.
  unfold mst_of_csr; cbn [entries]. intros H.
  apply elem_of_mst_entries in H as (p & w & He & Hd & Hz).
  exists p, w. split; [assumption|].
  eapply mst_survivor_accepted; [| |exact Hd|exact Hz].
  - now rewrite length_map.
  - apply argsort_complete. rewrite length_map.
    now apply lookup_lt_Some in He.
Qed.

End KruskalFacts.

(** ** The graph that NetworkX builds *)

Lemma fold_add_weighted_edges es G0 :
  let G := fold_left (fun G e => nx.add_weighted_edge e G) es G0 in
  (forall key, key ∈ dom (nx.edges G) <->
     key ∈ dom (nx.edges G0)
     \/ exists u v x, (u, v, x) ∈ es /\ key = nx.edge_key u v)
  /\ (forall a, a ∈ nx.nodes G <->
        a ∈ nx.nodes G0 \/ exists u v x, (u, v, x) ∈ es /\ (a = u \/ a = v)).
Proof.
  revert G0. induction es as [|[[u v] x] es IH]; intros G0; cbn zeta.
  - cbn. split; intros ?; split; auto; intros [?|(?&?&?&H&_)]; auto;
      now apply elem_of_nil in H.
  - cbn [fold_left]. destruct (IH (nx.add_weighted_edge (u, v, x) G0)) as [He Hn].
    cbn zeta in He, Hn. split.
    + intros key. rewrite He. cbn [nx.add_weighted_edge nx.edges].
      rewrite dom_insert_L, elem_of_union, elem_of_singleton.
      split.
      * intros [[->|?]|(u' & v' & x' & Hin & ->)]; auto.
        -- right. exists u, v, x. split; [apply elem_of_cons; auto|reflexivity].
        -- right. exists u', v', x'. split; [apply elem_of_cons; auto|reflexivity].
      * intros [?|(u' & v' & x' & Hin & ->)]; auto.
        apply elem_of_cons in Hin as [Heq|Hin].
        -- injection Heq as -> -> ->. auto.
        -- right. eauto.
    + intros a. rewrite Hn. cbn [nx.add_weighted_edge nx.nodes].
      rewrite !elem_of_union, !elem_of_singleton.
      split.
      * intros [[->|[->|?]]|(u' & v' & x' & Hin & Ha)]; auto.
        -- right. exists u, v, x. split; [apply elem_of_cons; auto|auto].
        -- right. exists u, v, x. split; [apply elem_of_cons; auto|auto].
        -- right. exists u', v', x'. split; [apply elem_of_cons; auto|auto].
      * intros [?|(u' & v' & x' & Hin & Ha)]; auto.
        apply elem_of_cons in Hin as [Heq|Hin].
        -- injection Heq as -> -> ->. destruct Ha; auto.
        -- right. eauto.
Qed.

Lemma elem_of_dom_edges A key :
  key ∈ dom (nx.edges (nx.from_scipy_sparse_matrix A)) <->
  exists u v x, (u, v, x) ∈ csgraph.entries A /\ key = nx.edge_key u v.
Proof.
  unfold nx.from_scipy_sparse_matrix.
  destruct (fold_add_weighted_edges (csgraph.entries A)
              {| nx.nodes := list_to_set (seq 0 (csgraph.csr_n A));
                 nx.edges := ∅ |}) as [He _].
  cbn zeta in He. rewrite He. cbn [nx.edges]. rewrite dom_empty_L.
  split; [intros [H|H]; [set_solver|exact H]|auto].
Qed.

Lemma elem_of_nodes A a :
  a ∈ nx.nodes (nx.from_scipy_sparse_matrix A) <->
  a < csgraph.csr_n A
  \/ exists u v x, (u, v, x) ∈ csgraph.entries A /\ (a = u \/ a = v).
Proof.
  unfold nx.from_scipy_sparse_matrix.
  destruct (fold_add_weighted_edges (csgraph.entries A)
              {| nx.nodes := list_to_set (seq 0 (csgraph.csr_n A));
                 nx.edges := ∅ |}) as [_ Hn].
  cbn zeta in Hn. rewrite Hn. cbn [nx.nodes].
  rewrite elem_of_list_to_set, elem_of_seq.
  split; (intros [H|H]; [left; lia|right; exact H]).
Qed.

(** ** The entries of a dense graph *)

Lemma elem_of_dense_entries n a u v w :
  (u, v, w) ∈ csgraph.dense_entries n a <->
  u < n /\ v < n /\ get2 a u v = Some w /\ csgraph.is_null w = false.
Proof.
  unfold csgraph.dense_entries.
  rewrite list_elem_of_In, in_flat_map. split.
  - intros (i & Hi & Hin). apply in_seq in Hi.
    apply list_elem_of_In, list_elem_of_omap in Hin as (j & Hj & Hsome).
    apply elem_of_seq in Hj.
    destruct (get2 a i j) as [x|] eqn:Hg; [|discriminate].
    destruct (csgraph.is_null x) eqn:Hnull; [discriminate|].
    injection Hsome as -> -> ->. repeat split; (assumption || lia).
  - intros (Hu & Hv & Hg & Hnull). exists u. split; [apply in_seq; lia|].
    apply list_elem_of_In, list_elem_of_omap. exists v.
    split; [apply elem_of_seq; lia|]. now rewrite Hg, Hnull.
Qed.

Lemma dense_entries_bounded n a : Kruskal.bounded n (csgraph.dense_entries n a).
Proof.
  intros p u v w Hp. apply list_elem_of_lookup_2, elem_of_dense_entries in Hp.
  tauto.
Qed.

(** An edge of the graph comes from an entry of the distance matrix that is
    not null. *)
Lemma graph_of_edge n D u v :
  nx.has_edge (graph_of n D) u v ->
  u < n /\ v < n /\
  ((exists w, get2 D u v = Some w /\ csgraph.is_null w = false)
   \/ (exists w, get2 D v u = Some w /\ csgraph.is_null w = false)).
Proof.
  unfold nx.has_edge, graph_of. rewrite <- elem_of_dom, elem_of_dom_edges.
  intros (a & b & x & Hin & Hkey).
  apply KruskalFacts.mst_of_csr_entries in Hin as (p & w & Hp & _).
  cbn [csgraph.entries] in Hp.
  apply list_elem_of_lookup_2, elem_of_dense_entries in Hp
    as (Ha & Hb & Hg & Hnull).
  destruct (ForestFacts.edge_key_cases u v) as [Huv|Huv];
    destruct (ForestFacts.edge_key_cases a b) as [Hab|Hab];
    rewrite Huv, Hab in Hkey; injection Hkey as -> ->;
    repeat split; eauto.
Qed.

Lemma graph_of_nodes n D a : a ∈ nx.nodes (graph_of n D) <-> a < n.
Proof.
  unfold graph_of. rewrite elem_of_nodes. cbn [csgraph.csr_n csgraph.mst_of_csr].
  split; [|auto]. intros [H|(u & v & x & Hin & Ha)]; [assumption|].
  apply KruskalFacts.mst_of_csr_entries in Hin as (p & w & Hp & _).
  cbn [csgraph.entries] in Hp.
  apply list_elem_of_lookup_2, elem_of_dense_entries in Hp as (Hu & Hv & _).
  destruct Ha; subst; assumption.
Qed.

(** The graph is a forest, whatever the distance matrix. *)
Lemma graph_of_acyclic n D :
  Forest.acyclic (dom (nx.edges (graph_of n D))).
Proof.
  set (g := {| csgraph.csr_n := n; csgraph.entries := csgraph.dense_entries n D |}).
  apply (ForestFacts.acyclic_subseteq _
           (Kruskal.keys (csgraph.entries g)
              (Kruskal.accepted n (csgraph.entries g)
                 (csgraph.argsort (map snd (csgraph.entries g))) (seq 0 n) 0)
            ∪ ∅)).
  - intros key Hkey. unfold graph_of in Hkey. fold g in Hkey.
    apply elem_of_dom_edges in Hkey as (u & v & x & Hin & ->).
    apply KruskalFacts.mst_of_csr_entries in Hin as (p & w & Hp & Hacc).
    apply elem_of_union; left.
    unfold Kruskal.keys. apply elem_of_list_to_set, list_elem_of_omap.
    exists p. split; [exact Hacc|].
    unfold Kruskal.key_at. now rewrite Hp.
  - apply KruskalFacts.accepted_acyclic.
    + apply dense_entries_bounded.
    + apply KruskalFacts.components_init.
    + apply ForestFacts.acyclic_empty.
Qed.

Lemma adjacent_has_edge A u v :
  Forest.adjacent (dom (nx.edges (nx.from_scipy_sparse_matrix A))) u v ->
  nx.has_edge (nx.from_scipy_sparse_matrix A) u v.
Proof.
  unfold nx.has_edge. rewrite <- elem_of_dom.
  assert (Hnorm : forall a b,
            (a, b) ∈ dom (nx.edges (nx.from_scipy_sparse_matrix A)) ->
            nx.edge_key a b = (a, b)).
  { intros a b Hab. apply elem_of_dom_edges in Hab as (x & y & w & _ & Hk).
    unfold nx.edge_key in *. injection Hk as -> ->. f_equal; lia. }
  intros [H|H].
  - now rewrite (Hnorm _ _ H).
  - now rewrite ForestFacts.edge_key_sym, (Hnorm _ _ H).
Qed.

(** A node without edges is a component of its own. *)
Lemma no_edge_alone A i :
  (forall j, ~ nx.has_edge (nx.from_scipy_sparse_matrix A) i j) ->
  forall j,
    Forest.connected (dom (nx.edges (nx.from_scipy_sparse_matrix A))) i j ->
    j = i.
Proof.
  intros Hno j Hconn. destruct Hconn as [|a b c Hab _]; [reflexivity|].
  exfalso. eapply Hno, adjacent_has_edge, Hab.
Qed.

(** ** A row with zero variance *)

Lemma is_null_nan : csgraph.is_null F64.nan = true.
Proof. reflexivity. Qed.

(** A row of equal samples whose mean is rounded has deviations that are
    not zero: three samples equal to [0.1] have the mean
    [0.10000000000000002], and the deviations [-2^-56]. *)
Lemma constant_row_with_rounded_mean :
  Examples.tenth = (F64.one / F64.of_Z 10)%f64
  /\ np.deviations [Examples.tenth; Examples.tenth; Examples.tenth]
     = [S754_finite true 4503599627370496 (-108);
        S754_finite true 4503599627370496 (-108);
        S754_finite true 4503599627370496 (-108)].
Proof. vm_compute. split; reflexivity. Qed.

(** ** Rounding to binary64 *)

Module RoundingFacts.

Import Rounding.

Local Open Scope Z_scope.


Lemma fexp_eq z : fexp z = Z.max (z - 53) (-1074).
Proof. reflexivity. Qed.

Lemma digits2_pos_size p : digits2_pos p = Pos.size p.
Proof. induction p; cbn; congruence. Qed.

Lemma Zdigits2_log2 m : 0 < m -> Zdigits2 m = Z.log2 m + 1.
Proof.
  destruct m as [|p|p]; try lia. intros _. cbn [Zdigits2].
  rewrite digits2_pos_size. destruct p; cbn; lia.
Qed.

Lemma Zdigits2_bounds m :
  0 < m -> 2 ^ (Zdigits2 m - 1) <= m < 2 ^ Zdigits2 m.
Proof.
  intros Hm. rewrite Zdigits2_log2 by assumption.
  replace (Z.log2 m + 1 - 1) with (Z.log2 m) by lia.
  replace (Z.log2 m + 1) with (Z.succ (Z.log2 m)) by lia.
  now apply Z.log2_spec.
Qed.

Lemma Zdigits2_pos m : 0 < m -> 0 < Zdigits2 m.
Proof.
  intros Hm. rewrite Zdigits2_log2 by assumption.
  pose proof (Z.log2_nonneg m). lia.
Qed.

Lemma Zdigits2_unique m d :
  2 ^ (d - 1) <= m < 2 ^ d -> 0 < m -> Zdigits2 m = d.
Proof.
  intros H Hm. rewrite Zdigits2_log2 by assumption.
  destruct (Z.le_gt_cases d 0) as [Hd|Hd].
  - assert (2 ^ d <= 1).
    { destruct (Z.eq_dec d 0) as [->|]; [cbn; lia|].
      rewrite Z.pow_neg_r by lia. lia. }
    lia.
  - assert (Z.log2 m = d - 1); [|lia].
    apply Z.log2_unique; [lia|]. replace (Z.succ (d - 1)) with d by lia. exact H.
Qed.

Lemma Zdigits2_ge m d : 0 <= d -> 2 ^ d <= m -> d + 1 <= Zdigits2 m.
Proof.
  intros Hd H. assert (0 < m) by (pose proof (Z.pow_pos_nonneg 2 d); lia).
  rewrite Zdigits2_log2 by assumption.
  assert (d <= Z.log2 m); [|lia].
  apply Z.log2_le_pow2; assumption.
Qed.

Lemma Zdigits2_le m d : 0 <= d -> 0 <= m < 2 ^ d -> Zdigits2 m <= d.
Proof.
  intros Hd [H0 H]. destruct (Z.eq_dec m 0) as [->|]; [cbn; lia|].
  rewrite Zdigits2_log2 by lia.
  assert (Z.log2 m < d); [|lia]. apply Z.log2_lt_pow2; lia.
Qed.


(** *** Shifting a mantissa to the right *)

Lemma shr_1_spec mrs :
  0 <= shr_m mrs ->
  shr_m (shr_1 mrs) = shr_m mrs / 2
  /\ (inexact (shr_1 mrs) = true ->
      inexact mrs = true \/ shr_m mrs mod 2 <> 0).
Proof.
  destruct mrs as [m r s]. unfold inexact. cbn [shr_m shr_r shr_s].
  intros Hm. destruct m as [|[p|p|]|p]; try lia; cbn [shr_1 shr_m shr_r shr_s].
  - split; [reflexivity|]. cbn. auto.
  - split; [rewrite Pos2Z.inj_xI; apply Z.div_unique with 1; lia|].
    intros _. right. rewrite Pos2Z.inj_xI.
    replace (2 * Z.pos p + 1) with (1 + Z.pos p * 2) by lia.
    rewrite Z.mod_add by lia. rewrite Z.mod_1_l by lia. lia.
  - split; [rewrite Pos2Z.inj_xO; apply Z.div_unique with 0; lia|].
    cbn. auto.
  - split; [reflexivity|]. intros _. right. rewrite Z.mod_1_l by lia. lia.
Qed.

Lemma mod_pow2_add m j k :
  0 <= j -> 0 <= k ->
  m mod 2 ^ (j + k) = 0 <-> m mod 2 ^ j = 0 /\ (m / 2 ^ j) mod 2 ^ k = 0.
Proof.
  intros Hj Hk. rewrite Z.pow_add_r by assumption.
  assert (0 < 2 ^ j) by (apply Z.pow_pos_nonneg; lia).
  assert (0 < 2 ^ k) by (apply Z.pow_pos_nonneg; lia).
  rewrite Z.rem_mul_r by lia.
  pose proof (Z.mod_pos_bound m (2 ^ j)).
  pose proof (Z.mod_pos_bound (m / 2 ^ j) (2 ^ k)). nia.
Qed.

Lemma shifted_1 x : 0 <= shr_m x -> shifted 1 x (shr_1 x).
Proof.
  intros Hx. destruct (shr_1_spec x Hx) as [Hm Hi].
  unfold shifted. rewrite Hm. change (2 ^ 1) with 2.
  split; [apply Z.div_pos; lia|]. auto.
Qed.

Lemma shifted_trans j k x y z :
  0 <= j -> 0 <= k -> shifted j x y -> shifted k y z -> shifted (j + k) x z.
Proof.
  intros Hj Hk (Hy0 & Hy & Hyi) (Hz0 & Hz & Hzi). unfold shifted.
  split; [assumption|]. split.
  - rewrite Hz, Hy, Z.pow_add_r by assumption.
    assert (0 < 2 ^ j) by (apply Z.pow_pos_nonneg; lia).
    assert (0 < 2 ^ k) by (apply Z.pow_pos_nonneg; lia).
    rewrite Z.div_div by lia. reflexivity.
  - intros H. rewrite mod_pow2_add by assumption.
    destruct (Hzi H) as [Hi|Hm].
    + destruct (Hyi Hi) as [?|?]; [auto|right; tauto].
    + right. rewrite Hy in Hm. tauto.
Qed.

Lemma iter_pos_shifted p x :
  0 <= shr_m x -> shifted (Z.pos p) x (SpecFloat.iter_pos shr_1 p x).
Proof.
  revert x. induction p as [p IH|p IH|]; intros x Hx; cbn [SpecFloat.iter_pos].
  - pose proof (shifted_1 x Hx) as H1.
    assert (H2 := IH (shr_1 x) (proj1 H1)).
    assert (H3 := IH _ (proj1 H2)).
    replace (Z.pos p~1) with (1 + Z.pos p + Z.pos p) by lia.
    eapply shifted_trans; [lia|lia| |exact H3].
    eapply shifted_trans; [lia|lia|exact H1|exact H2].
  - assert (H2 := IH x Hx).
    assert (H3 := IH _ (proj1 H2)).
    replace (Z.pos p~0) with (Z.pos p + Z.pos p) by lia.
    eapply shifted_trans; [lia|lia|exact H2|exact H3].
  - now apply shifted_1.
Qed.

Lemma shifted_0 x : 0 <= shr_m x -> shifted 0 x x.
Proof.
  intros Hx. unfold shifted. cbn. rewrite Z.div_1_r. auto.
Qed.

Lemma shr_spec mrs e n :
  0 <= shr_m mrs ->
  shifted (Z.max n 0) mrs (fst (shr mrs e n))
  /\ snd (shr mrs e n) = e + Z.max n 0.
Proof.
  intros Hm. destruct n as [|p|p]; cbn [shr fst snd].
  - split; [now apply shifted_0|lia].
  - rewrite Z.max_l by lia. split; [now apply iter_pos_shifted|reflexivity].
  - rewrite Z.max_r by lia. split; [now apply shifted_0|lia].
Qed.

Lemma inexact_of_loc m l :
  inexact (shr_record_of_loc m l) = match l with loc_Exact => false | _ => true end.
Proof. destruct l as [|[| |]]; reflexivity. Qed.

Lemma shr_m_of_loc m l : shr_m (shr_record_of_loc m l) = m.
Proof. destruct l as [|[| |]]; reflexivity. Qed.

Lemma round_nearest_even_spec mrs :
  let m' := round_nearest_even (shr_m mrs) (loc_of_shr_record mrs) in
  shr_m mrs <= m' <= shr_m mrs + carry (inexact mrs).
Proof.
  destruct mrs as [m [|] [|]]; cbn; try lia.
  destruct (Z.even m); lia.
Qed.


(** *** One normalisation step *)

Lemma pow2_pos k : 0 <= k -> 0 < 2 ^ k.
Proof. intros. apply Z.pow_pos_nonneg; lia. Qed.

Lemma pow2_split a b : 0 <= a -> 0 <= b -> 2 ^ (a + b) = 2 ^ a * 2 ^ b.
Proof. intros. now apply Z.pow_add_r. Qed.

Lemma shr_fexp_spec m e l :
  0 <= m ->
  let n := Z.max (fexp (Zdigits2 m + e) - e) 0 in
  snd (shr_fexp 53 1024 m e l) = e + n
  /\ shifted n (shr_record_of_loc m l) (fst (shr_fexp 53 1024 m e l)).
Proof.
  intros Hm n. unfold shr_fexp.
  destruct (shr_spec (shr_record_of_loc m l) e
              (SpecFloat.fexp 53 1024 (Zdigits2 m + e) - e)) as [H1 H2].
  { now rewrite shr_m_of_loc. }
  split; [exact H2|exact H1].
Qed.

Lemma shr_fexp_canonical m e l :
  0 < m -> e <= fexp (Zdigits2 m + e) ->
  snd (shr_fexp 53 1024 m e l) = fexp (Zdigits2 m + e)
  /\ (0 < shr_m (fst (shr_fexp 53 1024 m e l)) ->
      fexp (Zdigits2 (shr_m (fst (shr_fexp 53 1024 m e l)))
            + snd (shr_fexp 53 1024 m e l))
      = snd (shr_fexp 53 1024 m e l)).
Proof.
  intros Hm HP.
  destruct (shr_fexp_spec m e l) as [He (_ & Hs & _)]; [lia|].
  rewrite shr_m_of_loc in Hs.
  set (fe := fexp (Zdigits2 m + e)) in *.
  rewrite Z.max_l in He, Hs by lia.
  split; [lia|]. intros Hpos. rewrite He, Hs in *.
  set (n := fe - e) in *. assert (Hn : 0 <= n) by lia.
  pose proof (Zdigits2_bounds m Hm) as [Hlo Hhi].
  pose proof (Zdigits2_pos m Hm) as Hd.
  set (d := Zdigits2 m) in *.
  pose proof (pow2_pos n Hn) as H2n.
  assert (Hmn : 2 ^ n <= m).
  { destruct (Z.lt_ge_cases m (2 ^ n)) as [Hlt|]; [|assumption].
    rewrite Z.div_small in Hpos by lia. lia. }
  assert (Hnd : n < d).
  { destruct (Z.lt_ge_cases n d) as [|Hge]; [assumption|].
    assert (2 ^ d <= 2 ^ n) by (apply Z.pow_le_mono_r; lia). lia. }
  assert (Hdig : Zdigits2 (m / 2 ^ n) = d - n).
  { apply Zdigits2_unique; [|assumption]. split.
    - apply Z.div_le_lower_bound; [assumption|].
      rewrite <- pow2_split by lia. replace (n + (d - n - 1)) with (d - 1) by lia.
      assumption.
    - apply Z.div_lt_upper_bound; [assumption|].
      rewrite <- pow2_split by lia. replace (n + (d - n)) with d by lia.
      assumption. }
  rewrite Hdig. replace (d - n + (e + n)) with (d + e) by lia.
  fold fe. lia.
Qed.

Lemma shr_fexp_bound m e l b :
  0 <= m -> e <= b -> -1074 <= b ->
  m + carry (inexact (shr_record_of_loc m l)) <= 2 ^ (b - e) ->
  let r := fst (shr_fexp 53 1024 m e l) in
  let e' := snd (shr_fexp 53 1024 m e l) in
  e' <= b /\ 0 <= shr_m r /\ shr_m r + carry (inexact r) <= 2 ^ (b - e').
Proof.
  intros Hm Heb Hb Hle r e'.
  destruct (shr_fexp_spec m e l Hm) as [He (Hr0 & Hs & Hi)].
  fold r in Hr0, Hs, Hi. fold e' in He.
  rewrite shr_m_of_loc in Hs, Hi.
  set (x := shr_record_of_loc m l) in *.
  assert (Hc : 0 <= carry (inexact x)) by (destruct (inexact x); cbn; lia).
  assert (Hd : Zdigits2 m <= b - e + 1).
  { apply Zdigits2_le; [lia|]. split; [assumption|].
    rewrite pow2_split by lia. change (2 ^ 1) with 2.
    pose proof (pow2_pos (b - e)). lia. }
  assert (Hfe : fexp (Zdigits2 m + e) <= b) by (rewrite fexp_eq; lia).
  set (n := Z.max (fexp (Zdigits2 m + e) - e) 0) in *.
  assert (Hn : 0 <= n <= b - e) by lia.
  split; [lia|]. split; [assumption|].
  pose proof (pow2_pos n (proj1 Hn)) as H2n.
  assert (Hpow : 2 ^ (b - e) = 2 ^ n * 2 ^ (b - e')).
  { rewrite <- pow2_split by lia. f_equal. lia. }
  rewrite Hpow in Hle. rewrite Hs.
  pose proof (pow2_pos (b - e')) as HK.
  destruct (inexact r) eqn:Hir; cbn [carry].
  - assert (m / 2 ^ n < 2 ^ (b - e')); [|lia].
    apply Z.div_lt_upper_bound; [assumption|].
    destruct (Hi eq_refl) as [Hx|Hmod].
    + rewrite Hx in Hle. cbn [carry] in Hle. lia.
    + destruct (Z.eq_dec m (2 ^ n * 2 ^ (b - e'))) as [Heq|]; [|lia].
      exfalso. apply Hmod. rewrite Heq, Z.mul_comm. apply Z.mod_mul. lia.
  - assert (m / 2 ^ n <= 2 ^ (b - e')); [|lia].
    apply Z.div_le_upper_bound; [assumption|]. lia.
Qed.


(** *** Rounding to nearest *)

Lemma Zdigits2_mono a b : 0 < a -> a <= b -> Zdigits2 a <= Zdigits2 b.
Proof.
  intros Ha Hab. rewrite !Zdigits2_log2 by lia.
  pose proof (Z.log2_le_mono a b Hab). lia.
Qed.

Lemma fexp_mono a b : a <= b -> fexp a <= fexp b.
Proof. rewrite !fexp_eq. lia. Qed.

Lemma fexp_ge z : -1074 <= fexp z.
Proof. rewrite fexp_eq. lia. Qed.

Lemma binary_round_aux_eq sx mx ex lx :
  binary_round_aux 53 1024 sx mx ex lx =
  let s1 := shr_fexp 53 1024 mx ex lx in
  let m2 := round_nearest_even (shr_m (fst s1)) (loc_of_shr_record (fst s1)) in
  let s2 := shr_fexp 53 1024 m2 (snd s1) loc_Exact in
  match shr_m (fst s2) with
  | Z0 => S754_zero sx
  | Zpos m => if snd s2 <=? 971 then S754_finite sx m (snd s2)
              else S754_infinity sx
  | Zneg _ => S754_nan
  end.
Proof.
  unfold binary_round_aux.
  destruct (shr_fexp 53 1024 mx ex lx) as [r1 e1]. cbn [fst snd].
  destruct (shr_fexp 53 1024 _ e1 loc_Exact) as [r2 e2]. reflexivity.
Qed.

Lemma binary_round_aux_valid sx mx ex lx :
  0 <= mx -> ex <= fexp (Zdigits2 mx + ex) ->
  valid_binary 53 1024 (binary_round_aux 53 1024 sx mx ex lx) = true.
Proof.
  intros Hmx HP. rewrite binary_round_aux_eq. cbn zeta.
  set (s1 := shr_fexp 53 1024 mx ex lx).
  set (m1 := shr_m (fst s1)). set (e1 := snd s1).
  set (m2 := round_nearest_even m1 (loc_of_shr_record (fst s1))).
  destruct (shr_fexp_spec mx ex lx Hmx) as [He1 (Hm10 & Hs1 & _)].
  fold s1 in He1, Hm10, Hs1. fold m1 in Hm10, Hs1. fold e1 in He1.
  rewrite shr_m_of_loc in Hs1.
  assert (Hcases : (0 < m1 /\ fexp (Zdigits2 m1 + e1) = e1)
                   \/ (m1 = 0 /\ e1 = -1074)).
  { destruct (Z.eq_dec mx 0) as [->|Hne].
    - right. subst m1. rewrite Hs1. split; [apply Z.div_0_l|].
      + pose proof (pow2_pos (Z.max (fexp (Zdigits2 0 + ex) - ex) 0)). lia.
      + cbn [Zdigits2] in *. rewrite fexp_eq in *. lia.
    - destruct (shr_fexp_canonical mx ex lx) as [Hfe Hcan]; [lia|assumption|].
      fold s1 in Hfe, Hcan. fold m1 in Hcan. fold e1 in Hfe, Hcan.
      destruct (Z.eq_dec m1 0) as [Hz|Hnz]; [|left; split; [lia|apply Hcan; lia]].
      right. split; [assumption|].
      pose proof (Zdigits2_bounds mx ltac:(lia)) as [Hlo Hhi].
      set (n := Z.max (fexp (Zdigits2 mx + ex) - ex) 0) in *.
      assert (Hn : 0 <= n) by lia. pose proof (pow2_pos n Hn).
      assert (mx < 2 ^ n).
      { destruct (Z.lt_ge_cases mx (2 ^ n)) as [|Hge]; [assumption|].
        assert (1 <= mx / 2 ^ n); [|lia].
        apply Z.div_le_lower_bound; lia. }
      assert (Zdigits2 mx <= n).
      { destruct (Z.le_gt_cases (Zdigits2 mx) n) as [|Hgt]; [assumption|].
        assert (2 ^ n <= 2 ^ (Zdigits2 mx - 1)) by (apply Z.pow_le_mono_r; lia).
        lia. }
      rewrite fexp_eq in *. lia. }
  pose proof (round_nearest_even_spec (fst s1)) as Hr. cbn zeta in Hr.
  fold m1 in Hr. fold m2 in Hr.
  assert (Hc : 0 <= carry (inexact (fst s1)) <= 1)
    by (destruct (inexact (fst s1)); cbn; lia).
  set (s2 := shr_fexp 53 1024 m2 e1 loc_Exact).
  destruct (shr_fexp_spec m2 e1 loc_Exact ltac:(lia)) as [_ (Hm30 & _ & _)].
  fold s2 in Hm30.
  destruct (shr_m (fst s2)) as [|m3|m3] eqn:Hm3; [reflexivity| |lia].
  destruct (Z.leb_spec (snd s2) 971) as [Hle|Hgt]; [|reflexivity].
  cbn [valid_binary]. unfold bounded, canonical_mantissa.
  apply andb_true_intro. split; [|apply Z.leb_le; cbn; lia].
  apply Z.eqb_eq.
  assert (Hm2 : 0 < m2).
  { destruct (Z.eq_dec m2 0) as [Hz|]; [|lia].
    exfalso. destruct (shr_fexp_spec m2 e1 loc_Exact ltac:(lia))
      as [_ (_ & Hs2 & _)].
    fold s2 in Hs2. rewrite shr_m_of_loc, Hz, Z.div_0_l in Hs2; [lia|].
    pose proof (pow2_pos (Z.max (fexp (Zdigits2 0 + e1) - e1) 0)). lia. }
  destruct (shr_fexp_canonical m2 e1 loc_Exact Hm2) as [_ Hcan].
  { destruct Hcases as [[Hpos Hcan1]|[Hz He]].
    - rewrite <- Hcan1 at 1. apply fexp_mono.
      pose proof (Zdigits2_mono m1 m2 Hpos ltac:(lia)). lia.
    - rewrite He. apply fexp_ge. }
  fold s2 in Hcan. rewrite Hm3 in Hcan.
  change (SpecFloat.fexp 53 1024) with fexp.
  change (Z.pos (digits2_pos m3)) with (Zdigits2 (Z.pos m3)).
  apply Hcan. lia.
Qed.

Lemma binary_round_aux_bound sx mx ex lx b :
  0 <= mx -> ex <= b -> -1074 <= b <= 971 ->
  mx + carry (inexact (shr_record_of_loc mx lx)) <= 2 ^ (b - ex) ->
  binary_round_aux 53 1024 sx mx ex lx = S754_zero sx
  \/ exists m e,
       binary_round_aux 53 1024 sx mx ex lx = S754_finite sx m e
       /\ e <= b /\ Z.pos m <= 2 ^ (b - e).
Proof.
  intros Hmx Heb Hb Hle. rewrite binary_round_aux_eq. cbn zeta.
  destruct (shr_fexp_bound mx ex lx b Hmx Heb ltac:(lia) Hle)
    as (He1 & Hm10 & Hb1).
  set (s1 := shr_fexp 53 1024 mx ex lx) in *.
  pose proof (round_nearest_even_spec (fst s1)) as Hr. cbn zeta in Hr.
  set (m2 := round_nearest_even (shr_m (fst s1)) (loc_of_shr_record (fst s1))) in *.
  destruct (shr_fexp_bound m2 (snd s1) loc_Exact b ltac:(lia) He1 ltac:(lia))
    as (He2 & Hm30 & Hb2).
  { rewrite inexact_of_loc. cbn [carry]. lia. }
  set (s2 := shr_fexp 53 1024 m2 (snd s1) loc_Exact) in *.
  assert (Hc : 0 <= carry (inexact (fst s2)))
    by (destruct (inexact (fst s2)); cbn; lia).
  destruct (shr_m (fst s2)) as [|m3|m3] eqn:Hm3; [auto| |lia].
  right. destruct (Z.leb_spec (snd s2) 971) as [Hle2|Hgt]; [|lia].
  exists m3, (snd s2). repeat split; [assumption|lia].
Qed.


(** *** Aligning a mantissa to a smaller exponent *)

Lemma shl_align_spec mx ex ex' :
  snd (shl_align mx ex ex') = Z.min ex ex'
  /\ Z.pos (fst (shl_align mx ex ex'))
     = Z.pos mx * 2 ^ (ex - Z.min ex ex').
Proof.
  unfold shl_align. destruct (ex' - ex) as [|d|d] eqn:Hd; cbn [fst snd].
  - rewrite Z.min_l by lia. rewrite Z.sub_diag. split; lia.
  - rewrite Z.min_l by lia. rewrite Z.sub_diag. split; lia.
  - rewrite Z.min_r by lia. split; [reflexivity|].
    change (Pos.iter xO mx d) with (shift_pos d mx).
    rewrite shift_pos_correct. replace (ex - ex') with (Z.pos d) by lia.
    change (Z.pow_pos 2 d) with (2 ^ Z.pos d). lia.
Qed.

Lemma Zdigits2_shift m k :
  0 < m -> 0 <= k -> Zdigits2 (m * 2 ^ k) = Zdigits2 m + k.
Proof.
  intros Hm Hk. pose proof (Zdigits2_bounds m Hm) as [Hlo Hhi].
  pose proof (Zdigits2_pos m Hm). pose proof (pow2_pos k Hk).
  apply Zdigits2_unique; [|nia].
  replace (Zdigits2 m + k - 1) with (Zdigits2 m - 1 + k) by lia.
  rewrite !pow2_split by lia. nia.
Qed.

Lemma binary_round_eq sx mx ex :
  binary_round 53 1024 sx mx ex =
  let fe := fexp (Zdigits2 (Z.pos mx) + ex) in
  binary_round_aux 53 1024 sx (Z.pos (fst (shl_align mx ex fe)))
    (snd (shl_align mx ex fe)) loc_Exact.
Proof.
  unfold binary_round. cbn zeta.
  change (SpecFloat.fexp 53 1024 (Z.pos (digits2_pos mx) + ex))
    with (fexp (Zdigits2 (Z.pos mx) + ex)).
  now destruct (shl_align mx ex _).
Qed.

Lemma binary_round_valid sx mx ex :
  valid_binary 53 1024 (binary_round 53 1024 sx mx ex) = true.
Proof.
  rewrite binary_round_eq. cbn zeta.
  set (fe := fexp (Zdigits2 (Z.pos mx) + ex)).
  destruct (shl_align_spec mx ex fe) as [He Hm].
  apply binary_round_aux_valid; [lia|].
  rewrite He, Hm. rewrite Zdigits2_shift by lia.
  replace (Zdigits2 (Z.pos mx) + (ex - Z.min ex fe) + Z.min ex fe)
    with (Zdigits2 (Z.pos mx) + ex) by lia.
  fold fe. lia.
Qed.

Lemma binary_round_bound sx mx ex b :
  ex <= b -> -1074 <= b <= 971 -> Z.pos mx <= 2 ^ (b - ex) ->
  binary_round 53 1024 sx mx ex = S754_zero sx
  \/ exists m e,
       binary_round 53 1024 sx mx ex = S754_finite sx m e
       /\ e <= b /\ Z.pos m <= 2 ^ (b - e).
Proof.
  intros Heb Hb Hle. rewrite binary_round_eq. cbn zeta.
  set (fe := fexp (Zdigits2 (Z.pos mx) + ex)).
  destruct (shl_align_spec mx ex fe) as [He Hm].
  apply binary_round_aux_bound; [lia|lia|assumption|].
  rewrite inexact_of_loc, Hm, He. cbn [carry].
  replace (b - Z.min ex fe) with ((b - ex) + (ex - Z.min ex fe)) by lia.
  rewrite pow2_split by lia.
  pose proof (pow2_pos (ex - Z.min ex fe)). nia.
Qed.

(** *** Magnitudes and signs *)

Lemma mag_le_weaken b b' x : b <= b' -> mag_le b x -> mag_le b' x.
Proof.
  intros Hb. destruct x as [s|s| |s m e]; cbn; try tauto.
  intros [He Hm]. split; [lia|].
  replace (b' - e) with ((b - e) + (b' - b)) by lia.
  rewrite pow2_split by lia. pose proof (pow2_pos (b' - b)).
  pose proof (pow2_pos (b - e)). nia.
Qed.

Lemma binary_normalize_spec z e b :
  0 <= z -> e <= b -> -1074 <= b <= 971 -> z <= 2 ^ (b - e) ->
  let x := binary_normalize 53 1024 z e false in
  valid x /\ nonneg x /\ mag_le b x.
Proof.
  intros Hz He Hb Hle. destruct z as [|p|p]; [| |lia]; cbn [binary_normalize].
  - repeat split.
  - split; [apply binary_round_valid|].
    destruct (binary_round_bound false p e b He Hb Hle)
      as [->|(m & e' & -> & ? & ?)]; cbn; auto.
Qed.


(** *** The operations of the distance transforms *)

Lemma pow2_52 : Z.pos 4503599627370496 = 2 ^ 52.
Proof. reflexivity. Qed.

Lemma sub_one_spec c :
  mag_le 0 c ->
  let x := F64.sub F64.one c in
  valid x /\ nonneg x /\ mag_le 1 x /\ (nonneg c -> mag_le 0 x).
Proof.
  unfold F64.sub, F64.prec, F64.emax.
  change F64.one with (S754_finite false 4503599627370496 (-52)).
  destruct c as [s|s| |s m e]; cbn [mag_le]; try tauto.
  - intros _. cbn. repeat split; try lia; cbn; lia.
  - intros [He Hm]. cbn [SFsub].
    set (ez := Z.min (-52) e).
    destruct (shl_align_spec 4503599627370496 (-52) ez) as [_ H1].
    destruct (shl_align_spec m e ez) as [_ Hc].
    rewrite Z.min_r in H1 by lia. rewrite Z.min_r in Hc by lia.
    rewrite H1, Hc, pow2_52. clear H1 Hc.
    rewrite <- pow2_split by lia. replace (52 + (-52 - ez)) with (- ez) by lia.
    assert (Hmc : Z.pos m * 2 ^ (e - ez) <= 2 ^ (- ez)).
    { replace (- ez) with ((0 - e) + (e - ez)) by lia.
      rewrite pow2_split by lia. pose proof (pow2_pos (e - ez)). nia. }
    pose proof (pow2_pos (e - ez)). pose proof (pow2_pos (- ez)).
    assert (H2 : 2 ^ (1 - ez) = 2 * 2 ^ (- ez)).
    { replace (1 - ez) with (1 + - ez) by lia. rewrite pow2_split by lia.
      reflexivity. }
    destruct s; cbn [cond_Zopp].
    + destruct (binary_normalize_spec
                  (2 ^ (- ez) - - (Z.pos m * 2 ^ (e - ez))) ez 1)
        as (Hv & Hn & Hb); [nia|lia|lia|nia|].
      repeat split; try assumption. intros [].
    + destruct (binary_normalize_spec
                  (2 ^ (- ez) - Z.pos m * 2 ^ (e - ez)) ez 0)
        as (Hv & Hn & Hb); [nia|lia|lia| |].
      { replace (0 - ez) with (- ez) by lia. nia. }
      split; [assumption|]. split; [assumption|].
      split; [now apply (mag_le_weaken 0 1)|intros _; assumption].
Qed.

Lemma mul_two_spec x :
  nonneg x -> mag_le 1 x ->
  let y := F64.mul F64.two x in nonneg y /\ mag_le 2 y.
Proof.
  destruct x as [s|s| |[|] m e]; cbn [nonneg mag_le]; try tauto.
  intros _ [He Hm]. unfold F64.mul, F64.prec, F64.emax.
  change F64.two with (S754_finite false 4503599627370496 (-51)).
  cbn [SFmul xorb].
  destruct (binary_round_aux_bound false
                (Z.pos (4503599627370496 * m)) (-51 + e) loc_Exact 2)
      as [->|(m' & e' & -> & ? & ?)]; cbn [nonneg mag_le]; auto; try lia.
    rewrite inexact_of_loc. cbn [carry].
    rewrite Pos2Z.inj_mul, pow2_52.
    replace (2 - (-51 + e)) with (52 + (1 - e)) by lia.
    rewrite pow2_split by lia. nia.
Qed.

Lemma mul_self_spec c :
  mag_le 0 c ->
  let p := F64.mul c c in nonneg p /\ mag_le 0 p.
Proof.
  destruct c as [s|s| |s m e]; cbn [mag_le]; try tauto.
  intros [He Hm]. unfold F64.mul, F64.prec, F64.emax. cbn [SFmul].
  rewrite xorb_nilpotent.
  destruct (binary_round_aux_bound false (Z.pos (m * m)) (e + e) loc_Exact 0)
      as [->|(m' & e' & -> & ? & ?)]; cbn [nonneg mag_le]; auto; try lia.
    rewrite inexact_of_loc. cbn [carry]. rewrite Pos2Z.inj_mul.
    replace (0 - (e + e)) with ((0 - e) + (0 - e)) by lia.
    rewrite pow2_split by lia. nia.
Qed.


Lemma sqrt_core_spec m e :
  0 < m ->
  let t := SFsqrt_core_binary 53 1024 m e in
  let q := fst (fst t) in
  let e' := snd (fst t) in
  e' = Z.min (fexp ((Zdigits2 m + e + 1) / 2)) (e / 2)
  /\ 0 <= q
  /\ q * q <= m * 2 ^ (e - 2 * e') < (q + 1) * (q + 1)
  /\ (inexact (shr_record_of_loc q (snd t)) = true ->
      q * q < m * 2 ^ (e - 2 * e')).
Proof.
  intros Hm. unfold SFsqrt_core_binary. cbn zeta.
  rewrite !Z.div2_div.
  change (SpecFloat.fexp 53 1024) with fexp.
  set (e' := Z.min (fexp ((Zdigits2 m + e + 1) / 2)) (e / 2)).
  assert (Hs : 0 <= e - 2 * e').
  { pose proof (Z.mul_div_le e 2 ltac:(lia)). lia. }
  set (m' := match e - 2 * e' with
             | 0 => m
             | Z.pos _ => Z.shiftl m (e - 2 * e')
             | Z.neg _ => 0
             end).
  assert (Hm' : m' = m * 2 ^ (e - 2 * e')).
  { unfold m'. destruct (e - 2 * e') as [|p|p] eqn:Hp; [cbn; lia| |lia].
    now rewrite Z.shiftl_mul_pow2 by lia. }
  assert (Hm'0 : 0 <= m').
  { rewrite Hm'. pose proof (pow2_pos (e - 2 * e') Hs). nia. }
  pose proof (Z.sqrtrem_spec m' Hm'0) as Hspec.
  destruct (Z.sqrtrem m') as [q r]. cbn [fst snd].
  destruct Hspec as [Heq [Hr0 Hr]].
  rewrite <- Hm'. repeat split; try lia.
  destruct (Z.eqb_spec r 0) as [->|Hne]; rewrite inexact_of_loc;
    [discriminate|]. intros _. lia.
Qed.

Lemma sqrt_spec y :
  nonneg y -> mag_le 2 y ->
  let z := F64.sqrt y in valid z /\ nonneg z /\ mag_le 1 z.
Proof.
  destruct y as [s|s| |[|] m e]; cbn [nonneg mag_le]; try tauto.
  { intros _ _. repeat split. }
  intros _ [He Hm]. unfold F64.sqrt, F64.prec, F64.emax. cbn [SFsqrt].
  destruct (sqrt_core_spec (Z.pos m) e ltac:(lia)) as (He' & Hq0 & Hq & Hi).
  destruct (SFsqrt_core_binary 53 1024 (Z.pos m) e) as [[q e'] l].
  cbn [fst snd] in *.
  pose proof (Z.mul_div_le e 2 ltac:(lia)) as Hdiv.
  assert (Hs : 0 <= e - 2 * e') by lia.
  pose proof (Zdigits2_bounds (Z.pos m) ltac:(lia)) as [Hlo Hhi].
  pose proof (Zdigits2_pos (Z.pos m) ltac:(lia)) as Hd.
  set (d := Zdigits2 (Z.pos m)) in *.
  pose proof (pow2_pos (e - 2 * e') Hs) as H2s.
  split.
  - (* validity: the root has enough digits *)
    apply binary_round_aux_valid; [assumption|].
    destruct (Z.le_gt_cases e' (-1074)) as [Hsmall|Hbig].
    { pose proof (fexp_ge (Zdigits2 q + e')). lia. }
    assert (Hf : e' <= (d + e + 1) / 2 - 53).
    { assert (e' <= fexp ((d + e + 1) / 2)) by lia.
      rewrite fexp_eq in *. lia. }
    pose proof (Z.mul_div_le (d + e + 1) 2 ltac:(lia)) as Hdiv2.
    assert (Hds : 104 <= d - 1 + (e - 2 * e')) by lia.
    assert (Hm'lo : 2 ^ 104 <= Z.pos m * 2 ^ (e - 2 * e')).
    { assert (2 ^ 104 <= 2 ^ (d - 1 + (e - 2 * e')))
        by (apply Z.pow_le_mono_r; lia).
      rewrite pow2_split in * by lia. nia. }
    assert (Hq52 : 2 ^ 52 <= q).
    { destruct (Z.le_gt_cases (2 ^ 52) q) as [|Hlt]; [assumption|].
      exfalso. change (2 ^ 104) with (2 ^ 52 * 2 ^ 52) in Hm'lo. nia. }
    pose proof (Zdigits2_ge q 52 ltac:(lia) Hq52).
    rewrite fexp_eq. lia.
  - (* bound: the root of a number below [4] is below [2] *)
    assert (Hm' : Z.pos m * 2 ^ (e - 2 * e') <= 2 ^ (1 - e') * 2 ^ (1 - e')).
    { rewrite <- pow2_split by lia.
      replace (1 - e' + (1 - e')) with ((2 - e) + (e - 2 * e')) by lia.
      rewrite pow2_split by lia. nia. }
    pose proof (pow2_pos (1 - e') ltac:(lia)) as HK.
    destruct (binary_round_aux_bound false q e' l 1)
      as [->|(m' & e'' & -> & ? & ?)]; cbn [nonneg mag_le]; auto; try lia.
    destruct (inexact (shr_record_of_loc q l)) eqn:Hin; cbn [carry].
    + specialize (Hi eq_refl). nia.
    + nia.
Qed.

(** A quotient is always a valid number. *)
Lemma div_valid a b : valid (F64.div a b).
Proof.
  destruct a as [sa|sa| |sa ma ea], b as [sb|sb| |sb mb eb];
    try reflexivity.
  unfold valid, F64.valid, F64.div, F64.prec, F64.emax.
  cbn [SFdiv]. unfold SFdiv_core_binary. cbn zeta.
  change (SpecFloat.fexp 53 1024) with fexp.
  set (d1 := Zdigits2 (Z.pos ma)). set (d2 := Zdigits2 (Z.pos mb)).
  set (e' := Z.min (fexp (d1 + ea - (d2 + eb))) (ea - eb)).
  assert (Hs : 0 <= ea - eb - e') by lia.
  set (m' := match ea - eb - e' with
             | 0 => Z.pos ma
             | Z.pos _ => Z.shiftl (Z.pos ma) (ea - eb - e')
             | Z.neg _ => 0
             end).
  assert (Hm' : m' = Z.pos ma * 2 ^ (ea - eb - e')).
  { unfold m'. destruct (ea - eb - e') as [|p|p] eqn:Hp; [cbn; lia| |lia].
    now rewrite Z.shiftl_mul_pow2 by lia. }
  pose proof (pow2_pos (ea - eb - e') Hs) as H2s.
  assert (Hq : fst (Z.div_eucl m' (Z.pos mb)) = m' / Z.pos mb) by reflexivity.
  destruct (Z.div_eucl m' (Z.pos mb)) as [q r]. cbn [fst] in Hq.
  assert (Hq0 : 0 <= q) by (rewrite Hq; apply Z.div_pos; nia).
  apply binary_round_aux_valid; [assumption|].
  destruct (Z.le_gt_cases e' (-1074)) as [Hsmall|Hbig].
  { pose proof (fexp_ge (Zdigits2 q + e')). lia. }
  assert (Hf : e' <= d1 + ea - (d2 + eb) - 53).
  { assert (e' <= fexp (d1 + ea - (d2 + eb))) by lia.
    rewrite fexp_eq in *. lia. }
  pose proof (Zdigits2_bounds (Z.pos ma) ltac:(lia)) as [Hlo1 _].
  pose proof (Zdigits2_bounds (Z.pos mb) ltac:(lia)) as [_ Hhi2].
  pose proof (Zdigits2_pos (Z.pos ma) ltac:(lia)).
  pose proof (Zdigits2_pos (Z.pos mb) ltac:(lia)).
  fold d1 in Hlo1. fold d2 in Hhi2.
  set (k := d1 - 1 + (ea - eb - e') - d2).
  assert (Hk : 52 <= k) by (unfold k; lia).
  assert (Hqk : 2 ^ k <= q).
  { rewrite Hq. apply Z.div_le_lower_bound; [lia|].
    assert (2 ^ k * 2 ^ d2 <= m').
    { rewrite Hm', <- pow2_split by lia.
      replace (k + d2) with ((d1 - 1) + (ea - eb - e')) by (unfold k; lia).
      rewrite pow2_split by lia. nia. }
    pose proof (pow2_pos k ltac:(lia)). nia. }
  pose proof (Zdigits2_ge q k ltac:(lia) Hqk).
  rewrite fexp_eq. lia.
Qed.


End RoundingFacts.

(** ** The range of the distance transforms *)

Section Range.

Import Rounding RoundingFacts.

Local Open Scope Z_scope.

Lemma valid_finite s m e :
  valid (S754_finite s m e) ->
  fexp (Zdigits2 (Z.pos m) + e) = e /\ e <= 971.
Proof.
  unfold valid, F64.valid. cbn [valid_binary]. unfold bounded, canonical_mantissa.
  intros H. apply andb_prop in H as [H1 H2].
  apply Z.eqb_eq in H1. apply Z.leb_le in H2. split; [exact H1|exact H2].
Qed.

Lemma leb_zero_nonneg z : nonneg z -> F64.leb F64.zero z = true.
Proof.
  destruct z as [s|s| |[|] m e]; intros H; try reflexivity; destruct H.
Qed.

Lemma compare_cont_Eq_le_l p q c :
  Pos.compare_cont Eq p q = c -> c <> Gt -> Z.pos p <= Z.pos q.
Proof.
  rewrite Pos.compare_cont_spec. intros <- Hc.
  destruct (Pos.compare_spec p q); cbn in Hc; [lia|lia|congruence].
Qed.

Lemma le_compare_cont_Eq p q :
  Z.pos p <= Z.pos q -> Pos.compare_cont Eq p q <> Gt.
Proof.
  rewrite Pos.compare_cont_spec. intros Hle.
  destruct (Pos.compare_spec p q); cbn; [discriminate|discriminate|lia].
Qed.

Lemma compare_cont_Eq_le_r p q c :
  Pos.compare_cont Eq p q = c -> c <> Lt -> Z.pos q <= Z.pos p.
Proof.
  rewrite Pos.compare_cont_spec. intros <- Hc.
  destruct (Pos.compare_spec p q); cbn in Hc; [lia|congruence|lia].
Qed.

Lemma leb_pow2 z b :
  valid z -> nonneg z -> mag_le b z -> -52 <= b ->
  F64.leb z (S754_finite false 4503599627370496 (b - 52)) = true.
Proof.
  intros Hv Hn Hm Hb.
  destruct z as [s|s| |[|] m e]; try (now destruct Hn).
  destruct Hm as [He Hm]. apply valid_finite in Hv as [Hcan _].
  unfold F64.leb, SFleb. cbn [SFcompare].
  pose proof pow2_52 as Hp. revert Hp.
  generalize 4503599627370496%positive. intros p52 Hp.
  destruct (Z.compare_spec e (b - 52)) as [Heq|Hlt|Hgt]; [|reflexivity|].
  - assert (Hle : Z.pos m <= Z.pos p52).
    { rewrite Hp. replace 52 with (b - e) by lia. exact Hm. }
    apply le_compare_cont_Eq in Hle.
    destruct (Pos.compare_cont Eq m p52); [reflexivity|reflexivity|].
    now elim Hle.
  - exfalso.
    pose proof (Zdigits2_bounds (Z.pos m) ltac:(lia)) as [Hlo _].
    rewrite fexp_eq in Hcan.
    assert (Hd : Zdigits2 (Z.pos m) = 53) by lia.
    rewrite Hd in Hlo.
    assert (2 ^ (b - e) < 2 ^ (53 - 1)) by (apply Z.pow_lt_mono_r; lia).
    lia.
Qed.

Lemma mag_le_of_compare q :
  valid q -> F64.is_nan q = false ->
  F64.ltb q (F64.opp F64.one) = false -> F64.ltb F64.one q = false ->
  mag_le 0 q.
Proof.
  change F64.one with (S754_finite false 4503599627370496 (-52)).
  unfold F64.ltb, F64.opp, SFltb, SFopp. cbn [negb].
  pose proof pow2_52 as Hp. revert Hp.
  generalize 4503599627370496%positive. intros p52 Hp.
  intros Hv Hnan Hlo Hhi.
  destruct q as [s|[|]| |s m e]; cbn [mag_le SFcompare F64.is_nan] in *;
    try discriminate; [exact I|].
  apply valid_finite in Hv as [Hcan _].
  pose proof (Zdigits2_bounds (Z.pos m) ltac:(lia)) as [_ Hdhi].
  rewrite fexp_eq in Hcan.
  assert (Hd : Zdigits2 (Z.pos m) <= 53) by lia.
  assert (Hm53 : Z.pos m < 2 ^ 53).
  { assert (2 ^ Zdigits2 (Z.pos m) <= 2 ^ 53) by (apply Z.pow_le_mono_r; lia).
    lia. }
  assert (Hcases : e < -52 \/ (e = -52 /\ Z.pos m <= 2 ^ 52)).
  { destruct s.
    - destruct (Z.compare_spec e (-52)) as [Heq|Hlt|Hgt];
        [|auto|discriminate].
      right. split; [assumption|]. rewrite <- Hp.
      apply (compare_cont_Eq_le_l _ _ _ eq_refl).
      destruct (Pos.compare_cont Eq m p52); cbn [CompOpp] in Hlo;
        discriminate.
    - destruct (Z.compare_spec (-52) e) as [Heq|Hlt|Hgt];
        [|discriminate|left; lia].
      right. split; [lia|]. rewrite <- Hp.
      apply (compare_cont_Eq_le_r _ _ _ eq_refl).
      destruct (Pos.compare_cont Eq p52 m); discriminate. }
  destruct Hcases as [Hlt|[-> Hm]].
  - split; [lia|].
    assert (2 ^ 53 <= 2 ^ (0 - e)) by (apply Z.pow_le_mono_r; lia). lia.
  - split; [lia|exact Hm].
Qed.

Lemma mag_le_one s : mag_le 0 (S754_finite s 4503599627370496 (-52)).
Proof.
  cbn [mag_le]. split; [lia|]. change (0 - -52) with 52.
  rewrite pow2_52. lia.
Qed.

Lemma clip_spec q :
  valid q ->
  F64.is_nan (np.clip q) = true
  \/ (valid (np.clip q) /\ mag_le 0 (np.clip q)).
Proof.
  intros Hv. unfold np.clip.
  destruct (F64.is_nan q) eqn:Hnan; [auto|].
  destruct (F64.ltb q (F64.opp F64.one)) eqn:Hlo.
  { right. split; [reflexivity|]. apply (mag_le_one true). }
  destruct (F64.ltb F64.one q) eqn:Hhi.
  { right. split; [reflexivity|]. apply (mag_le_one false). }
  right. split; [assumption|]. now apply mag_le_of_compare.
Qed.

(** On a correlation of absolute value at most 1 the [root_inv] distance
    lies in [[0, 2]]. *)
Lemma root_inv_range c :
  mag_le 0 c ->
  F64.leb F64.zero (root_inv c) = true /\ F64.leb (root_inv c) F64.two = true.
Proof.
  intros Hc. unfold root_inv.
  destruct (sub_one_spec c Hc) as (_ & Hn1 & Hb1 & _).
  destruct (mul_two_spec _ Hn1 Hb1) as (Hn2 & Hb2).
  destruct (sqrt_spec _ Hn2 Hb2) as (Hv3 & Hn3 & Hb3).
  split; [now apply leb_zero_nonneg|].
  apply (leb_pow2 _ 1); (assumption || lia).
Qed.

(** On a correlation of absolute value at most 1 the [inv_square] distance
    lies in [[0, 1]]. *)
Lemma inv_square_range c :
  mag_le 0 c ->
  F64.leb F64.zero (inv_square c) = true
  /\ F64.leb (inv_square c) F64.one = true.
Proof.
  intros Hc. unfold inv_square, np.square.
  destruct (mul_self_spec c Hc) as (Hn1 & Hb1).
  destruct (sub_one_spec _ Hb1) as (Hv2 & Hn2 & _ & Hb2).
  split; [now apply leb_zero_nonneg|].
  apply (leb_pow2 _ 0); (auto || lia).
Qed.

End Range.

(** ** The entries of the distance matrix *)

Lemma get2_ufunc f a i j : get2 (ufunc f a) i j = f <$> get2 a i j.
Proof.
  unfold get2, ufunc. cbn [shape data].
  destruct (shape a) as [|n [|m [|k sh]]]; try reflexivity.
  destruct (j <? m)%nat; [|reflexivity].
  change (map f (data a)) with (f <$> data a). apply list_lookup_fmap.
Qed.

Lemma get2_tabulate2_inv f n m i j x :
  get2 (tabulate2 n m f) i j = Some x -> x = f i j.
Proof.
  destruct (Nat.lt_ge_cases i n) as [Hi|Hi];
    destruct (Nat.lt_ge_cases j m) as [Hj|Hj];
    try (rewrite get2_tabulate2_None by lia; discriminate).
  rewrite get2_tabulate2 by assumption. congruence.
Qed.

Lemma get2_distance_matrix distance C i j :
  get2 (distance_matrix distance C) i j
  = (if String.eqb distance "root_inv" then root_inv else inv_square)
      <$> get2 C i j.
Proof.
  unfold distance_matrix. destruct (String.eqb _ _); apply get2_ufunc.
Qed.

(** An entry of the correlation matrix is not-a-number or a binary64 number
    of absolute value at most 1. *)
Lemma corrcoef_entry N L d i j c :
  get2 (np.corrcoef N L d) i j = Some c ->
  F64.is_nan c = true \/ Rounding.mag_le 0 c.
Proof.
  unfold np.corrcoef.
  destruct (shape (np.cov N L d)) as [|n [|m [|k sh]]] eqn:Hs;
    try (unfold get2, ufunc; cbn [shape]; rewrite Hs; discriminate).
  intros H. apply get2_tabulate2_inv in H. subst c.
  destruct (clip_spec (default F64.nan (get2 (np.cov N L d) i j)
                       / F64.sqrt (default F64.nan (get2 (np.cov N L d) i i))
                       / F64.sqrt (default F64.nan (get2 (np.cov N L d) j j)))%f64)
    as [Hnan|[_ Hmag]]; [apply RoundingFacts.div_valid|auto|auto].
Qed.

Lemma root_inv_one : root_inv F64.one = F64.zero.
Proof. vm_compute. reflexivity. Qed.

Lemma inv_square_one : inv_square F64.one = F64.zero.
Proof. vm_compute. reflexivity. Qed.

Lemma is_nan_eq x : F64.is_nan x = true -> x = F64.nan.
Proof. destruct x; try discriminate. reflexivity. Qed.

(** What [fit] stores under [distance_matrix]. *)
Lemma fit_stores_distance_matrix TS distance self self' G D N L :
  shape TS = [N; L] ->
  fit TS distance self = (self', inr G) ->
  results self' !! "distance_matrix"%string = Some (PyArray D) ->
  D = distance_matrix distance (np.corrcoef N L (data TS)).
Proof.
  intros Hs Hfit Hres. rewrite (fit_unpacked _ _ _ N L Hs) in Hfit.
  cbn zeta in Hfit.
  destruct (csgraph.minimum_spanning_tree _) as [e|MST]; [discriminate|].
  injection Hfit as <- _. cbn [results] in Hres.
  rewrite lookup_insert_ne in Hres by discriminate.
  rewrite lookup_insert_eq in Hres. congruence.
Qed.

(** C7, the claim fails: on [TS_skew], which has no row of zero variance,
    the distance matrix that [fit] stores has [D[0][1]] different from
    [D[1][0]] and a diagonal entry [D[0][0]] that is not zero, under
    [root_inv] and under [inv_square] alike. *)
Lemma distance_matrix_skew :
  let C := np.corrcoef 2 3 (data Examples.TS_skew) in
  let D := distance_matrix "root_inv" C in
  let D' := distance_matrix "inv_square" C in
  (exists G,
     (fit Examples.TS_skew "root_inv" Examples.fresh).2 = inr G
     /\ results (fit Examples.TS_skew "root_inv" Examples.fresh).1
          !! "distance_matrix"%string = Some (PyArray D))
  /\ get2 D 0 1 = Some (S754_finite false 6548449771046963 (-56))
  /\ get2 D 1 0 = Some (S754_finite false 6548449771046875 (-56))
  /\ get2 D 0 0 = Some (S754_finite false 6369051672525773 (-78))
  /\ (exists G,
        (fit Examples.TS_skew "inv_square" Examples.fresh).2 = inr G
        /\ results (fit Examples.TS_skew "inv_square" Examples.fresh).1
             !! "distance_matrix"%string = Some (PyArray D'))
  /\ get2 D' 0 1 = Some (S754_finite false 4751050156347008 (-59))
  /\ get2 D' 1 0 = Some (S754_finite false 4751050156346880 (-59))
  /\ get2 D' 0 0 = Some (S754_finite false 4503599627370496 (-103)).
Proof.
  cbn zeta.
  split; [eexists; split; vm_compute; reflexivity|].
  do 3 (split; [vm_compute; reflexivity|]).
  split; [eexists; split; vm_compute; reflexivity|].
  repeat split; vm_compute; reflexivity.
Qed.

(** C7, amended: every entry [D[i][j]] of the distance matrix that [fit]
    stores is the selected formula applied to [C[i][j]]; it is not-a-number
    or lies within the bound of the formula, [[0, 2]] for [root_inv] and
    [[0, 1]] otherwise; [D[j][i]] equals [D[i][j]] wherever [C[j][i]]
    equals [C[i][j]]; and [D[i][j]] is zero wherever [C[i][j]] is exactly
    1, on the diagonal in particular. *)
Theorem fit_distance_matrix_range TS distance self self' G D N L i j x :
  shape TS = [N; L] ->
  fit TS distance self = (self', inr G) ->
  results self' !! "distance_matrix"%string = Some (PyArray D) ->
  get2 D i j = Some x ->
  let C := np.corrcoef N L (data TS) in
  let formula := if String.eqb distance "root_inv" then root_inv else inv_square in
  let bound := if String.eqb distance "root_inv" then F64.two else F64.one in
  (exists c, get2 C i j = Some c /\ x = formula c)
  /\ (F64.is_nan x = true
      \/ (F64.leb F64.zero x = true /\ F64.leb x bound = true))
  /\ (get2 C j i = get2 C i j -> get2 D j i = Some x)
  /\ (get2 C i j = Some F64.one -> x = F64.zero).
Proof.
  intros Hs Hfit Hres Hx C formula bound.
  rewrite (fit_stores_distance_matrix _ _ _ _ _ _ _ _ Hs Hfit Hres) in *.
  fold C in Hx |- *. rewrite get2_distance_matrix in Hx. fold formula in Hx.
  destruct (get2 C i j) as [c|] eqn:Hc; [|discriminate].
  injection Hx as <-.
  split; [eauto|]. split; [|split].
  - destruct (corrcoef_entry _ _ _ _ _ _ Hc) as [Hnan|Hmag].
    + left. apply is_nan_eq in Hnan. subst c. unfold formula.
      now destruct (String.eqb _ _).
    + right. unfold formula, bound. destruct (String.eqb _ _).
      * now apply root_inv_range.
      * now apply inv_square_range.
  - intros Hsym. rewrite get2_distance_matrix, Hsym. reflexivity.
  - intros Hone. injection Hone as ->. unfold formula.
    destruct (String.eqb _ _); [apply root_inv_one|apply inv_square_one].
Qed.

Lemma fit_distance_matrix_range_witness :
  exists x,
    get2 (distance_matrix "root_inv" (np.corrcoef 2 3 (data Examples.TS_skew)))
      0 1 = Some x
    /\ F64.leb F64.zero x = true /\ F64.leb x F64.two = true.
Proof.
  eexists. split; [vm_compute; reflexivity|].
  destruct (fit_distance_matrix_range Examples.TS_skew "root_inv"
              Examples.fresh
              (fit Examples.TS_skew "root_inv" Examples.fresh).1
              (graph_of 2 (distance_matrix "root_inv"
                             (np.corrcoef 2 3 (data Examples.TS_skew))))
              (distance_matrix "root_inv"
                 (np.corrcoef 2 3 (data Examples.TS_skew)))
              2 3 0 1 (S754_finite false 6548449771046963 (-56)))
    as (_ & [Hnan|Hrange] & _).
  - reflexivity.
  - vm_compute. reflexivity.
  - vm_compute. reflexivity.
  - vm_compute. reflexivity.
  - discriminate Hnan.
  - exact Hrange.
Defined.

(** ** Identical rows *)


(** ** When no pair of nodes lacks an edge *)

Module SpanningFacts.

Import csgraph Kruskal ForestFacts KruskalFacts.

Lemma size_pos_of_elem (X : gset nat) x : x ∈ X -> 0 < size X.
Proof.
  intros Hx. destruct (size X) eqn:Hs; [|lia].
  apply size_empty_iff in Hs. set_solver.
Qed.

Lemma find_elem_of comp v : v < length comp -> find comp v ∈ comp.
Proof.
  intros Hv. unfold find.
  destruct (lookup_lt_is_Some_2 comp v Hv) as [c Hc]. rewrite Hc. cbn.
  eapply list_elem_of_lookup_2, Hc.
Qed.

Lemma ncomp_pos comp : 0 < length comp -> 0 < ncomp comp.
Proof.
  intros Hlen. apply (size_pos_of_elem _ (find comp 0)).
  apply elem_of_list_to_set, find_elem_of, Hlen.
Qed.

Lemma list_to_set_union comp r1 r2 :
  r1 ∈ comp -> r2 ∈ comp -> r1 <> r2 ->
  (list_to_set (union comp r1 r2) : gset nat)
  = list_to_set comp ∖ {[r2]}.
Proof.
  intros H1 H2 Hne. apply set_eq. intros x. unfold union.
  change (map ?f ?l) with (f <$> l).
  rewrite elem_of_list_to_set, list_elem_of_fmap, elem_of_difference,
    elem_of_list_to_set, elem_of_singleton.
  split.
  - intros (c & -> & Hc). destruct (Nat.eqb_spec c r2); split; auto.
  - intros [Hx Hne2]. exists x. split; [|assumption].
    destruct (Nat.eqb_spec x r2); congruence.
Qed.

Lemma ncomp_union comp r1 r2 :
  r1 ∈ comp -> r2 ∈ comp -> r1 <> r2 ->
  S (ncomp (union comp r1 r2)) = ncomp comp.
Proof.
  intros H1 H2 Hne. unfold ncomp. rewrite list_to_set_union by assumption.
  assert (Hin : r2 ∈ (list_to_set comp : gset nat))
    by apply elem_of_list_to_set, H2.
  rewrite size_difference by (apply singleton_subseteq_l, Hin).
  rewrite size_singleton. apply size_pos_of_elem in Hin. lia.
Qed.

Lemma ncomp_one_connected n comp E u v :
  components n comp E -> ncomp comp = 1 -> u < n -> v < n ->
  Forest.connected E u v.
Proof.
  intros [Hlen Hc] H1 Hu Hv. apply Hc; try assumption.
  apply (size_singleton_inv (list_to_set comp : gset nat)); try assumption;
    apply elem_of_list_to_set, find_elem_of; lia.
Qed.

Lemma connected_ncomp_one n comp E :
  components n comp E -> 1 <= n ->
  (forall u v, u < n -> v < n -> Forest.connected E u v) ->
  ncomp comp = 1.
Proof.
  intros [Hlen Hc] Hn Hall. unfold ncomp.
  assert (Heq : (list_to_set comp : gset nat) = {[find comp 0]}).
  { apply set_eq. intros x.
    rewrite elem_of_list_to_set, elem_of_singleton. split.
    - intros Hx. apply list_elem_of_lookup in Hx as [i Hi].
      assert (Hil : i < n) by (apply lookup_lt_Some in Hi; lia).
      transitivity (find comp i); [unfold find; now rewrite Hi|].
      apply Hc; try lia. apply Hall; lia.
    - intros ->. apply find_elem_of. lia. }
  rewrite Heq. apply size_singleton.
Qed.

Lemma covered_mono n ent i_sort E E' :
  E ⊆ E' -> covered n ent i_sort E -> covered n ent i_sort E'.
Proof.
  intros Hsub Hcov u v Hu Hv Hne.
  destruct (Hcov u v Hu Hv Hne) as [H|H]; [left|right; exact H].
  eapply connected_mono; eassumption.
Qed.

Lemma covered_tail n ent j rest E :
  covered n ent (j :: rest) E ->
  (forall u v w, ent !! j = Some (u, v, w) -> Forest.connected E u v) ->
  covered n ent rest E.
Proof.
  intros Hc Hj u v Hu Hv Hne.
  destruct (Hc u v Hu Hv Hne) as [H|(p & w & Hp & He)]; [auto|].
  apply elem_of_cons in Hp as [->|Hp]; [left; eapply Hj, He|].
  right. eauto.
Qed.

Lemma covered_connected n ent i_sort E :
  (forall u v, u < n -> v < n -> Forest.connected E u v) ->
  covered n ent i_sort E.
Proof. intros H u v Hu Hv _. left. auto. Qed.

(** Kruskal's loop ends with all the vertices connected, after one
    accepted entry for every component but one; the accepted entries
    are as many edges. *)
Lemma accepted_spanning n ent i_sort comp k E :
  bounded n ent -> 1 <= n -> components n comp E ->
  ncomp comp + k = n -> covered n ent i_sort E ->
  let acc := accepted n ent i_sort comp k in
  (forall u v, u < n -> v < n -> Forest.connected (keys ent acc ∪ E) u v)
  /\ S (length acc) = ncomp comp
  /\ size (keys ent acc ∪ E) = length acc + size E.
Proof.
  intros Hb Hn. revert comp k E.
  induction i_sort as [|j rest IH]; intros comp k E Hcomp Hk Hcov;
    cbn [accepted].
  { assert (Hall : forall u v, u < n -> v < n -> Forest.connected E u v).
    { intros u v Hu Hv. destruct (decide (u = v)) as [->|Hne]; [constructor|].
      destruct (Hcov u v Hu Hv Hne) as [H|(p & w & Hp & _)]; [exact H|].
      now apply elem_of_nil in Hp. }
    cbn zeta.
    replace (keys ent [] ∪ E) with E
      by (apply set_eq; intros x; unfold keys; cbn; set_solver).
    split; [exact Hall|]. split; [|reflexivity].
    cbn [length]. symmetry. eapply connected_ncomp_one; eassumption. }
  assert (Hstop : ncomp comp = 1 -> covered n ent rest E).
  { intros H1. apply covered_connected. intros u v Hu Hv.
    eapply ncomp_one_connected; eassumption. }
  destruct (Nat.ltb_spec k (n - 1)) as [Hlt|Hge].
  - destruct (ent !! j) as [[[V1 V2] w]|] eqn:Hj.
    + destruct (Hb _ _ _ _ Hj) as [H1 H2].
      destruct (Nat.eqb_spec (find comp V1) (find comp V2)) as [Heq|Hne].
      * apply IH; try assumption. apply (covered_tail _ _ j); [assumption|].
        intros u v w' Hj'. rewrite Hj in Hj'. injection Hj' as <- <- _.
        now apply Hcomp.
      * assert (Hncomp : S (ncomp (union comp (find comp V1) (find comp V2)))
                         = ncomp comp).
        { destruct Hcomp as [Hlen _].
          apply ncomp_union; [apply find_elem_of; lia|apply find_elem_of; lia
                              |assumption]. }
        assert (Hfresh : nx.edge_key V1 V2 ∉ E).
        { intros Hin. apply Hne. apply Hcomp; try assumption.
          apply rtc_once.
          destruct (edge_key_cases V1 V2) as [He|He]; rewrite He in Hin;
            [left|right]; exact Hin. }
        destruct (IH (union comp (find comp V1) (find comp V2)) (S k)
                    ({[nx.edge_key V1 V2]} ∪ E)) as (Hall & Hlen' & Hsize).
        { now apply components_union. }
        { lia. }
        { intros u v Hu Hv Huv.
          destruct (Hcov u v Hu Hv Huv) as [H|(p & w' & Hp & He)].
          - left. eapply connected_mono; [|exact H]. set_solver.
          - apply elem_of_cons in Hp as [->|Hp]; [|right; eauto].
            left. rewrite Hj in He. injection He as <- <- _.
            apply connected_add_edge. }
        cbn zeta in *. cbn [length].
        rewrite (keys_cons _ _ _ _ _ _ Hj).
        replace ({[nx.edge_key V1 V2]} ∪ keys ent (accepted n ent rest
                   (union comp (find comp V1) (find comp V2)) (S k)) ∪ E)
          with (keys ent (accepted n ent rest
                   (union comp (find comp V1) (find comp V2)) (S k))
                ∪ ({[nx.edge_key V1 V2]} ∪ E))
          by (apply set_eq; intros x; set_solver).
        split; [exact Hall|]. split; [lia|].
        rewrite Hsize, size_union, size_singleton by set_solver. lia.
    + apply IH; try assumption. apply (covered_tail _ _ j); [assumption|].
      intros u v w' Hj'. congruence.
  - apply IH; try assumption. apply Hstop.
    assert (Hpos := ncomp_pos comp). destruct Hcomp as [Hlen _]. lia.
Qed.

(** The sorted positions: each position once. *)
Lemma argsort_NoDup dat : NoDup (argsort dat).
Proof.
  unfold argsort.
  assert (H : forall l, NoDup l ->
            NoDup (foldr (insert_pos dat) [] l)
            /\ forall p, p ∈ foldr (insert_pos dat) [] l -> p ∈ l).
  { induction l as [|j l IH]; intros Hnd; cbn [foldr].
    - split; [constructor|auto].
    - apply NoDup_cons in Hnd as [Hj Hnd]. destruct (IH Hnd) as [IH1 IH2].
      split.
      + assert (Hj' : j ∉ foldr (insert_pos dat) [] l) by (intros H; auto).
        revert IH1 Hj'. generalize (foldr (insert_pos dat) [] l).
        induction l0 as [|k r IHr]; intros Hr Hjr; cbn [insert_pos].
        * apply NoDup_singleton.
        * destruct (F64.ltb _ _).
          -- apply NoDup_cons in Hr as [Hk Hr]. apply NoDup_cons. split.
             ++ rewrite elem_of_insert_pos. intros [->|Hin]; [|auto].
                apply Hjr, elem_of_cons; auto.
             ++ apply IHr; [assumption|]. intros Hin. apply Hjr.
                apply elem_of_cons; auto.
          -- apply NoDup_cons. auto.
      + intros p Hp. apply elem_of_insert_pos in Hp as [->|Hp];
          apply elem_of_cons; auto. }
  apply H, NoDup_seq.
Qed.

Lemma accepted_subseteq n ent i_sort comp k p :
  p ∈ accepted n ent i_sort comp k -> p ∈ i_sort.
Proof.
  revert comp k. induction i_sort as [|j rest IH]; intros comp k;
    cbn [accepted]; [auto|].
  intros Hp. apply elem_of_cons.
  destruct (k <? n - 1); [|right; eapply IH, Hp].
  destruct (ent !! j) as [[[V1 V2] w]|]; [|right; eapply IH, Hp].
  destruct (find comp V1 =? find comp V2); [right; eapply IH, Hp|].
  apply elem_of_cons in Hp as [->|Hp]; [auto|right; eapply IH, Hp].
Qed.

(** The loop writes at the positions it visits only. *)
Lemma mst_unvisited n ent i_sort dat comp k p :
  p ∉ i_sort -> _min_spanning_tree n ent i_sort dat comp k !! p = dat !! p.
Proof.
  revert dat comp k. induction i_sort as [|j rest IH]; intros dat comp k Hp;
    cbn [_min_spanning_tree]; [reflexivity|].
  apply not_elem_of_cons in Hp as [Hne Hp].
  assert (Hw : forall comp' k',
             _min_spanning_tree n ent rest (<[j := F64.zero]> dat) comp' k' !! p
             = dat !! p).
  { intros comp' k'. rewrite IH by assumption.
    apply list_lookup_insert_ne. congruence. }
  destruct (k <? n - 1); [|apply Hw].
  destruct (ent !! j) as [[[V1 V2] w]|]; [|now apply IH].
  destruct (find comp V1 =? find comp V2); [apply Hw|now apply IH].
Qed.

(** An accepted entry keeps its weight. *)
Lemma mst_accepted_kept n ent i_sort dat comp k p :
  NoDup i_sort -> p ∈ accepted n ent i_sort comp k ->
  _min_spanning_tree n ent i_sort dat comp k !! p = dat !! p.
Proof.
  revert dat comp k. induction i_sort as [|j rest IH]; intros dat comp k Hnd;
    cbn [_min_spanning_tree accepted]; [reflexivity|].
  apply NoDup_cons in Hnd as [Hj Hnd].
  assert (Hw : forall comp' k',
             p ∈ accepted n ent rest comp' k' ->
             _min_spanning_tree n ent rest (<[j := F64.zero]> dat) comp' k' !! p
             = dat !! p).
  { intros comp' k' Hp. rewrite IH by assumption.
    apply list_lookup_insert_ne. intros ->.
    apply Hj. eapply accepted_subseteq, Hp. }
  destruct (k <? n - 1); [|apply Hw].
  destruct (ent !! j) as [[[V1 V2] w]|]; [|now apply IH].
  destruct (find comp V1 =? find comp V2); [apply Hw|].
  intros Hp. apply elem_of_cons in Hp as [->|Hp]; [|now apply IH].
  now apply mst_unvisited.
Qed.

Lemma is_zero_is_null x : F64.is_zero x = true -> is_null x = true.
Proof. destruct x as [[]| | |]; cbn; try discriminate; intros _; reflexivity. Qed.

(** The entries of the tree are the accepted entries, when no entry of
    the graph is a stored zero. *)
Lemma accepted_mst_of_csr g p u v w :
  (forall q e, entries g !! q = Some e -> is_null e.2 = false) ->
  p ∈ accepted (csr_n g) (entries g) (argsort (map snd (entries g)))
        (seq 0 (csr_n g)) 0 ->
  entries g !! p = Some (u, v, w) ->
  (u, v, w) ∈ entries (mst_of_csr g).
Proof.
  intros Hnn Hp Hent. unfold mst_of_csr. cbn [entries].
  unfold eliminate_zeros. apply list_elem_of_In, filter_In. split.
  - apply list_elem_of_In. unfold set_data.
    apply list_elem_of_lookup. exists p.
    rewrite lookup_zip_with, Hent. cbn.
    rewrite mst_accepted_kept by (apply argsort_NoDup || assumption).
    change (map ?f ?l) with (f <$> l). rewrite list_lookup_fmap, Hent.
    reflexivity.
  - cbn. specialize (Hnn _ _ Hent). cbn in Hnn.
    destruct (F64.is_zero w) eqn:Hz; [|reflexivity].
    apply is_zero_is_null in Hz. congruence.
Qed.

End SpanningFacts.

Lemma size_seq_set n : size (list_to_set (seq 0 n) : gset nat) = n.
Proof. rewrite size_list_to_set by apply NoDup_seq. apply length_seq. Qed.

Lemma graph_of_keys n D :
  let ent := csgraph.dense_entries n D in
  dom (nx.edges (graph_of n D))
  = Kruskal.keys ent
      (Kruskal.accepted n ent (csgraph.argsort (map snd ent)) (seq 0 n) 0).
Proof.
  intros ent.
  set (g := {| csgraph.csr_n := n; csgraph.entries := ent |}).
  apply set_eq. intros key. unfold graph_of. fold ent. fold g.
  rewrite elem_of_dom_edges. unfold Kruskal.keys.
  rewrite elem_of_list_to_set, list_elem_of_omap. split.
  - intros (u & v & x & Hin & ->).
    apply KruskalFacts.mst_of_csr_entries in Hin as (p & w & Hp & Hacc).
    exists p. split; [exact Hacc|].
    unfold Kruskal.key_at. cbn in Hp. now rewrite Hp.
  - intros (p & Hacc & Hkey). unfold Kruskal.key_at in Hkey.
    destruct (ent !! p) as [[[u v] w]|] eqn:Hp; [|discriminate].
    injection Hkey as <-. exists u, v, w. split; [|reflexivity].
    apply (SpanningFacts.accepted_mst_of_csr g p); try assumption.
    intros q [[a b] x] Hq. cbn.
    apply list_elem_of_lookup_2, elem_of_dense_entries in Hq.
    tauto.
Qed.

(** The builder on a matrix without null entries off the diagonal: the
    graph has the nodes below [n], no cycle, a path between any two nodes
    and [n - 1] edges. *)
Theorem graph_of_spanning_tree n D :
  1 <= n ->
  (forall u v, u < n -> v < n -> u <> v ->
     exists w, get2 D u v = Some w /\ csgraph.is_null w = false) ->
  let G := graph_of n D in
  (forall a, a ∈ nx.nodes G <-> a < n)
  /\ Forest.acyclic (dom (nx.edges G))
  /\ (forall u v, u < n -> v < n -> Forest.connected (dom (nx.edges G)) u v)
  /\ nx.number_of_edges G = n - 1.
Proof.
  intros Hn Hfull G.
  split; [apply graph_of_nodes|]. split; [apply graph_of_acyclic|].
  set (ent := csgraph.dense_entries n D).
  assert (Hkeys : dom (nx.edges G)
                  = Kruskal.keys ent
                      (Kruskal.accepted n ent (csgraph.argsort (map snd ent))
                         (seq 0 n) 0) ∪ ∅).
  { rewrite union_empty_r_L. apply graph_of_keys. }
  destruct (SpanningFacts.accepted_spanning n ent
              (csgraph.argsort (map snd ent)) (seq 0 n) 0 ∅)
    as (Hall & Hlen & Hsize).
  - apply dense_entries_bounded.
  - exact Hn.
  - apply KruskalFacts.components_init.
  - unfold Kruskal.ncomp. rewrite size_seq_set. lia.
  - intros u v Hu Hv Hne. right.
    destruct (Hfull u v Hu Hv Hne) as (w & Hw & Hnull).
    assert (Hin : (u, v, w) ∈ ent) by (apply elem_of_dense_entries; auto).
    apply list_elem_of_lookup in Hin as [p Hp]. exists p, w.
    split; [|exact Hp].
    apply KruskalFacts.argsort_complete. rewrite length_map.
    eapply lookup_lt_Some, Hp.
  - cbn zeta in *. rewrite <- Hkeys in *. split; [exact Hall|].
    unfold nx.number_of_edges. rewrite <- size_dom, Hsize, size_empty.
    unfold Kruskal.ncomp in Hlen. rewrite size_seq_set in Hlen. lia.
Qed.

(** ** The tree is a lightest one *)

Module OrderFacts.

Import csgraph Kruskal ForestFacts KruskalFacts SpanningFacts.

Ltac order_cases :=
  unfold F64.ltb, SFltb, SFcompare;
  repeat match goal with
    | |- context [Z.compare ?a ?b] => destruct (Z.compare_spec a b)
    | |- context [Pos.compare_cont Eq ?a ?b] =>
        change (Pos.compare_cont Eq a b) with (Pos.compare a b);
        destruct (Pos.compare_spec a b)
    end;
  cbn; intros; try reflexivity; try discriminate; try lia.

Lemma ltb_irrefl x : F64.ltb x x = false.
Proof.
  destruct x as [s|s| |s m e]; try (destruct s; reflexivity); try reflexivity.
  unfold F64.ltb, SFltb, SFcompare.
  destruct s; rewrite Z.compare_refl, Pos.compare_cont_refl; reflexivity.
Qed.

Lemma ltb_asym a b :
  finite a -> finite b -> F64.ltb a b = true -> F64.ltb b a = false.
Proof.
  intros (s1 & m1 & e1 & ->) (s2 & m2 & e2 & ->).
  destruct s1, s2; order_cases.
Qed.

Lemma ltb_negtrans a b c :
  finite a -> finite b -> finite c ->
  F64.ltb a b = false -> F64.ltb b c = false -> F64.ltb a c = false.
Proof.
  intros (s1 & m1 & e1 & ->) (s2 & m2 & e2 & ->) (s3 & m3 & e3 & ->).
  destruct s1, s2, s3; order_cases.
Qed.

Lemma is_null_finite x : is_null x = false -> finite x.
Proof.
  destruct x as [s|s| |s m e].
  - destruct s; vm_compute; discriminate.
  - destruct s; vm_compute; discriminate.
  - vm_compute; discriminate.
  - intros _. now exists s, m, e.
Qed.

Lemma insert_pos_sorted dat j l :
  (forall p, p ∈ j :: l -> finite (weight dat p)) ->
  StronglySorted (not_below dat) l ->
  StronglySorted (not_below dat) (insert_pos dat j l).
Proof.
  induction l as [|k l IH]; intros Hfin Hs; cbn [insert_pos].
  { constructor; constructor. }
  apply StronglySorted_inv in Hs as [Hs Hk].
  assert (Hfj : finite (weight dat j)) by (apply Hfin, elem_of_cons; auto).
  assert (Hfk : finite (weight dat k))
    by (apply Hfin, elem_of_cons; right; apply elem_of_cons; auto).
  fold (weight dat k). fold (weight dat j).
  destruct (F64.ltb (weight dat k) (weight dat j)) eqn:Hlt.
  - constructor.
    + apply IH; [|assumption]. intros p Hp. apply Hfin.
      apply elem_of_cons in Hp as [->|Hp]; [apply elem_of_cons; auto|].
      apply elem_of_cons; right. apply elem_of_cons; auto.
    + apply Forall_forall. intros p Hp.
      apply elem_of_insert_pos in Hp as [->|Hp].
      * unfold not_below. now apply ltb_asym.
      * rewrite Forall_forall in Hk. auto.
  - constructor; [constructor; assumption|].
    apply Forall_forall. intros p Hp.
    apply elem_of_cons in Hp as [->|Hp]; [exact Hlt|].
    rewrite Forall_forall in Hk. specialize (Hk p Hp).
    unfold not_below in *.
    apply (ltb_negtrans _ (weight dat k)); try assumption.
    apply Hfin. apply elem_of_cons; right. apply elem_of_cons; auto.
Qed.

(** [argsort] sorts. *)
Lemma argsort_sorted dat :
  Forall finite dat -> StronglySorted (not_below dat) (argsort dat).
Proof.
  intros Hfin. unfold argsort.
  assert (H : forall l, (forall p, p ∈ l -> p < length dat) ->
            StronglySorted (not_below dat) (foldr (insert_pos dat) [] l)
            /\ forall p, p ∈ foldr (insert_pos dat) [] l -> p ∈ l).
  { induction l as [|j l IH]; intros Hl; cbn [foldr].
    - split; [constructor|auto].
    - destruct IH as [IH1 IH2].
      { intros p Hp. apply Hl, elem_of_cons; auto. }
      split.
      + apply insert_pos_sorted; [|assumption].
        intros p Hp. unfold weight.
        assert (Hlt : p < length dat).
        { apply Hl. apply elem_of_cons in Hp as [->|Hp];
            apply elem_of_cons; auto. }
        destruct (lookup_lt_is_Some_2 dat p Hlt) as [x Hx]. rewrite Hx. cbn.
        rewrite Forall_forall in Hfin. eapply Hfin, list_elem_of_lookup_2, Hx.
      + intros p Hp. apply elem_of_insert_pos in Hp as [->|Hp];
          apply elem_of_cons; auto. }
  apply H. intros p Hp. apply elem_of_seq in Hp. lia.
Qed.

Lemma elem_of_keys ent ps key :
  key ∈ keys ent ps <-> exists p, p ∈ ps /\ key_at ent p = Some key.
Proof. unfold keys. now rewrite elem_of_list_to_set, list_elem_of_omap. Qed.

Lemma keys_snoc (ent : list (nat * nat * F64.t)) acc j u v w :
  ent !! j = Some (u, v, w) ->
  keys ent (acc ++ [j]) = {[nx.edge_key u v]} ∪ keys ent acc.
Proof.
  intros Hj. apply set_eq. intros key.
  rewrite elem_of_union, elem_of_singleton, !elem_of_keys. split.
  - intros (p & Hp & Hk). apply elem_of_app in Hp as [Hp|Hp]; [right; eauto|].
    apply list_elem_of_singleton in Hp as ->. left.
    unfold key_at in Hk. rewrite Hj in Hk. congruence.
  - intros [->|(p & Hp & Hk)].
    + exists j. split; [apply elem_of_app; right; apply elem_of_cons; auto|].
      unfold key_at. now rewrite Hj.
    + exists p. split; [apply elem_of_app; auto|assumption].
Qed.

Lemma weight_entry (ent : list (nat * nat * F64.t)) p u v w :
  ent !! p = Some (u, v, w) -> weight (map snd ent) p = w.
Proof.
  intros Hp. unfold weight. change (map ?f ?l) with (f <$> l).
  now rewrite list_lookup_fmap, Hp.
Qed.

(** Kruskal's loop over sorted positions: the end points of every
    visited entry end up connected by accepted entries that weigh no
    more than the entry. *)
Lemma accepted_light n ent i_sort comp k acc0 :
  let dat := map snd ent in
  bounded n ent -> 1 <= n ->
  StronglySorted (not_below dat) i_sort ->
  components n comp (keys ent acc0) ->
  ncomp comp + k = n ->
  (forall q p, q ∈ acc0 -> p ∈ i_sort -> not_below dat q p) ->
  forall p u v w, p ∈ i_sort -> ent !! p = Some (u, v, w) ->
    Forest.connected
      (keys ent (filter (fun q => F64.ltb w (weight dat q) = false)
                   (acc0 ++ accepted n ent i_sort comp k))) u v.
Proof.
  intros dat Hb Hn. revert comp k acc0.
  induction i_sort as [|j rest IH]; intros comp k acc0 Hs Hcomp Hk Hpre
    p u v w Hp Hent; [now apply elem_of_nil in Hp|].
  apply StronglySorted_inv in Hs as [Hs Hj].
  rewrite Forall_forall in Hj.
  assert (Hold : forall acc,
             p = j -> Forest.connected (keys ent acc0) u v ->
             Forest.connected
               (keys ent (filter (fun q => F64.ltb w (weight dat q) = false)
                            (acc0 ++ acc))) u v).
  { intros acc -> Hconn. eapply connected_mono; [|exact Hconn].
    intros key Hkey. apply elem_of_keys in Hkey as (q & Hq & Hkq).
    apply elem_of_keys. exists q. split; [|assumption].
    apply list_elem_of_filter. split; [|apply elem_of_app; auto].
    assert (Hjin : j ∈ j :: rest) by (apply elem_of_cons; auto).
    specialize (Hpre q j Hq Hjin). unfold not_below, dat in Hpre.
    now rewrite (weight_entry _ _ _ _ _ Hent) in Hpre. }
  assert (Htail : forall comp' k',
             components n comp' (keys ent acc0) -> ncomp comp' + k' = n ->
             p ∈ rest ->
             Forest.connected
               (keys ent (filter (fun q => F64.ltb w (weight dat q) = false)
                            (acc0 ++ accepted n ent rest comp' k'))) u v).
  { intros comp' k' Hc' Hk' Hin. apply (IH comp' k' acc0 Hs Hc' Hk') with (p := p); auto.
    intros q p' Hq Hp'. apply Hpre; [assumption|apply elem_of_cons; auto]. }
  assert (Hone : ncomp comp = 1 -> p = j ->
                 Forest.connected (keys ent acc0) u v).
  { intros H1 ->. destruct (Hb _ _ _ _ Hent).
    eapply ncomp_one_connected; eassumption. }
  apply elem_of_cons in Hp.
  cbn [accepted].
  destruct (Nat.ltb_spec k (n - 1)) as [Hlt|Hge].
  - destruct (ent !! j) as [[[V1 V2] wj]|] eqn:Hej.
    + destruct (Hb _ _ _ _ Hej) as [H1 H2].
      destruct (Nat.eqb_spec (find comp V1) (find comp V2)) as [Heq|Hne].
      * destruct Hp as [Hpj|Hin]; [|now apply Htail].
        apply Hold; [assumption|]. subst p. rewrite Hej in Hent.
        injection Hent as <- <- <-. now apply Hcomp.
      * destruct Hp as [Hpj|Hin].
        { subst p. rewrite Hej in Hent. injection Hent as <- <- <-.
          apply rtc_once.
          assert (Hin : nx.edge_key V1 V2
                        ∈ keys ent (filter (fun q => F64.ltb wj (weight dat q) = false)
                                      (acc0 ++ j :: accepted n ent rest
                                         (union comp (find comp V1) (find comp V2))
                                         (S k)))).
          { apply elem_of_keys. exists j. split.
            - apply list_elem_of_filter. split.
              + unfold dat. rewrite (weight_entry _ _ _ _ _ Hej).
                apply ltb_irrefl.
              + apply elem_of_app; right. apply elem_of_cons; auto.
            - unfold key_at. now rewrite Hej. }
          destruct (edge_key_cases V1 V2) as [He|He]; rewrite He in Hin;
            [left|right]; exact Hin. }
        rewrite (cons_middle j), app_assoc.
        apply (IH (union comp (find comp V1) (find comp V2)) (S k)
                 (acc0 ++ [j])) with (p := p); try assumption.
        -- rewrite (keys_snoc _ _ _ _ _ _ Hej). now apply components_union.
        -- destruct Hcomp as [Hlen _].
           assert (Hncomp : S (ncomp (union comp (find comp V1) (find comp V2)))
                            = ncomp comp)
             by (apply ncomp_union;
                 [apply find_elem_of; lia|apply find_elem_of; lia|assumption]).
           lia.
        -- intros q p' Hq Hp'. apply elem_of_app in Hq as [Hq|Hq].
           ++ apply Hpre; [assumption|apply elem_of_cons; auto].
           ++ apply list_elem_of_singleton in Hq as ->. now apply Hj.
    + destruct Hp as [Hpj|Hin]; [subst p; congruence|now apply Htail].
  - destruct Hp as [Hpj|Hin]; [|now apply Htail].
    apply Hold; [assumption|]. apply Hone; [|assumption].
    assert (Hpos := ncomp_pos comp). destruct Hcomp as [Hlen _]. lia.
Qed.

Lemma omap_key_cons (ent : list (nat * nat * F64.t)) j ps u v w :
  ent !! j = Some (u, v, w) ->
  omap (key_at ent) (j :: ps) = nx.edge_key u v :: omap (key_at ent) ps.
Proof. intros H. unfold key_at. cbn. now rewrite H. Qed.

(** The accepted entries have pairwise distinct end points, none of
    them an edge before. *)
Lemma accepted_keys_NoDup n ent i_sort comp k E :
  bounded n ent -> components n comp E ->
  NoDup (omap (key_at ent) (accepted n ent i_sort comp k))
  /\ forall key, key ∈ keys ent (accepted n ent i_sort comp k) -> key ∉ E.
Proof.
  intros Hb. revert comp k E.
  induction i_sort as [|j rest IH]; intros comp k E Hcomp; cbn [accepted].
  { split; [constructor|]. unfold keys. cbn. set_solver. }
  destruct (k <? n - 1); [|now apply IH].
  destruct (ent !! j) as [[[V1 V2] w]|] eqn:Hj; [|now apply IH].
  destruct (Hb _ _ _ _ Hj) as [H1 H2].
  destruct (Nat.eqb_spec (find comp V1) (find comp V2)) as [Heq|Hne];
    [now apply IH|].
  destruct (IH (union comp (find comp V1) (find comp V2)) (S k)
              ({[nx.edge_key V1 V2]} ∪ E)) as [Hnd Hfresh].
  { now apply components_union. }
  split.
  - rewrite (omap_key_cons _ _ _ _ _ _ Hj). apply NoDup_cons. split; [|exact Hnd].
    intros Hin. apply (Hfresh (nx.edge_key V1 V2)); [|set_solver].
    unfold keys. now apply elem_of_list_to_set.
  - intros key. rewrite (keys_cons _ _ _ _ _ _ Hj), elem_of_union, elem_of_singleton.
    intros [->|Hkey].
    + intros Hin. apply Hne. apply Hcomp; try assumption.
      apply rtc_once.
      destruct (edge_key_cases V1 V2) as [He|He]; rewrite He in Hin;
        [left|right]; exact Hin.
    + intros Hin. apply (Hfresh key Hkey). set_solver.
Qed.

Lemma NoDup_omap_inj {A B} (f : A -> option B) l p q y :
  NoDup (omap f l) -> p ∈ l -> q ∈ l -> f p = Some y -> f q = Some y -> p = q.
Proof.
  induction l as [|a l IH]; intros Hnd Hp Hq Hfp Hfq;
    [now apply elem_of_nil in Hp|].
  cbn in Hnd.
  apply elem_of_cons in Hp as [->|Hp]; apply elem_of_cons in Hq as [->|Hq];
    try reflexivity.
  - rewrite Hfp in Hnd. apply NoDup_cons in Hnd as [Hy _].
    exfalso. apply Hy, list_elem_of_omap. eauto.
  - rewrite Hfq in Hnd. apply NoDup_cons in Hnd as [Hy _].
    exfalso. apply Hy, list_elem_of_omap. eauto.
  - apply IH; try assumption.
    destruct (f a); [now apply NoDup_cons in Hnd as [_ Hnd]|assumption].
Qed.

(** The entries of the sparse tree, with their weights. *)
Lemma mst_of_csr_weights g u v x :
  (u, v, x) ∈ entries (mst_of_csr g) ->
  exists p, entries g !! p = Some (u, v, x)
    /\ p ∈ accepted (csr_n g) (entries g) (argsort (map snd (entries g)))
             (seq 0 (csr_n g)) 0.
Proof.
  intros H. pose proof H as H'.
  apply mst_of_csr_entries in H' as (p' & w' & _ & _).
  unfold mst_of_csr in H; cbn [entries] in H.
  apply elem_of_mst_entries in H as (p & w & He & Hd & Hz).
  assert (Hacc : p ∈ accepted (csr_n g) (entries g)
                       (argsort (map snd (entries g))) (seq 0 (csr_n g)) 0).
  { eapply mst_survivor_accepted; [| |exact Hd|exact Hz].
    - now rewrite length_map.
    - apply argsort_complete. rewrite length_map.
      now apply lookup_lt_Some in He. }
  exists p. split; [|exact Hacc].
  rewrite mst_accepted_kept in Hd by (apply argsort_NoDup || exact Hacc).
  change (map ?f ?l) with (f <$> l) in Hd.
  rewrite list_lookup_fmap, He in Hd. cbn in Hd. congruence.
Qed.

(** The weight that the graph keeps for an edge, when the entries with
    these end points all have one weight. *)
Lemma lookup_fold_edges es G0 u v x :
  (u, v, x) ∈ es ->
  (forall u' v' x', (u', v', x') ∈ es ->
     nx.edge_key u' v' = nx.edge_key u v -> x' = x) ->
  nx.edges (fold_left (fun G e => nx.add_weighted_edge e G) es G0)
    !! nx.edge_key u v = Some x.
Proof.
  induction es as [|[[a b] y] es IH] using rev_ind; intros Hin Huniq;
    [now apply elem_of_nil in Hin|].
  rewrite fold_left_app. cbn [fold_left nx.add_weighted_edge nx.edges].
  destruct (decide (nx.edge_key a b = nx.edge_key u v)) as [Heq|Hne].
  - rewrite Heq, lookup_insert_eq. f_equal. apply (Huniq a b y); [|assumption].
    apply elem_of_app; right. apply elem_of_cons; auto.
  - rewrite lookup_insert_ne by assumption. apply IH.
    + apply elem_of_app in Hin as [Hin|Hin]; [assumption|].
      apply list_elem_of_singleton in Hin. injection Hin as -> -> ->.
      contradiction.
    + intros u' v' x' Hin'. apply Huniq. apply elem_of_app; auto.
Qed.

End OrderFacts.

Lemma graph_of_edge_weight n D p u v x :
  let ent := csgraph.dense_entries n D in
  p ∈ Kruskal.accepted n ent (csgraph.argsort (map snd ent)) (seq 0 n) 0 ->
  ent !! p = Some (u, v, x) ->
  nx.edges (graph_of n D) !! nx.edge_key u v = Some x.
Proof.
  intros ent Hacc Hp.
  set (g := {| csgraph.csr_n := n; csgraph.entries := ent |}).
  unfold graph_of. fold ent. fold g. unfold nx.from_scipy_sparse_matrix.
  apply OrderFacts.lookup_fold_edges.
  - apply (SpanningFacts.accepted_mst_of_csr g p); try assumption.
    intros q [[a b] y] Hq. cbn.
    apply list_elem_of_lookup_2, elem_of_dense_entries in Hq. tauto.
  - intros u' v' x' Hin Hkey.
    apply OrderFacts.mst_of_csr_weights in Hin as (q & Hq & Hqacc).
    cbn [csgraph.entries csgraph.csr_n g] in Hq, Hqacc.
    destruct (OrderFacts.accepted_keys_NoDup n ent
                (csgraph.argsort (map snd ent)) (seq 0 n) 0 ∅
                (dense_entries_bounded n D)
                (KruskalFacts.components_init n)) as [Hnd _].
    assert (q = p).
    { apply (OrderFacts.NoDup_omap_inj (Kruskal.key_at ent) _ q p
               (nx.edge_key u v) Hnd); try assumption.
      - unfold Kruskal.key_at. rewrite Hq. now f_equal.
      - unfold Kruskal.key_at. now rewrite Hp. }
    subst q. congruence.
Qed.

(** The builder returns a lightest spanning forest of the entries that
    are not null: the end points of every such entry of [D] are connected
    in the graph by edges that weigh no more than the entry. *)
Theorem graph_of_lightest n D u v w :
  1 <= n -> u < n -> v < n ->
  get2 D u v = Some w -> csgraph.is_null w = false ->
  Forest.connected (Kruskal.lighter (graph_of n D) w) u v.
Proof.
  intros Hn Hu Hv Hw Hnull.
  set (ent := csgraph.dense_entries n D).
  assert (Hin : (u, v, w) ∈ ent) by (apply elem_of_dense_entries; auto).
  apply list_elem_of_lookup in Hin as [p Hp].
  assert (Hfin : Forall Kruskal.finite (map snd ent)).
  { apply Forall_forall. intros x Hx.
    change (map ?f ?l) with (f <$> l) in Hx.
    apply list_elem_of_fmap in Hx as ([[a b] y] & -> & Hy).
    apply elem_of_dense_entries in Hy. apply OrderFacts.is_null_finite. tauto. }
  pose proof (OrderFacts.accepted_light n ent (csgraph.argsort (map snd ent))
                (seq 0 n) 0 [] (dense_entries_bounded n D) Hn
                (OrderFacts.argsort_sorted _ Hfin)) as Hlight.
  cbn zeta in Hlight.
  eapply ForestFacts.connected_mono; [|apply (Hlight
    ltac:(replace (Kruskal.keys ent []) with (∅ : gset (nat * nat))
            by reflexivity; apply KruskalFacts.components_init)
    ltac:(unfold Kruskal.ncomp; rewrite size_seq_set; lia)
    ltac:(intros q p' Hq; now apply elem_of_nil in Hq)
    p u v w
    ltac:(apply KruskalFacts.argsort_complete; rewrite length_map;
          eapply lookup_lt_Some, Hp)
    Hp)].
  intros key Hkey. apply OrderFacts.elem_of_keys in Hkey as (q & Hq & Hkq).
  cbn [app] in Hq. apply list_elem_of_filter in Hq as [Hle Hq].
  unfold Kruskal.key_at in Hkq.
  destruct (ent !! q) as [[[a b] y]|] eqn:Heq; [|discriminate].
  injection Hkq as <-.
  rewrite (OrderFacts.weight_entry _ _ _ _ _ Heq) in Hle.
  unfold Kruskal.lighter. apply elem_of_dom. exists y.
  apply map_lookup_filter_Some. split; [|exact Hle].
  now apply (graph_of_edge_weight n D q).
Qed.

(** * Further properties of [fit] *)

(** ** The shape of the returned graph *)

Lemma length_omap_le {A B} (f : A -> option B) (l : list A) :
  length (omap f l) <= length l.
Proof.
  induction l as [|a l IH]; cbn; [lia|]. destruct (f a); cbn; lia.
Qed.

(** Kruskal's loop stops accepting at [n - 1] entries. *)
Lemma accepted_length n ent i_sort comp k :
  k <= n - 1 -> length (Kruskal.accepted n ent i_sort comp k) + k <= n - 1.
Proof.
  revert comp k. induction i_sort as [|j rest IH]; intros comp k Hk;
    cbn [Kruskal.accepted]; [cbn; lia|].
  destruct (Nat.ltb_spec k (n - 1)) as [Hlt|Hge]; [|now apply IH].
  destruct (ent !! j) as [[[V1 V2] w]|]; [|now apply IH].
  destruct (csgraph.find comp V1 =? csgraph.find comp V2); [now apply IH|].
  cbn [length]. specialize (IH (csgraph.union comp (csgraph.find comp V1)
                                  (csgraph.find comp V2)) (S k)). lia.
Qed.

Lemma graph_of_number_of_edges n D :
  nx.number_of_edges (graph_of n D) <= n - 1.
Proof.
  unfold nx.number_of_edges. rewrite <- size_dom, graph_of_keys.
  set (ent := csgraph.dense_entries n D).
  destruct (OrderFacts.accepted_keys_NoDup n ent
              (csgraph.argsort (map snd ent)) (seq 0 n) 0 ∅
              (dense_entries_bounded n D)
              (KruskalFacts.components_init n)) as [Hnd _].
  unfold Kruskal.keys. rewrite size_list_to_set by exact Hnd.
  pose proof (length_omap_le (Kruskal.key_at ent)
                (Kruskal.accepted n ent (csgraph.argsort (map snd ent))
                   (seq 0 n) 0)).
  pose proof (accepted_length n ent (csgraph.argsort (map snd ent))
                (seq 0 n) 0).
  lia.
Qed.

(** An edge is stored under its end points in increasing order, and they
    differ. *)
Lemma graph_of_edge_key n D a b :
  (a, b) ∈ dom (nx.edges (graph_of n D)) -> a < b /\ b < n.
Proof.
  intros Hin.
  assert (Hne : a <> b).
  { intros ->. apply (graph_of_acyclic n D b b Hin). constructor. }
  rewrite graph_of_keys in Hin.
  apply OrderFacts.elem_of_keys in Hin as (p & _ & Hkey).
  unfold Kruskal.key_at in Hkey.
  destruct (csgraph.dense_entries n D !! p) as [[[u v] w]|] eqn:Hp;
    [|discriminate].
  destruct (dense_entries_bounded n D _ _ _ _ Hp).
  unfold nx.edge_key in Hkey. injection Hkey as <- <-. lia.
Qed.

(** The weight of an edge is an entry of [D] between its end points that
    is no null edge. *)
Lemma graph_of_lookup n D a b w :
  nx.edges (graph_of n D) !! (a, b) = Some w ->
  csgraph.is_null w = false
  /\ (get2 D a b = Some w \/ get2 D b a = Some w).
Proof.
  intros Hw.
  assert (Hin : (a, b) ∈ dom (nx.edges (graph_of n D)))
    by (apply elem_of_dom; eauto).
  rewrite graph_of_keys in Hin.
  apply OrderFacts.elem_of_keys in Hin as (p & Hacc & Hkey).
  unfold Kruskal.key_at in Hkey.
  destruct (csgraph.dense_entries n D !! p) as [[[u v] x]|] eqn:Hp;
    [|discriminate].
  assert (Hk : nx.edge_key u v = (a, b)) by congruence. clear Hkey.
  pose proof (graph_of_edge_weight n D p u v x Hacc Hp) as Hx.
  rewrite Hk, Hw in Hx. injection Hx as ->.
  apply list_elem_of_lookup_2, elem_of_dense_entries in Hp
    as (_ & _ & Hg & Hnull).
  split; [assumption|].
  destruct (ForestFacts.edge_key_cases u v) as [He|He]; rewrite He in Hk;
    injection Hk as <- <-; auto.
Qed.

Lemma lighter_subseteq G w : Kruskal.lighter G w ⊆ dom (nx.edges G).
Proof.
  intros key Hkey. unfold Kruskal.lighter in Hkey.
  apply elem_of_dom in Hkey as [x Hx].
  apply map_lookup_filter_Some in Hx as [Hx _]. apply elem_of_dom. eauto.
Qed.

(** The graph connects what the usable entries connect, and no more. *)
Lemma graph_of_connected n D u v :
  1 <= n -> u < n -> v < n ->
  Forest.connected (dom (nx.edges (graph_of n D))) u v
  <-> rtc (usable n D) u v.
Proof.
  intros Hn Hu Hv. split.
  - intros Hconn. clear Hu Hv.
    induction Hconn as [|a b c Hab _ IH]; [constructor|].
    eapply rtc_l; [|exact IH].
    apply adjacent_has_edge in Hab. now apply graph_of_edge in Hab.
  - intros Hconn. clear Hu Hv.
    induction Hconn as [|a b c Hab _ IH]; [constructor|].
    eapply ForestFacts.connected_trans; [|exact IH].
    destruct Hab as (Ha & Hb & [(w & Hw & Hnull)|(w & Hw & Hnull)]).
    + eapply ForestFacts.connected_mono; [apply lighter_subseteq|].
      now apply (graph_of_lightest n D a b w).
    + apply ForestFacts.connected_sym.
      eapply ForestFacts.connected_mono; [apply lighter_subseteq|].
      now apply (graph_of_lightest n D b a w).
Qed.

(** A distance that is no null edge and is not negative is above the
    tolerance. *)
Lemma not_null_above_atol w :
  csgraph.is_null w = false -> F64.leb F64.zero w = true ->
  F64.ltb csgraph.atol w = true.
Proof.
  intros Hnull Hpos.
  destruct (OrderFacts.is_null_finite w Hnull) as (s & m & e & ->).
  unfold csgraph.is_null in Hnull.
  apply orb_false_elim in Hnull as [_ Hle].
  assert (Hatol : exists ma ea, csgraph.atol = S754_finite false ma ea)
    by (vm_compute; eauto).
  destruct Hatol as (ma & ea & Hatol). rewrite Hatol in *.
  destruct s; [discriminate|].
  revert Hle. unfold F64.abs, SFabs, F64.leb, SFleb. OrderFacts.order_cases.
Qed.

Lemma fit_inr TS distance self self' G N L :
  shape TS = [N; L] -> 2 <= N ->
  fit TS distance self = (self', inr G) ->
  G = graph_of N (distance_matrix distance (np.corrcoef N L (data TS))).
Proof.
  intros Hs HN Hfit. rewrite (fit_returns _ _ _ _ _ Hs HN) in Hfit. congruence.
Qed.

(** X1: on a two-dimensional [TS] with at least two rows [fit] returns, and
    the graph it returns has the nodes [0 .. N-1], at most [N - 1] edges and
    no cycle; an edge is stored once, under its two distinct end points in
    increasing order, so that there is neither a loop nor a parallel
    edge. *)
Theorem fit_returns_forest TS distance self N L :
  shape TS = [N; L] -> 2 <= N ->
  exists self' G,
    fit TS distance self = (self', inr G)
    /\ (forall a, a ∈ nx.nodes G <-> a < N)
    /\ nx.number_of_edges G <= N - 1
    /\ Forest.acyclic (dom (nx.edges G))
    /\ (forall a b, (a, b) ∈ dom (nx.edges G) -> a < b /\ b < N).
Proof.
  intros Hs HN. eexists _, _. split; [apply (fit_returns _ _ _ _ _ Hs HN)|].
  split; [apply graph_of_nodes|]. split; [apply graph_of_number_of_edges|].
  split; [apply graph_of_acyclic|]. apply graph_of_edge_key.
Qed.

Lemma fit_returns_forest_witness :
  exists G,
    (fit MoreExamples.TS_three "root_inv" Examples.fresh).2 = inr G
    /\ 2 ∈ nx.nodes G /\ nx.number_of_edges G <= 2
    /\ Forest.acyclic (dom (nx.edges G)).
Proof.
  destruct (fit_returns_forest MoreExamples.TS_three "root_inv"
              Examples.fresh 3 3)
    as (self' & G & Hfit & Hnodes & Hcount & Hforest & _).
  - reflexivity.
  - lia.
  - exists G. rewrite Hfit. repeat split; try assumption.
    apply Hnodes. lia.
Defined.

(** X2: the weight of every edge of the returned graph is the entry of the
    distance matrix between its end points, one way or the other; it is
    greater than SciPy's tolerance [1e-8] and at most the bound of the
    formula, [2] for [root_inv] and [1] otherwise. *)
Theorem fit_edge_weight TS distance self self' G N L a b w :
  shape TS = [N; L] -> 2 <= N ->
  fit TS distance self = (self', inr G) ->
  nx.edges G !! (a, b) = Some w ->
  let D := distance_matrix distance (np.corrcoef N L (data TS)) in
  let bound := if String.eqb distance "root_inv" then F64.two else F64.one in
  (get2 D a b = Some w \/ get2 D b a = Some w)
  /\ F64.ltb csgraph.atol w = true
  /\ F64.leb w bound = true.
Proof.
  intros Hs HN Hfit Hw D bound.
  rewrite (fit_inr _ _ _ _ _ _ _ Hs HN Hfit) in Hw. fold D in Hw.
  apply graph_of_lookup in Hw as [Hnull Hget].
  split; [exact Hget|].
  assert (Hrange : forall i j, get2 D i j = Some w ->
             F64.leb F64.zero w = true /\ F64.leb w bound = true).
  { intros i j Hij. unfold D in Hij. rewrite get2_distance_matrix in Hij.
    destruct (get2 (np.corrcoef N L (data TS)) i j) as [c|] eqn:Hc;
      [|discriminate].
    injection Hij as Hij.
    destruct (corrcoef_entry _ _ _ _ _ _ Hc) as [Hnan|Hmag].
    - apply is_nan_eq in Hnan. subst c.
      assert (Hnan : w = F64.nan) by (now destruct (String.eqb _ _)).
      rewrite Hnan, is_null_nan in Hnull. discriminate.
    - subst w. unfold bound. destruct (String.eqb _ _).
      + now apply root_inv_range.
      + now apply inv_square_range. }
  assert (Hr : F64.leb F64.zero w = true /\ F64.leb w bound = true)
    by (destruct Hget as [H|H]; eapply Hrange, H).
  destruct Hr as [Hpos Hle]. split; [|exact Hle].
  now apply not_null_above_atol.
Qed.

Lemma fit_edge_weight_witness :
  exists w,
    nx.edges (graph_of 3 (distance_matrix "root_inv"
                            (np.corrcoef 3 3 (data MoreExamples.TS_three))))
      !! (0, 1) = Some w
    /\ F64.ltb csgraph.atol w = true /\ F64.leb w F64.two = true.
Proof.
  assert (Hl : exists w,
             nx.edges (graph_of 3 (distance_matrix "root_inv"
                         (np.corrcoef 3 3 (data MoreExamples.TS_three))))
               !! (0, 1) = Some w)
    by (eexists; vm_compute; reflexivity).
  destruct Hl as [w Hl]. exists w. split; [exact Hl|].
  destruct (fit_edge_weight MoreExamples.TS_three "root_inv" Examples.fresh
              (fit MoreExamples.TS_three "root_inv" Examples.fresh).1
              (graph_of 3 (distance_matrix "root_inv"
                             (np.corrcoef 3 3 (data MoreExamples.TS_three))))
              3 3 0 1 w)
    as (_ & Hlow & Hhigh).
  - reflexivity.
  - lia.
  - vm_compute. reflexivity.
  - exact Hl.
  - split; [exact Hlow|exact Hhigh].
Defined.

(** X3: when no two distinct sensors have a null entry of the distance
    matrix between them (zero within [1e-8], infinite or not-a-number), the
    returned graph is a spanning tree: it has [N - 1] edges and a path
    between any two of its [N] nodes. *)
Theorem fit_spanning_tree TS distance self N L :
  shape TS = [N; L] -> 2 <= N ->
  let D := distance_matrix distance (np.corrcoef N L (data TS)) in
  (forall u v, u < N -> v < N -> u <> v ->
     exists w, get2 D u v = Some w /\ csgraph.is_null w = false) ->
  exists self' G,
    fit TS distance self = (self', inr G)
    /\ nx.number_of_edges G = N - 1
    /\ (forall u v, u < N -> v < N ->
          Forest.connected (dom (nx.edges G)) u v).
Proof.
  intros Hs HN D Hfull. eexists _, _.
  split; [apply (fit_returns _ _ _ _ _ Hs HN)|]. fold D.
  destruct (graph_of_spanning_tree N D ltac:(lia) Hfull)
    as (_ & _ & Hconn & Hcount).
  split; assumption.
Qed.

Lemma fit_spanning_tree_witness :
  exists G,
    (fit MoreExamples.TS_three "root_inv" Examples.fresh).2 = inr G
    /\ nx.number_of_edges G = 2
    /\ Forest.connected (dom (nx.edges G)) 1 2.
Proof.
  destruct (fit_spanning_tree MoreExamples.TS_three "root_inv"
              Examples.fresh 3 3)
    as (self' & G & Hfit & Hcount & Hconn).
  - reflexivity.
  - lia.
  - intros u v Hu Hv Hne.
    destruct u as [|[|[|u]]]; [| | |exfalso; lia];
      (destruct v as [|[|[|v]]]; [| | |exfalso; lia]);
      try (exfalso; apply Hne; reflexivity);
      eexists; (split; [vm_compute; reflexivity|vm_compute; reflexivity]).
  - exists G. rewrite Hfit. repeat split; try assumption.
    apply Hconn; lia.
Defined.

(** X4: the returned graph is a lightest spanning forest of the usable
    entries: whenever the distance matrix has an entry [w] between two
    sensors that is no null edge, the graph connects the two by edges none
    of which weighs more than [w]. *)
Theorem fit_lightest TS distance self self' G N L u v w :
  shape TS = [N; L] -> 2 <= N ->
  fit TS distance self = (self', inr G) ->
  let D := distance_matrix distance (np.corrcoef N L (data TS)) in
  u < N -> v < N ->
  get2 D u v = Some w -> csgraph.is_null w = false ->
  Forest.connected (Kruskal.lighter G w) u v.
Proof.
  intros Hs HN Hfit D Hu Hv Hw Hnull.
  rewrite (fit_inr _ _ _ _ _ _ _ Hs HN Hfit). fold D.
  apply graph_of_lightest; (assumption || lia).
Qed.

Lemma fit_lightest_witness :
  exists w,
    get2 (distance_matrix "root_inv"
            (np.corrcoef 3 3 (data MoreExamples.TS_three))) 1 2 = Some w
    /\ Forest.connected
         (Kruskal.lighter
            (graph_of 3 (distance_matrix "root_inv"
                           (np.corrcoef 3 3 (data MoreExamples.TS_three)))) w)
         1 2.
Proof.
  assert (Hl : exists w,
             get2 (distance_matrix "root_inv"
                     (np.corrcoef 3 3 (data MoreExamples.TS_three))) 1 2
             = Some w /\ csgraph.is_null w = false)
    by (eexists; (split; [vm_compute; reflexivity|vm_compute; reflexivity])).
  destruct Hl as (w & Hw & Hnull). exists w. split; [exact Hw|].
  apply (fit_lightest MoreExamples.TS_three "root_inv" Examples.fresh
           (fit MoreExamples.TS_three "root_inv" Examples.fresh).1
           (graph_of 3 (distance_matrix "root_inv"
                          (np.corrcoef 3 3 (data MoreExamples.TS_three))))
           3 3 1 2 w).
  - reflexivity.
  - lia.
  - vm_compute. reflexivity.
  - lia.
  - lia.
  - exact Hw.
  - exact Hnull.
Defined.

(** X5: two sensors are connected in the returned graph exactly when a
    chain of usable entries of the distance matrix leads from one to the
    other: the graph spans every component of the usable entries and joins
    no two of them. *)
Theorem fit_connects_usable TS distance self self' G N L u v :
  shape TS = [N; L] -> 2 <= N ->
  fit TS distance self = (self', inr G) ->
  let D := distance_matrix distance (np.corrcoef N L (data TS)) in
  u < N -> v < N ->
  (Forest.connected (dom (nx.edges G)) u v <-> rtc (usable N D) u v).
Proof.
  intros Hs HN Hfit D Hu Hv.
  rewrite (fit_inr _ _ _ _ _ _ _ Hs HN Hfit). fold D.
  apply graph_of_connected; (assumption || lia).
Qed.

Lemma fit_connects_usable_witness :
  let D := distance_matrix "root_inv"
             (np.corrcoef 3 3 (data MoreExamples.TS_missing)) in
  Forest.connected (dom (nx.edges (graph_of 3 D))) 0 2
  /\ ~ rtc (usable 3 D) 0 1.
Proof.
  intros D.
  assert (Hfit : fit MoreExamples.TS_missing "root_inv" Examples.fresh
                 = ((fit MoreExamples.TS_missing "root_inv" Examples.fresh).1,
                    inr (graph_of 3 D)))
    by (vm_compute; reflexivity).
  pose proof (fun u v => fit_connects_usable MoreExamples.TS_missing
                "root_inv" Examples.fresh _ _ 3 3 u v eq_refl
                ltac:(lia) Hfit) as H.
  cbn zeta in H. fold D in H. split.
  - apply H; [lia|lia|]. apply rtc_once.
    split; [lia|]. split; [lia|]. left. eexists. split; [vm_compute; reflexivity|vm_compute; reflexivity].
  - intros Hr. apply H in Hr; [|lia|lia].
    apply ForestFacts.connected_sym in Hr.
    apply (no_edge_alone _ 1) in Hr; [discriminate|].
    intros j Hedge. apply graph_of_edge in Hedge
      as (_ & Hj & [(w & Hg & Hn)|(w & Hg & Hn)]);
      destruct j as [|[|[|j]]]; try lia;
      vm_compute in Hg; injection Hg as <-; discriminate.
Defined.

(** ** A single sensor *)

Lemma shape_cov_single L d : shape (np.cov 1 L d) = [].
Proof. reflexivity. Qed.

Lemma shape_corrcoef_single L d : shape (np.corrcoef 1 L d) = [].
Proof. unfold np.corrcoef. rewrite shape_cov_single. reflexivity. Qed.

(** X6: a [TS] with a single row makes [fit] raise, and only after it has
    stored the distance matrix: [np.corrcoef] returns a zero-dimensional
    array for one variable, the distance of line 108 has no dimension
    either, it is stored under [distance_matrix], and SciPy then rejects it.
    What the instance held under [graph] stays as it was. *)
Theorem fit_single_row_raises TS distance self L :
  shape TS = [1; L] ->
  exists D,
    ndim D = 0
    /\ fit TS distance self
       = ({| results := <["distance_matrix" := PyArray D]> (results self) |},
          inl (ValueError "graph should have two dimensions"))
    /\ <["distance_matrix" := PyArray D]> (results self) !! "graph"%string
       = results self !! "graph"%string.
Proof.
  intros Hs. exists (distance_matrix distance (np.corrcoef 1 L (data TS))).
  assert (Hsh : shape (distance_matrix distance (np.corrcoef 1 L (data TS))) = [])
    by (now rewrite shape_distance_matrix, shape_corrcoef_single).
  split; [unfold ndim; now rewrite Hsh|]. split.
  - rewrite (fit_unpacked _ _ _ _ _ Hs). cbn zeta.
    unfold csgraph.minimum_spanning_tree, csgraph.csgraph_from_dense.
    now rewrite Hsh.
  - now rewrite lookup_insert_ne.
Qed.

Lemma fit_single_row_raises_witness :
  (fit MoreExamples.TS_single "inv_square" Examples.fresh).2
  = inl (ValueError "graph should have two dimensions")
  /\ is_Some (results (fit MoreExamples.TS_single "inv_square" Examples.fresh).1
              !! "distance_matrix"%string)
  /\ results (fit MoreExamples.TS_single "inv_square" Examples.fresh).1
     !! "graph"%string = None.
Proof.
  destruct (fit_single_row_raises MoreExamples.TS_single "inv_square"
              Examples.fresh 4 eq_refl) as (D & _ & Hfit & Hgraph).
  rewrite Hfit. cbn [fst snd results]. split; [reflexivity|]. split.
  - rewrite lookup_insert_eq. eauto.
  - rewrite Hgraph. reflexivity.
Defined.

(** ** Successive calls *)

Lemma fit_inr_shape TS distance self self' G :
  fit TS distance self = (self', inr G) -> exists N L, shape TS = [N; L].
Proof.
  intros Hfit. destruct (shape TS) as [|n [|m [|k sh]]] eqn:Hs; eauto;
    destruct (fit_not_unpacked TS distance self) as [msg Hmsg];
    try (unfold ndim; rewrite Hs; cbn; lia); congruence.
Qed.

(** X7: a call that returns overwrites what an earlier call stored: after
    two calls in a row the instance and the result are those of the second
    call made alone, so that [fit] reads nothing of what it stored
    before. *)
Theorem fit_overwrites TS1 distance1 TS2 distance2 self self1 G1 self2 G2 :
  fit TS1 distance1 self = (self1, inr G1) ->
  fit TS2 distance2 self1 = (self2, inr G2) ->
  fit TS2 distance2 self = (self2, inr G2).
Proof.
  intros H1 H2.
  destruct (fit_inr_shape _ _ _ _ _ H1) as (N1 & L1 & Hs1).
  destruct (fit_inr_shape _ _ _ _ _ H2) as (N2 & L2 & Hs2).
  rewrite (fit_unpacked _ _ _ _ _ Hs1) in H1.
  rewrite (fit_unpacked _ _ _ _ _ Hs2) in H2.
  rewrite (fit_unpacked _ _ _ _ _ Hs2).
  cbn zeta in *.
  destruct (csgraph.minimum_spanning_tree
              (distance_matrix distance1 _)) as [e1|MST1]; [discriminate|].
  destruct (csgraph.minimum_spanning_tree
              (distance_matrix distance2 _)) as [e2|MST2]; [discriminate|].
  injection H1 as <- _. injection H2 as <- <-. cbn [results].
  f_equal. f_equal. apply map_eq. intros key.
  destruct (decide (key = "graph"%string)) as [->|Hg];
    [now rewrite !lookup_insert_eq|].
  rewrite !(lookup_insert_ne _ "graph"%string) by congruence.
  destruct (decide (key = "distance_matrix"%string)) as [->|Hd];
    [now rewrite !lookup_insert_eq|].
  now rewrite !lookup_insert_ne by congruence.
Qed.

Lemma fit_overwrites_witness :
  fit MoreExamples.TS_three "inv_square"
    (fit Examples.TS_twins "root_inv" Examples.fresh).1
  = fit MoreExamples.TS_three "inv_square" Examples.fresh.
Proof.
  assert (H1 : fit Examples.TS_twins "root_inv" Examples.fresh
               = ((fit Examples.TS_twins "root_inv" Examples.fresh).1,
                  inr (graph_of 3 (distance_matrix "root_inv"
                         (np.corrcoef 3 3 (data Examples.TS_twins))))))
    by (vm_compute; reflexivity).
  assert (H2 : fit MoreExamples.TS_three "inv_square"
                 (fit Examples.TS_twins "root_inv" Examples.fresh).1
               = ((fit MoreExamples.TS_three "inv_square" Examples.fresh).1,
                  inr (graph_of 3 (distance_matrix "inv_square"
                         (np.corrcoef 3 3 (data MoreExamples.TS_three))))))
    by (vm_compute; reflexivity).
  rewrite H2. symmetry.
  exact (fit_overwrites _ _ _ _ _ _ _ _ _ H1 H2).
Defined.

(** ** Rows without a correlation *)

(** A node whose row and column of the correlation matrix are
    not-a-number has no edge. *)
Lemma nan_row_no_edge N distance C i :
  (forall j, j < N ->
     get2 C i j = Some F64.nan /\ get2 C j i = Some F64.nan) ->
  forall j, ~ nx.has_edge (graph_of N (distance_matrix distance C)) i j.
Proof.
  intros HC j Hedge.
  apply graph_of_edge in Hedge as (_ & Hj & [(w & Hg & Hn)|(w & Hg & Hn)]).
  - destruct (HC j Hj) as [H _].
    apply (distance_entry_nan distance) in H.
    rewrite H in Hg. injection Hg as <-. now rewrite is_null_nan in Hn.
  - destruct (HC j Hj) as [_ H].
    apply (distance_entry_nan distance) in H.
    rewrite H in Hg. injection Hg as <-. now rewrite is_null_nan in Hn.
Qed.

Module DegenerateFacts.

Import F64 F64Facts.

Lemma add_nan_r x : (x + nan)%f64 = nan.
Proof. now destruct x. Qed.

Lemma sub_nan_r x : (x - nan)%f64 = nan.
Proof. now destruct x. Qed.

Lemma fold_add_nan xs : fold_left add xs nan = nan.
Proof. induction xs as [|x xs IH]; [reflexivity|exact IH]. Qed.

(** A sum over a row with a not-a-number sample is not-a-number. *)
Lemma sum_nan xs : nan ∈ xs -> np.sum xs = nan.
Proof.
  unfold np.sum. generalize zero.
  induction xs as [|x xs IH]; intros acc Hin; [now apply elem_of_nil in Hin|].
  apply elem_of_cons in Hin as [<-|Hin]; cbn [fold_left].
  - rewrite add_nan_r. apply fold_add_nan.
  - now apply IH.
Qed.

Lemma deviations_nan xs :
  nan ∈ xs -> Forall (fun x => zero_or_nan x = true) (np.deviations xs).
Proof.
  intros Hin. unfold np.deviations, np.mean. rewrite (sum_nan xs Hin).
  rewrite div_nan_l. apply Forall_forall. intros y Hy.
  change (map ?f ?l) with (f <$> l) in Hy.
  apply list_elem_of_fmap in Hy as (x & -> & _).
  now rewrite sub_nan_r.
Qed.

Lemma dot_degenerate_l xs ys :
  Forall (fun x => zero_or_nan x = true) xs ->
  zero_or_nan (np.dot xs ys) = true.
Proof.
  intros Hxs. unfold np.dot. apply fold_add_zero_or_nan; [reflexivity|].
  revert ys. induction Hxs as [|x xs Hx _ IH]; intros [|y ys]; cbn;
    constructor; auto.
  now apply mul_zero_or_nan_l.
Qed.

Lemma dot_degenerate_r xs ys :
  Forall (fun y => zero_or_nan y = true) ys ->
  zero_or_nan (np.dot xs ys) = true.
Proof.
  intros Hys. unfold np.dot. apply fold_add_zero_or_nan; [reflexivity|].
  revert xs. induction Hys as [|y ys Hy _ IH]; intros [|x xs]; cbn;
    constructor; auto.
  now apply mul_zero_or_nan_r.
Qed.

(** A row whose deviations are zeros or not-a-number has no correlation
    with any row. *)
Lemma corrcoef_degenerate_row N L d i j :
  2 <= N -> i < N -> j < N ->
  Forall (fun x => zero_or_nan x = true) (np.deviations (row L d i)) ->
  get2 (np.corrcoef N L d) i j = Some nan
  /\ get2 (np.corrcoef N L d) j i = Some nan.
Proof.
  intros HN Hi Hj Hdeg.
  assert (Hrow : forall k, k < N ->
             zero_or_nan (default nan (get2 (np.cov N L d) i k)) = true
             /\ zero_or_nan (default nan (get2 (np.cov N L d) k i)) = true).
  { intros k Hk. rewrite !(get2_cov N L d HN) by assumption. cbn [default].
    split; apply mul_zero_or_nan_l;
      [now apply dot_degenerate_l|now apply dot_degenerate_r]. }
  rewrite !(get2_corrcoef N L d HN) by assumption. cbn zeta.
  destruct (Hrow j Hj) as [Hij Hji]. destruct (Hrow i Hi) as [Hii _].
  split; f_equal.
  - rewrite (div_zero_or_nan _ (sqrt _) Hij (sqrt_zero_or_nan _ Hii)).
    reflexivity.
  - rewrite (div_zero_or_nan (_ / _)%f64 (sqrt _));
      [reflexivity| |now apply sqrt_zero_or_nan].
    now apply div_zero_or_nan_l.
Qed.

Ltac inf_cases :=
  cbv [nan_or_inf is_nan is_inf orb mul div sqrt SFmul SFdiv SFsqrt xorb];
  intros; try discriminate; try reflexivity.

Lemma one_div_zero : (one / zero)%f64 = S754_infinity false.
Proof. vm_compute. reflexivity. Qed.

Lemma mul_inf x : nan_or_inf (x * S754_infinity false)%f64 = true.
Proof. destruct x as [[|]|[|]| |[|] ? ?]; inf_cases. Qed.

Lemma sqrt_nan_or_inf x : nan_or_inf x = true -> nan_or_inf (sqrt x) = true.
Proof. destruct x as [[|]|[|]| |[|] ? ?]; inf_cases. Qed.

Lemma div_nan_or_inf x y :
  nan_or_inf x = true -> nan_or_inf y = true -> (x / y)%f64 = nan.
Proof.
  destruct x as [[|]|[|]| |[|] ? ?], y as [[|]|[|]| |[|] ? ?]; inf_cases.
Qed.

(** With fewer than two observations [np.cov] divides by zero, and no
    correlation is a number. *)
Lemma corrcoef_few_observations N L d i j :
  2 <= N -> L <= 1 -> i < N -> j < N ->
  get2 (np.corrcoef N L d) i j = Some nan.
Proof.
  intros HN HL Hi Hj.
  assert (Hfact : (one / np.fact L)%f64 = S754_infinity false).
  { unfold np.fact. destruct (Nat.leb_spec L 1); [apply one_div_zero|lia]. }
  assert (Hcv : forall a b, a < N -> b < N ->
             nan_or_inf (default nan (get2 (np.cov N L d) a b)) = true).
  { intros a b Ha Hb. rewrite (get2_cov N L d HN) by assumption.
    cbn [default]. rewrite Hfact. apply mul_inf. }
  rewrite (get2_corrcoef N L d HN) by assumption. cbn zeta. f_equal.
  rewrite (div_nan_or_inf _ (sqrt _) (Hcv i j Hi Hj)
             (sqrt_nan_or_inf _ (Hcv i i Hi Hi))).
  reflexivity.
Qed.

Lemma square_opp c : np.square (opp c) = np.square c.
Proof.
  unfold np.square, mul, opp.
  destruct c as [[|]|[|]| |[|] m e]; reflexivity.
Qed.

End DegenerateFacts.

(** X8: the inverse-square distance is blind to the sign of the
    correlation: for every value of [distance] other than [root_inv], the
    distance matrix of [-C] is that of [C], so that two sensors that move
    against each other are as close as two that move together. *)
Theorem distance_matrix_sign_blind distance C :
  distance <> "root_inv"%string ->
  distance_matrix distance (ufunc F64.opp C) = distance_matrix distance C.
Proof.
  intros Hd. rewrite !distance_matrix_not_root_inv by assumption.
  unfold ufunc. cbn [shape data]. f_equal.
  rewrite map_map. apply map_ext. intros c. unfold inv_square.
  now rewrite DegenerateFacts.square_opp.
Qed.

Lemma distance_matrix_sign_blind_witness :
  distance_matrix "inv_square"
    (ufunc F64.opp (np.corrcoef 3 3 (data MoreExamples.TS_three)))
  = distance_matrix "inv_square" (np.corrcoef 3 3 (data MoreExamples.TS_three)).
Proof. apply distance_matrix_sign_blind. discriminate. Defined.

(** X9: a missing observation isolates its sensor: when row [i] of a [TS]
    with at least two rows holds a not-a-number, [fit] does not raise, the
    distances between [i] and every sensor are not-a-number, and node [i]
    of the returned graph has no edge. *)
Theorem fit_nan_row_is_isolated TS distance self N L i :
  shape TS = [N; L] -> 2 <= N -> i < N ->
  F64.nan ∈ row L (data TS) i ->
  let D := distance_matrix distance (np.corrcoef N L (data TS)) in
  exists self' G,
    fit TS distance self = (self', inr G)
    /\ (forall j, j < N ->
          get2 D i j = Some F64.nan /\ get2 D j i = Some F64.nan)
    /\ (forall j, ~ nx.has_edge G i j)
    /\ (forall j, Forest.connected (dom (nx.edges G)) i j -> j = i).
Proof.
  intros Hs HN Hi Hnan D.
  assert (HC : forall j, j < N ->
             get2 (np.corrcoef N L (data TS)) i j = Some F64.nan
             /\ get2 (np.corrcoef N L (data TS)) j i = Some F64.nan).
  { intros j Hj. apply DegenerateFacts.corrcoef_degenerate_row; try assumption.
    now apply DegenerateFacts.deviations_nan. }
  pose proof (nan_row_no_edge N distance _ i HC) as Hno. fold D in Hno.
  eexists _, _. split; [apply (fit_returns _ _ _ _ _ Hs HN)|]. fold D.
  split; [|split].
  - intros j Hj. destruct (HC j Hj).
    split; now apply distance_entry_nan.
  - exact Hno.
  - apply no_edge_alone, Hno.
Qed.

Lemma fit_nan_row_is_isolated_witness :
  exists G,
    (fit MoreExamples.TS_missing "root_inv" Examples.fresh).2 = inr G
    /\ forall j, ~ nx.has_edge G 1 j.
Proof.
  destruct (fit_nan_row_is_isolated MoreExamples.TS_missing "root_inv"
              Examples.fresh 3 3 1)
    as (self' & G & Hfit & _ & Hno & _).
  - reflexivity.
  - lia.
  - lia.
  - apply elem_of_cons; right. apply elem_of_cons; left. reflexivity.
  - exists G. rewrite Hfit. split; [reflexivity|exact Hno].
Defined.

(** X10: with at most one observation per sensor and at least two sensors
    [fit] does not raise: every entry of the distance matrix is
    not-a-number and the returned graph has its [N] nodes and no edge. *)
Theorem fit_few_observations TS distance self N L :
  shape TS = [N; L] -> 2 <= N -> L <= 1 ->
  let D := distance_matrix distance (np.corrcoef N L (data TS)) in
  exists self' G,
    fit TS distance self = (self', inr G)
    /\ (forall i j, i < N -> j < N -> get2 D i j = Some F64.nan)
    /\ (forall a, a ∈ nx.nodes G <-> a < N)
    /\ nx.edges G = ∅.
Proof.
  intros Hs HN HL D.
  assert (HC : forall i j, i < N -> j < N ->
             get2 (np.corrcoef N L (data TS)) i j = Some F64.nan)
    by (intros; now apply DegenerateFacts.corrcoef_few_observations).
  eexists _, _. split; [apply (fit_returns _ _ _ _ _ Hs HN)|]. fold D.
  split; [|split].
  - intros i j Hi Hj. now apply distance_entry_nan, HC.
  - apply graph_of_nodes.
  - apply map_empty. intros [a b].
    destruct (nx.edges (graph_of N D) !! (a, b)) as [w|] eqn:Hw; [|reflexivity].
    exfalso.
    assert (Hin : (a, b) ∈ dom (nx.edges (graph_of N D)))
      by (apply elem_of_dom; eauto).
    destruct (graph_of_edge_key _ _ _ _ Hin) as [Hab Hb].
    apply (nan_row_no_edge N distance (np.corrcoef N L (data TS)) a
             (fun j Hj => conj (HC a j ltac:(lia) Hj) (HC j a Hj ltac:(lia)))
             b).
    fold D. unfold nx.has_edge, nx.edge_key.
    rewrite Nat.min_l, Nat.max_r by lia. eauto.
Qed.

Lemma fit_few_observations_witness :
  exists G,
    (fit MoreExamples.TS_column "root_inv" Examples.fresh).2 = inr G
    /\ 2 ∈ nx.nodes G /\ nx.edges G = ∅.
Proof.
  destruct (fit_few_observations MoreExamples.TS_column "root_inv"
              Examples.fresh 3 1)
    as (self' & G & Hfit & _ & Hnodes & Hedges).
  - reflexivity.
  - lia.
  - lia.
  - exists G. rewrite Hfit. repeat split; try assumption.
    apply Hnodes. lia.
Defined.


(** * Properties that depend on the reductions *)

Lemma fit_with_left_to_right : fit_with left_to_right = fit.
Proof. reflexivity. Qed.

Section WithReductions.

Variable R : Reductions.

Lemma shape_cov_with N L d : 2 <= N -> shape (npr.cov R N L d) = [N; N].
Proof.
  intros HN. unfold npr.cov.
  destruct (Nat.eqb_spec N 0); [lia|].
  cbn. destruct (Nat.eqb_spec N 1); [lia|]. reflexivity.
Qed.

Lemma get2_cov_with N L d i j :
  2 <= N -> i < N -> j < N ->
  get2 (npr.cov R N L d) i j
  = Some (r_dot R i j (npr.deviations R (row L d i))
            (npr.deviations R (row L d j))
          * (F64.one / np.fact L))%f64.
Proof.
  intros HN Hi Hj. unfold npr.cov. destruct (Nat.eqb_spec N 0); [lia|].
  unfold np.squeeze, tabulate2 at 1; cbn [shape data List.filter].
  destruct (Nat.eqb_spec N 1); [lia|]. cbn [negb].
  now apply (get2_tabulate2
    (fun i j => (r_dot R i j (npr.deviations R (row L d i))
                   (npr.deviations R (row L d j))
                 * (F64.one / np.fact L))%f64)).
Qed.

Lemma get2_corrcoef_with N L d i j :
  2 <= N -> i < N -> j < N ->
  get2 (npr.corrcoef R N L d) i j = Some (np.clip (npr.quotient R N L d i j)).
Proof.
  intros HN Hi Hj. unfold npr.corrcoef. rewrite shape_cov_with by assumption.
  now rewrite get2_tabulate2.
Qed.

Lemma shape_corrcoef_with N L d :
  2 <= N -> shape (npr.corrcoef R N L d) = [N; N].
Proof. intros HN. unfold npr.corrcoef. now rewrite shape_cov_with. Qed.

Lemma fit_with_returns TS distance self N L :
  shape TS = [N; L] -> 2 <= N ->
  let D := distance_matrix distance (npr.corrcoef R N L (data TS)) in
  fit_with R TS distance self =
    ({| results := <["graph" := PyGraph (graph_of N D)]>
                     (<["distance_matrix" := PyArray D]> (results self)) |},
     inr (graph_of N D)).
Proof.
  intros Hs HN D. unfold fit_with, unpack_shape. rewrite Hs. cbn.
  unfold mbind, method_bind, mret, method_ret, set_result, lift; cbn.
  fold D. rewrite (minimum_spanning_tree_square D N); [reflexivity|].
  unfold D. now rewrite shape_distance_matrix, shape_corrcoef_with.
Qed.

(** An entry of the correlation matrix is not-a-number or a binary64
    number of absolute value at most 1, whatever the reductions return. *)
Lemma corrcoef_with_entry N L d i j c :
  2 <= N -> i < N -> j < N ->
  get2 (npr.corrcoef R N L d) i j = Some c ->
  F64.is_nan c = true \/ Rounding.mag_le 0 c.
Proof.
  intros HN Hi Hj. rewrite get2_corrcoef_with by assumption.
  intros [= <-]. unfold npr.quotient.
  edestruct clip_spec as [Hnan|[_ Hmag]]; [apply RoundingFacts.div_valid|..];
    eauto.
Qed.

(** A row whose deviations are zeros has no correlation with any row. *)
Lemma corrcoef_with_zero_row N L d i j :
  annihilating R -> 2 <= N -> i < N -> j < N ->
  Forall (fun x => F64.is_zero x = true) (npr.deviations R (row L d i)) ->
  get2 (npr.corrcoef R N L d) i j = Some F64.nan
  /\ get2 (npr.corrcoef R N L d) j i = Some F64.nan.
Proof.
  intros HR HN Hi Hj Hzero.
  assert (Hrow : forall k, k < N ->
             F64.zero_or_nan (default F64.nan (get2 (npr.cov R N L d) i k)) = true
             /\ F64.zero_or_nan (default F64.nan (get2 (npr.cov R N L d) k i)) = true).
  { intros k Hk. rewrite !get2_cov_with by assumption. cbn [default].
    split; apply F64Facts.mul_zero_or_nan_l; apply HR; auto. }
  rewrite !get2_corrcoef_with by assumption. unfold npr.quotient.
  destruct (Hrow j Hj) as [Hij Hji]. destruct (Hrow i Hi) as [Hii _].
  split; f_equal.
  - rewrite (F64Facts.div_zero_or_nan _ (F64.sqrt _) Hij
               (F64Facts.sqrt_zero_or_nan _ Hii)).
    reflexivity.
  - rewrite (F64Facts.div_zero_or_nan (_ / _)%f64 (F64.sqrt _));
      [reflexivity| |now apply F64Facts.sqrt_zero_or_nan].
    now apply F64Facts.div_zero_or_nan_l.
Qed.

End WithReductions.

(** Adding from left to right, a dot product with a row of zeros is a zero
    or not-a-number. *)
Lemma left_to_right_annihilating : annihilating left_to_right.
Proof.
  intros i j xs ys [H|H]; cbn [r_dot left_to_right];
    [now apply dot_zero_l|now apply dot_zero_r].
Qed.

(** ** A row of zero variance *)

(** C2, the claim fails: the samples of row 0 of [TS_tenths] are all
    [0.1], but their sum is rounded and their mean is
    [0.10000000000000002]: the deviations are not zero, the correlation of
    the two rows is 0 and no not-a-number, and the graph joins node 0 to
    node 1 by an edge of weight [sqrt 2]. *)
Lemma constant_row_is_joined :
  row 3 (data Examples.TS_tenths) 0
  = [Examples.tenth; Examples.tenth; Examples.tenth]
  /\ np.mean (row 3 (data Examples.TS_tenths) 0)
     = S754_finite false 7205759403792795 (-56)
  /\ get2 (np.corrcoef 2 3 (data Examples.TS_tenths)) 0 1 = Some F64.zero
  /\ exists G,
       (fit Examples.TS_tenths "root_inv" Examples.fresh).2 = inr G
       /\ nx.edges G !! nx.edge_key 0 1 = Some (F64.sqrt F64.two).
Proof.
  split; [vm_compute; reflexivity|]. split; [vm_compute; reflexivity|].
  split; [vm_compute; reflexivity|].
  eexists. split; [vm_compute; reflexivity|vm_compute; reflexivity].
Qed.

(** C2, amended: for every two-dimensional [TS] with at least two rows and
    a row [i] whose computed deviations from the row mean are all zero,
    whatever way the library adds the row and the products, [fit] does not
    raise; the correlation and distance entries of row and column [i] are
    not-a-number; the tree builder takes not-a-number for an absent edge;
    and the returned graph is a forest on the [N] nodes in which node [i]
    has no edge and is a component of its own. *)
Theorem fit_zero_variance_row_is_isolated R TS distance self N L i :
  annihilating R ->
  shape TS = [N; L] -> 2 <= N -> i < N ->
  Forall (fun x => F64.is_zero x = true)
    (npr.deviations R (row L (data TS) i)) ->
  let C := npr.corrcoef R N L (data TS) in
  let D := distance_matrix distance C in
  exists self' G,
    fit_with R TS distance self = (self', inr G)
    /\ (forall j, j < N ->
          get2 C i j = Some F64.nan /\ get2 C j i = Some F64.nan
          /\ get2 D i j = Some F64.nan /\ get2 D j i = Some F64.nan)
    /\ csgraph.is_null F64.nan = true
    /\ (forall a, a ∈ nx.nodes G <-> a < N)
    /\ Forest.acyclic (dom (nx.edges G))
    /\ (forall j, ~ nx.has_edge G i j)
    /\ (forall j, Forest.connected (dom (nx.edges G)) i j -> j = i).
Proof.
  intros HR Hs HN Hi Hzero C D.
  assert (HC : forall j, j < N ->
             get2 C i j = Some F64.nan /\ get2 C j i = Some F64.nan).
  { intros j Hj. now apply corrcoef_with_zero_row. }
  pose proof (nan_row_no_edge N distance C i HC) as Hno. fold D in Hno.
  eexists _, (graph_of N D).
  split; [apply (fit_with_returns R TS distance self N L Hs HN)|].
  split; [|split; [|split; [|split; [|split]]]].
  - intros j Hj. destruct (HC j Hj) as [H1 H2].
    repeat split; try assumption; now apply distance_entry_nan.
  - reflexivity.
  - apply graph_of_nodes.
  - apply graph_of_acyclic.
  - exact Hno.
  - apply no_edge_alone, Hno.
Qed.

Lemma fit_zero_variance_row_is_isolated_witness :
  exists G,
    (fit Examples.TS_constant_row "root_inv" Examples.fresh).2 = inr G
    /\ (forall j, ~ nx.has_edge G 0 j)
    /\ 0 ∈ nx.nodes G
    /\ Forest.acyclic (dom (nx.edges G)).
Proof.
  destruct (fit_zero_variance_row_is_isolated left_to_right
              Examples.TS_constant_row "root_inv" Examples.fresh 3 3 0)
    as (self' & G & Hfit & _ & _ & Hnodes & Hforest & Hno & _).
  - apply left_to_right_annihilating.
  - reflexivity.
  - lia.
  - lia.
  - vm_compute. repeat constructor.
  - exists G. rewrite <- fit_with_left_to_right, Hfit.
    repeat split; try assumption. apply Hnodes. lia.
Defined.

(** ** Round-off above 1 *)

Lemma nonneg_not_negative y : Rounding.nonneg y -> F64.ltb y F64.zero = false.
Proof. destruct y as [s|s| |[|] m e]; intros H; try reflexivity; destruct H. Qed.

Lemma leb_not_nan a b : F64.leb a b = true -> F64.is_nan b = false.
Proof. destruct a, b; try reflexivity; discriminate. Qed.

(** [np.clip] takes a quotient above 1 to 1. *)
Lemma clip_above_one q : F64.ltb F64.one q = true -> np.clip q = F64.one.
Proof.
  intros Hq. unfold np.clip.
  destruct q as [s|[|]| |[|] m e]; try discriminate; try reflexivity.
  - cbn [F64.is_nan]. now rewrite Hq.
Qed.

(** The transform of line 108 has no clamp of its own: applied to
    [1 + 2^-52] it takes the square root of [-2^-51]. *)
Lemma root_inv_has_no_clamp :
  F64.ltb (F64.two * (F64.one - Examples.above_one))%f64 F64.zero = true
  /\ root_inv Examples.above_one = F64.nan.
Proof. vm_compute. auto. Qed.

(** C6: wherever round-off puts the quotient of a covariance by the two
    standard deviations above 1, [np.corrcoef] clips the correlation to 1,
    the quantity [2 * (1 - C)] under the square root is 0, and the distance
    that [fit] stores is exactly 0.  Under the square root there is a
    negative number for no entry, so that a distance is not-a-number only
    where the correlation is. *)
Theorem fit_round_off_above_one_is_zero R TS self N L i j :
  shape TS = [N; L] -> 2 <= N -> i < N -> j < N ->
  F64.ltb F64.one (npr.quotient R N L (data TS) i j) = true ->
  let C := npr.corrcoef R N L (data TS) in
  let D := distance_matrix "root_inv" C in
  exists self' G,
    fit_with R TS "root_inv" self = (self', inr G)
    /\ results self' !! "distance_matrix"%string = Some (PyArray D)
    /\ get2 C i j = Some F64.one
    /\ (F64.two * (F64.one - F64.one))%f64 = F64.zero
    /\ get2 D i j = Some F64.zero
    /\ (forall a b c, a < N -> b < N -> get2 C a b = Some c ->
          F64.ltb (F64.two * (F64.one - c))%f64 F64.zero = false
          /\ (F64.is_nan c = false -> F64.is_nan (root_inv c) = false)).
Proof.
  intros Hs HN Hi Hj Hq C D.
  assert (HC : get2 C i j = Some F64.one).
  { unfold C. rewrite get2_corrcoef_with by assumption.
    now rewrite clip_above_one. }
  eexists _, _.
  split; [apply (fit_with_returns R TS "root_inv" self N L Hs HN)|].
  fold C. fold D. cbn [results].
  split; [rewrite lookup_insert_ne by discriminate; apply lookup_insert_eq|].
  split; [exact HC|]. split; [reflexivity|]. split.
  - unfold D. rewrite get2_distance_matrix, HC, String.eqb_refl.
    cbn [fmap option_fmap option_map]. now rewrite root_inv_one.
  - intros a b c Ha Hb Hc.
    destruct (corrcoef_with_entry R _ _ _ _ _ _ HN Ha Hb Hc) as [Hnan|Hmag].
    + apply is_nan_eq in Hnan. subst c. split; [reflexivity|discriminate].
    + split.
      * destruct (RoundingFacts.sub_one_spec c Hmag) as (_ & Hn1 & Hb1 & _).
        destruct (RoundingFacts.mul_two_spec _ Hn1 Hb1) as (Hn2 & _).
        now apply nonneg_not_negative.
      * intros _. destruct (root_inv_range c Hmag) as [Hpos _].
        now apply leb_not_nan in Hpos.
Qed.

Lemma fit_round_off_above_one_is_zero_witness :
  npr.quotient left_to_right 2 3 (data MoreExamples.TS_round_off) 0 0
  = Examples.above_one
  /\ get2 (distance_matrix "root_inv"
             (np.corrcoef 2 3 (data MoreExamples.TS_round_off))) 0 0
     = Some F64.zero.
Proof.
  split; [vm_compute; reflexivity|].
  destruct (fit_round_off_above_one_is_zero left_to_right
              MoreExamples.TS_round_off Examples.fresh 2 3 0 0)
    as (self' & G & _ & _ & _ & _ & HD & _).
  - reflexivity.
  - lia.
  - lia.
  - lia.
  - vm_compute. reflexivity.
  - exact HD.
Defined.

(** ** Identical rows *)



(** ** The results store *)

Lemma fit_with_unpacked R TS distance self N L :
  shape TS = [N; L] ->
  fit_with R TS distance self =
    let D := distance_matrix distance (npr.corrcoef R N L (data TS)) in
    let stored := <["distance_matrix" := PyArray D]> (results self) in
    match csgraph.minimum_spanning_tree D with
    | inl e => ({| results := stored |}, inl e)
    | inr MST =>
        let G := nx.from_scipy_sparse_matrix MST in
        ({| results := <["graph" := PyGraph G]> stored |}, inr G)
    end.
Proof.
  intros Hs. unfold fit_with, unpack_shape. rewrite Hs. cbn.
  unfold mbind, method_bind, mret, method_ret, set_result, lift; cbn.
  now destruct (csgraph.minimum_spanning_tree _).
Qed.

(** C9, amended: each call to [fit] that returns writes the distance
    matrix that it computed from [TS] and the graph that it built from that
    matrix under the keys [distance_matrix] and [graph] of the results
    dictionary attached to the instance, and returns that graph; the
    dictionary is the one the instance had before the call, and every other
    entry of it is still there after the call. *)
Theorem fit_updates_results_in_place R TS distance self self' G :
  fit_with R TS distance self = (self', inr G) ->
  exists N L MST,
    shape TS = [N; L]
    /\ let D := distance_matrix distance (npr.corrcoef R N L (data TS)) in
       csgraph.minimum_spanning_tree D = inr MST
       /\ G = nx.from_scipy_sparse_matrix MST
       /\ results self'
          = <["graph" := PyGraph G]>
              (<["distance_matrix" := PyArray D]> (results self))
       /\ results self' !! "distance_matrix"%string = Some (PyArray D)
       /\ results self' !! "graph"%string = Some (PyGraph G)
       /\ forall key, key <> "graph"%string ->
                      key <> "distance_matrix"%string ->
                      results self' !! key = results self !! key.
Proof.
  intros Hfit.
  destruct (shape TS) as [|N [|L [|k sh]]] eqn:Hs;
    try (unfold fit_with, unpack_shape in Hfit; rewrite Hs in Hfit;
         discriminate).
  rewrite (fit_with_unpacked R _ _ _ N L Hs) in Hfit. cbn zeta in Hfit.
  destruct (csgraph.minimum_spanning_tree _) as [e|MST] eqn:HMST;
    [discriminate|].
  injection Hfit as <- <-.
  exists N, L, MST. split; [reflexivity|]. cbn zeta. cbn [results].
  split; [exact HMST|]. split; [reflexivity|]. split; [reflexivity|].
  split; [|split].
  - rewrite lookup_insert_ne by discriminate. apply lookup_insert_eq.
  - apply lookup_insert_eq.
  - intros key H1 H2. rewrite lookup_insert_ne by congruence.
    now rewrite lookup_insert_ne by congruence.
Qed.

Lemma fit_updates_results_in_place_witness :
  results (fit Examples.TS_twins "root_inv" Examples.fresh).1
    !! "distance_matrix"%string
  = Some (PyArray Examples.D_twins)
  /\ results (fit Examples.TS_twins "root_inv" Examples.fresh).1
       !! "graph"%string
     = Some (PyGraph (graph_of 3 Examples.D_twins)).
Proof.
  destruct (fit_updates_results_in_place left_to_right Examples.TS_twins
              "root_inv" Examples.fresh
              (fit Examples.TS_twins "root_inv" Examples.fresh).1
              (graph_of 3 Examples.D_twins))
    as (N & L & MST & Hs & _ & _ & _ & HD & HG & _).
  - vm_compute. reflexivity.
  - injection Hs as <- <-. split; [|exact HG].
    rewrite HD. vm_compute. reflexivity.
Defined.

(** ** The order of the entries, and which of them are kept *)

Module TieBreakFacts.

Import csgraph Kruskal ForestFacts KruskalFacts SpanningFacts OrderFacts.

Lemma precedes_elem_of l p q : precedes l p q -> p ∈ l /\ q ∈ l.
Proof.
  induction 1 as [p q l Hq|k p q l _ [IHp IHq]].
  - split; [apply elem_of_cons; auto|apply elem_of_cons; auto].
  - split; apply elem_of_cons; auto.
Qed.






End TieBreakFacts.



